(** * A shallow embedding of [gpt/src/model-easier.ts]

    The file embeds the GPT language model of [model-easier.ts]: the
    construction of the model ([GPT], [Block], [CausalSelfAttention],
    [Head], [FeedForward]), its forward pass ([apply]) and the
    autoregressive sampling loop ([generate]).

    Conventions.
    - A JavaScript [number] held in a float tensor is a [num]: a rational
      or one of NaN, -Infinity, +Infinity.  Rounding, overflow and the sign
      of zero are not modelled.
    - A tensor is its shape together with its entries as nested lists.  The
      tensorflow.js operations the source calls ([slice], [concat], [where],
      [topk], ...) are defined on that representation and return [Err] where
      the library throws on the shapes.
    - The layers of [tf.layers] (their weights and numerics), [Math.sqrt],
      the exponential, the random sampler and the active backend are the
      variables of the section [Model]. *)

From Stdlib Require Import QArith Qround Qpower ZArith Lia Lqa DecimalString
  DecimalNat.
From stdpp Require Import base list sorting gmap sets strings.

Local Open Scope string_scope.
Local Open Scope Z_scope.
Local Open Scope nat_scope.
Local Open Scope list_scope.

(** ** Exceptions *)

(** [Error msg] is [throw new Error(msg)] of the source; [TfError op] is an
    error thrown inside the tensorflow.js operation [op]. *)
Inductive error : Type :=
  | Error (msg : string)
  | TfError (op : string).

Inductive result (A : Type) : Type :=
  | Ok (a : A)
  | Err (e : error).
Arguments Ok {A} a.
Arguments Err {A} e.

#[global] Instance result_ret : MRet result := fun _ a => Ok a.
#[global] Instance result_bind : MBind result := fun _ _ f m =>
  match m with
  | Ok a => f a
  | Err e => Err e
  end.

(** Decimal rendering of a size inside a template literal. *)
Definition dec (n : nat) : string := NilZero.string_of_uint (Nat.to_uint n).

(** ** Numbers *)

(** The entries of a float tensor: NaN, the two infinities and the finite
    numbers.  The finite numbers are rationals and the arithmetic on them is
    exact: rounding, overflow to an infinity and underflow to 0 of the
    32-bit floats of the library are outside the model. *)
Inductive num : Type :=
  | NaN
  | NegInf
  | PosInf
  | Fin (q : Q).

Definition is_fin (x : num) : bool :=
  match x with Fin _ => true | _ => false end.

Definition num_neg (x : num) : num :=
  match x with
  | NaN => NaN
  | NegInf => PosInf
  | PosInf => NegInf
  | Fin q => Fin (- q)
  end.

Definition num_add (x y : num) : num :=
  match x, y with
  | NaN, _ | _, NaN => NaN
  | PosInf, NegInf | NegInf, PosInf => NaN
  | PosInf, _ | _, PosInf => PosInf
  | NegInf, _ | _, NegInf => NegInf
  | Fin a, Fin b => Fin (a + b)
  end.

Definition num_sub (x y : num) : num := num_add x (num_neg y).

Definition num_mul (x y : num) : num :=
  match x, y with
  | NaN, _ | _, NaN => NaN
  | Fin a, Fin b => Fin (a * b)
  | Fin a, PosInf | PosInf, Fin a =>
      match (a ?= 0)%Q with Eq => NaN | Gt => PosInf | Lt => NegInf end
  | Fin a, NegInf | NegInf, Fin a =>
      match (a ?= 0)%Q with Eq => NaN | Gt => NegInf | Lt => PosInf end
  | PosInf, PosInf | NegInf, NegInf => PosInf
  | PosInf, NegInf | NegInf, PosInf => NegInf
  end.

Definition num_div (x y : num) : num :=
  match x, y with
  | NaN, _ | _, NaN => NaN
  | Fin a, Fin b =>
      if Qeq_bool b 0
      then match (a ?= 0)%Q with Eq => NaN | Gt => PosInf | Lt => NegInf end
      else Fin (a / b)
  | Fin _, _ => Fin 0
  | PosInf, Fin b => if Qle_bool 0 b then PosInf else NegInf
  | NegInf, Fin b => if Qle_bool 0 b then NegInf else PosInf
  | _, _ => NaN
  end.

(** [x >= y] of JavaScript: false as soon as one side is NaN. *)
Definition num_ge (x y : num) : bool :=
  match x, y with
  | NaN, _ | _, NaN => false
  | PosInf, _ | _, NegInf => true
  | _, PosInf | NegInf, _ => false
  | Fin a, Fin b => Qle_bool b a
  end.

Definition num_gt (x y : num) : bool :=
  match x, y with
  | NaN, _ | _, NaN => false
  | _, PosInf | NegInf, _ => false
  | PosInf, _ | _, NegInf => true
  | Fin a, Fin b => negb (Qle_bool a b)
  end.

Definition num_eqb (x y : num) : bool :=
  match x, y with
  | PosInf, PosInf | NegInf, NegInf => true
  | Fin a, Fin b => Qeq_bool a b
  | _, _ => false
  end.

(** The order in which [topk] and [max] arrange entries.  tensorflow.js leaves
    the place of NaN to the backend; here NaN is below every number. *)
Definition num_rank_le (x y : num) : bool :=
  match x, y with
  | NaN, _ => true
  | _, NaN => false
  | _, _ => num_ge y x
  end.

Definition num_max (x y : num) : num :=
  match x, y with
  | NaN, _ | _, NaN => NaN
  | _, _ => if num_ge x y then x else y
  end.

(** ** Tensors *)

Record tensor1 (A : Type) : Type := Tensor1 { shape1 : nat; data1 : list A }.
Record tensor2 (A : Type) : Type :=
  Tensor2 { shape2 : nat * nat; data2 : list (list A) }.
Record tensor3 (A : Type) : Type :=
  Tensor3 { shape3 : nat * nat * nat; data3 : list (list (list A)) }.
Arguments Tensor1 {A} _ _.
Arguments shape1 {A} _.
Arguments data1 {A} _.
Arguments Tensor2 {A} _ _.
Arguments shape2 {A} _.
Arguments data2 {A} _.
Arguments Tensor3 {A} _ _.
Arguments shape3 {A} _.
Arguments data3 {A} _.

Definition entry3 {A} (t : tensor3 A) (b i j : nat) : option A :=
  m ← data3 t !! b; r ← m !! i; r !! j.

(** The entries agree with the shape. *)
Definition wf2 {A} (t : tensor2 A) : Prop :=
  length (data2 t) = (shape2 t).1 ∧
  Forall (λ r, length r = (shape2 t).2) (data2 t).
Definition wf3 {A} (t : tensor3 A) : Prop :=
  length (data3 t) = (shape3 t).1.1 ∧
  Forall (λ m, length m = (shape3 t).1.2 ∧
               Forall (λ r, length r = (shape3 t).2) m) (data3 t).

(** One axis of [slice]: [begin] and [size] to an offset and a length.
    A size of [-1] takes the rest of the axis. *)
Definition slice_axis (dim : nat) (b s : Z) : result (nat * nat) :=
  if (b <? 0)%Z then Err (TfError "slice")
  else
    let s' := if (s =? -1)%Z then (Z.of_nat dim - b)%Z else s in
    if ((s' <? 0) || (Z.of_nat dim <? b + s'))%Z then Err (TfError "slice")
    else Ok (Z.to_nat b, Z.to_nat s').

Definition cut {A} (os : nat * nat) (l : list A) : list A :=
  take os.2 (drop os.1 l).

Definition slice2 {A} (t : tensor2 A) (b : Z * Z) (s : Z * Z)
  : result (tensor2 A) :=
  r ← slice_axis (shape2 t).1 b.1 s.1;
  c ← slice_axis (shape2 t).2 b.2 s.2;
  Ok (Tensor2 (r.2, c.2) (cut c <$> cut r (data2 t))).

Definition slice3 {A} (t : tensor3 A) (b : Z * Z * Z) (s : Z * Z * Z)
  : result (tensor3 A) :=
  r ← slice_axis (shape3 t).1.1 b.1.1 s.1.1;
  c ← slice_axis (shape3 t).1.2 b.1.2 s.1.2;
  d ← slice_axis (shape3 t).2 b.2 s.2;
  Ok (Tensor3 (r.2, c.2, d.2) (fmap (M:=list) (cut d) <$> (cut c <$> cut r (data3 t)))).

(** [squeeze([1])] of a rank 3 tensor. *)
Definition squeeze1 {A} (t : tensor3 A) : result (tensor2 A) :=
  if (shape3 t).1.2 =? 1
  then Ok (Tensor2 ((shape3 t).1.1, (shape3 t).2) (@concat A <$> data3 t))
  else Err (TfError "squeeze").

Definition zeros2 (r c : nat) : tensor2 Z :=
  Tensor2 (r, c) (replicate r (replicate c 0%Z)).

(** [tf.concat([a, b], 1)]. *)
Definition concat2 {A} (a b : tensor2 A) : result (tensor2 A) :=
  if (shape2 a).1 =? (shape2 b).1
  then Ok (Tensor2 ((shape2 a).1, (shape2 a).2 + (shape2 b).2)
                   (zip_with app (data2 a) (data2 b)))
  else Err (TfError "concat").

(** *** Elementwise operations and broadcasting *)

Definition tmap2 {A B} (f : A → B) (t : tensor2 A) : tensor2 B :=
  Tensor2 (shape2 t) (fmap (M:=list) f <$> data2 t).
Definition tmap3 {A B} (f : A → B) (t : tensor3 A) : tensor3 B :=
  Tensor3 (shape3 t) (fmap (M:=list) (fmap (M:=list) f) <$> data3 t).

(** The broadcast of two sizes of one axis, when there is one. *)
Definition bdim (m n : nat) : option nat :=
  if m =? n then Some m
  else if m =? 1 then Some n
  else if n =? 1 then Some m
  else None.

(** Entries along one axis of sizes [m] and [n], the side of size 1 being
    repeated. *)
Definition bzip {A B C} (m n : nat) (f : A → B → C)
  : list A → list B → list C :=
  if m =? n then zip_with f
  else if m =? 1
  then λ la lb, match la with a :: _ => f a <$> lb | [] => [] end
  else λ la lb, match lb with b :: _ => (λ a, f a b) <$> la | [] => [] end.

Definition binop2 {A B C} (op : string) (f : A → B → C)
    (a : tensor2 A) (b : tensor2 B) : result (tensor2 C) :=
  match bdim (shape2 a).1 (shape2 b).1, bdim (shape2 a).2 (shape2 b).2 with
  | Some r, Some c =>
      Ok (Tensor2 (r, c)
            (bzip (shape2 a).1 (shape2 b).1
               (bzip (shape2 a).2 (shape2 b).2 f) (data2 a) (data2 b)))
  | _, _ => Err (TfError op)
  end.

Definition binop3 {A B C} (op : string) (f : A → B → C)
    (a : tensor3 A) (b : tensor3 B) : result (tensor3 C) :=
  match bdim (shape3 a).1.1 (shape3 b).1.1,
        bdim (shape3 a).1.2 (shape3 b).1.2,
        bdim (shape3 a).2 (shape3 b).2 with
  | Some r, Some c, Some d =>
      Ok (Tensor3 (r, c, d)
            (bzip (shape3 a).1.1 (shape3 b).1.1
               (bzip (shape3 a).1.2 (shape3 b).1.2
                  (bzip (shape3 a).2 (shape3 b).2 f)) (data3 a) (data3 b)))
  | _, _, _ => Err (TfError op)
  end.

(** A rank 2 tensor seen with a leading axis of size 1, as broadcasting
    aligns it with a rank 3 tensor. *)
Definition lift3 {A} (t : tensor2 A) : tensor3 A :=
  Tensor3 (1, (shape2 t).1, (shape2 t).2) [data2 t].

Definition add3 (a b : tensor3 num) : result (tensor3 num) :=
  binop3 "add" num_add a b.

(** [tf.div(t, tf.scalar(s))] and [t.mul(tf.scalar(s))]. *)
Definition div_scalar2 (t : tensor2 num) (s : num) : tensor2 num :=
  tmap2 (λ x, num_div x s) t.
Definition mul_scalar3 (t : tensor3 num) (s : num) : tensor3 num :=
  tmap3 (λ x, num_mul x s) t.

Definition greaterEqual2 (a b : tensor2 num) : result (tensor2 bool) :=
  binop2 "greaterEqual" num_ge a b.

(** [equal(0)]. *)
Definition equal_zero2 (t : tensor2 num) : tensor2 bool :=
  tmap2 (λ x, num_eqb x (Fin 0)) t.

(** [tf.where(cond, a, b)] with one side a scalar. *)
Definition where2_else_scalar (cond : tensor2 bool) (a : tensor2 num) (b : num)
  : result (tensor2 num) :=
  binop2 "where" (λ (c : bool) x, if c then x else b) cond a.
Definition where3_then_scalar (cond : tensor2 bool) (a : num) (b : tensor3 num)
  : result (tensor3 num) :=
  binop3 "where" (λ (c : bool) x, if c then a else x) (lift3 cond) b.

(** *** [topk] *)

Definition num_desc (x y : num) : Prop := num_rank_le y x.
#[global] Instance num_desc_dec x y : Decision (num_desc x y).
Proof. unfold num_desc. apply _. Defined.

(** The [k] largest entries of every row, largest first.  The order ranks
    NaN below every number; the kernels of the library place NaN
    differently, so the statements on [topk] are about rows without NaN. *)
Definition topk_values (t : tensor2 num) (k : nat) : result (tensor2 num) :=
  if (shape2 t).2 <? k then Err (TfError "topk")
  else Ok (Tensor2 ((shape2 t).1, k)
                   ((λ r, take k (merge_sort num_desc r)) <$> data2 t)).

(** *** [argMax] and [expandDims] *)

(** The position of the first largest entry, scanning as the CPU kernel
    does: the candidate changes only on a strictly larger entry. *)
Fixpoint argmax_from (best : num) (besti i : nat) (l : list num) : nat :=
  match l with
  | [] => besti
  | x :: l' =>
      if num_gt x best then argmax_from x i (S i) l'
      else argmax_from best besti (S i) l'
  end.
Definition argmax_row (l : list num) : nat :=
  match l with
  | [] => 0
  | x :: l' => argmax_from x 0 1 l'
  end.

Definition argMax_last (t : tensor2 num) : tensor1 Z :=
  Tensor1 (shape2 t).1 ((λ r, Z.of_nat (argmax_row r)) <$> data2 t).

Definition expandDims_last {A} (t : tensor1 A) : tensor2 A :=
  Tensor2 (shape1 t, 1) ((λ x, [x]) <$> data1 t).

(** *** Matrices *)

Definition transpose_m {A} (c : nat) (m : list (list A)) : list (list A) :=
  foldr (zip_with cons) (replicate c []) m.

(** [transpose([0, 2, 1])]. *)
Definition transpose3 {A} (t : tensor3 A) : tensor3 A :=
  Tensor3 ((shape3 t).1.1, (shape3 t).2, (shape3 t).1.2)
          (transpose_m (shape3 t).2 <$> data3 t).

Definition dot (r c : list num) : num :=
  foldr num_add (Fin 0) (zip_with num_mul r c).

Definition matmul_m (n : nat) (a b : list (list num)) : list (list num) :=
  (λ r, dot r <$> transpose_m n b) <$> a.

(** Batched [tf.matMul]. *)
Definition matMul (a b : tensor3 num) : result (tensor3 num) :=
  match bdim (shape3 a).1.1 (shape3 b).1.1 with
  | Some B =>
      if (shape3 a).2 =? (shape3 b).1.2
      then Ok (Tensor3 (B, (shape3 a).1.2, (shape3 b).2)
                 (bzip (shape3 a).1.1 (shape3 b).1.1
                    (matmul_m (shape3 b).2) (data3 a) (data3 b)))
      else Err (TfError "matMul")
  | None => Err (TfError "matMul")
  end.

(** [tf.concat(ts, -1)] of rank 3 tensors. *)
Definition concat3_last {A} (ts : list (tensor3 A)) : result (tensor3 A) :=
  match ts with
  | [] => Err (TfError "concat")
  | t :: ts' =>
      if forallb (λ u, ((shape3 u).1.1 =? (shape3 t).1.1) &&
                       ((shape3 u).1.2 =? (shape3 t).1.2)) ts'
      then Ok (Tensor3 ((shape3 t).1, foldr (λ u n, (shape3 u).2 + n) 0 ts)
                 (foldr (λ u acc, zip_with (zip_with app) (data3 u) acc)
                    (replicate (shape3 t).1.1 (replicate (shape3 t).1.2 []))
                    ts))
      else Err (TfError "concat")
  end.

Definition ones2 (r c : nat) : tensor2 num :=
  Tensor2 (r, c) (replicate r (replicate c (Fin 1))).

(** [tf.linalg.bandPart(t, numLower, numUpper)]: an entry outside the band
    becomes 0; a negative bound keeps the whole triangle. *)
Definition in_band (lower upper : Z) (i j : nat) : bool :=
  (((lower <? 0) || (Z.of_nat i - Z.of_nat j <=? lower)) &&
   ((upper <? 0) || (Z.of_nat j - Z.of_nat i <=? upper)))%Z.
Definition bandPart (t : tensor2 num) (lower upper : Z) : tensor2 num :=
  Tensor2 (shape2 t)
    (imap (λ i r, imap (λ j x, if in_band lower upper i j then x else Fin 0) r)
       (data2 t)).

(** [tf.range(0, T, 1).reshape([1, T])] and [tile([B, 1])]. *)
Definition range_row (T : nat) : tensor2 Z :=
  Tensor2 (1, T) [Z.of_nat <$> seq 0 T].
Definition tile_rows {A} (t : tensor2 A) (B : nat) : tensor2 A :=
  Tensor2 (B * (shape2 t).1, (shape2 t).2) (mjoin (replicate B (data2 t))).

(** *** [reshape] and [oneHot] *)

(** [n] consecutive pieces of [c] entries. *)
Fixpoint chunks {A} (c n : nat) (l : list A) : list (list A) :=
  match n with
  | 0 => []
  | S n' => take c l :: chunks c n' (drop c l)
  end.

(** [t.reshape([r, c])] of a rank 3 tensor and [t.reshape([n])] of a rank 2
    tensor: the entries in row-major order; the library throws when the new
    shape does not hold as many entries as the old one. *)
Definition reshape3_2 {A} (t : tensor3 A) (r c : nat) : result (tensor2 A) :=
  if (shape3 t).1.1 * (shape3 t).1.2 * (shape3 t).2 =? r * c
  then Ok (Tensor2 (r, c) (chunks c r (concat (concat (data3 t)))))
  else Err (TfError "reshape").

Definition reshape2_1 {A} (t : tensor2 A) (n : nat) : result (tensor1 A) :=
  if (shape2 t).1 * (shape2 t).2 =? n
  then Ok (Tensor1 n (concat (data2 t)))
  else Err (TfError "reshape").

(** [tf.oneHot(indices, depth)]: row [k] holds 1 at the position
    [indices[k]] and 0 elsewhere, all 0 when the index is outside
    [0 .. depth - 1]; the library refuses a depth below 2. *)
Definition oneHot_row (depth : nat) (i : Z) : list num :=
  (λ j, if (i =? Z.of_nat j)%Z then Fin 1 else Fin 0) <$> seq 0 depth.

Definition oneHot (indices : tensor1 Z) (depth : nat) : result (tensor2 num) :=
  if depth <? 2 then Err (TfError "oneHot")
  else Ok (Tensor2 (shape1 indices, depth)
             (oneHot_row depth <$> data1 indices)).


(** ** The layers of [tf.layers]

    A layer object is identified by the arguments it was created with; what
    it computes is a variable of the section [Model].  Creating a layer is an
    effect: the constructors of the model run in [ctor], which threads the
    list of the layers created so far and may throw. *)

Record EmbeddingArgs : Type := {
  emb_name : string;
  emb_inputDim : nat;
  emb_outputDim : nat;
  emb_maskZero : bool;
  emb_inputShape : option (list nat) }.

Record DenseArgs : Type := {
  dense_name : string;
  dense_units : nat;
  dense_useBias : bool;
  dense_inputDim : option nat;
  dense_inputShape : option (list nat);
  dense_activation : option string }.

Record DropoutArgs : Type := { drop_name : string; drop_rate : num }.
Record LayerNormArgs : Type := { ln_name : string }.
Record AddArgs : Type := { add_name : string }.

Inductive tf_layer : Type :=
  | L_embedding (a : EmbeddingArgs)
  | L_dense (a : DenseArgs)
  | L_dropout (a : DropoutArgs)
  | L_layerNormalization (a : LayerNormArgs)
  | L_add (a : AddArgs).

Definition layer_name (l : tf_layer) : string :=
  match l with
  | L_embedding a => emb_name a
  | L_dense a => dense_name a
  | L_dropout a => drop_name a
  | L_layerNormalization a => ln_name a
  | L_add a => add_name a
  end.

Definition ctor (A : Type) : Type := list tf_layer → list tf_layer * result A.

#[global] Instance ctor_ret : MRet ctor := λ _ a log, (log, Ok a).
#[global] Instance ctor_bind : MBind ctor := λ _ _ f m log,
  match m log with
  | (log', Ok a) => f a log'
  | (log', Err e) => (log', Err e)
  end.

Definition throw {A} (e : error) : ctor A := λ log, (log, Err e).
Definition created (l : tf_layer) : ctor unit := λ log, (log ++ [l], Ok tt).

(** The constructors of the layers record the layer and return it.  The
    library refuses some arguments (an embedding or a dense layer of size 0
    among them); the constructors here accept all, and the statements on a
    construction that succeeds are made for positive sizes. *)
Definition tf_layers_embedding (a : EmbeddingArgs) : ctor EmbeddingArgs :=
  created (L_embedding a);; mret a.
Definition tf_layers_dense (a : DenseArgs) : ctor DenseArgs :=
  created (L_dense a);; mret a.
Definition tf_layers_dropout (a : DropoutArgs) : ctor DropoutArgs :=
  created (L_dropout a);; mret a.
Definition tf_layers_layerNormalization (a : LayerNormArgs)
  : ctor LayerNormArgs :=
  created (L_layerNormalization a);; mret a.
Definition tf_layers_add (a : AddArgs) : ctor AddArgs :=
  created (L_add a);; mret a.

(** [Array.from({ length: n }, (_, i) => f i)]. *)
Definition Array_from {A} (n : nat) (f : nat → ctor A) : ctor (list A) :=
  mapM f (seq 0 n).

(** [a % b] on sizes: NaN ([None]) when [b] is 0. *)
Definition js_rem (a b : nat) : option nat :=
  if b =? 0 then None else Some (a mod b).

(** ** The model *)

Record ModelParams : Type := {
  nLayer : nat;
  nHead : nat;
  nEmbd : nat;
  vocabSize : nat;
  blockSize : nat;
  embdDropout : option num;
  residDropout : option num;
  attnDropout : option num }.

Record HeadLayer : Type := {
  head_key : DenseArgs;
  head_query : DenseArgs;
  head_value : DenseArgs;
  head_drop : DropoutArgs;
  head_tril : tensor2 num;
  head_headSize : nat }.

Record AttentionLayer : Type := {
  attn_heads : list HeadLayer;
  attn_proj : DenseArgs;
  attn_drop : DropoutArgs }.

Record FeedForwardLayer : Type := {
  ffwd_cFc : DenseArgs;
  ffwd_cProj : DenseArgs;
  ffwd_drop : DropoutArgs }.

Record BlockLayer : Type := {
  block_ln1 : LayerNormArgs;
  block_attn : AttentionLayer;
  block_ln2 : LayerNormArgs;
  block_mlp : FeedForwardLayer }.

Record Transformer : Type := {
  wte : EmbeddingArgs;
  wpe : EmbeddingArgs;
  drop : DropoutArgs;
  add : AddArgs;
  h : list BlockLayer;
  lnF : LayerNormArgs }.

Record Model : Type := {
  params : ModelParams;
  transformer : Transformer;
  lmHead : DenseArgs }.

(** Modelled from the spec: [withLayerHelpers] and [withModelHelpers] of
    [./utils], which is not part of the sources at hand.  The spec names them
    bookkeeping helpers; they hand back the layer (the model) they are given,
    its [apply] unchanged. *)
Definition withLayerHelpers {A} (layer : A) : A := layer.
Definition withModelHelpers {A} (model : A) : A := model.

Definition dense_args (name : string) (units : nat) : DenseArgs :=
  {| dense_name := name; dense_units := units; dense_useBias := true;
     dense_inputDim := None; dense_inputShape := None;
     dense_activation := None |}.

Definition Head (nEmbd headSize blockSize : nat) (attnDropout : num)
    (name : string) : ctor HeadLayer :=
  key ← tf_layers_dense
    {| dense_name := name +:+ "-key"; dense_inputDim := Some nEmbd;
       dense_units := headSize; dense_useBias := false;
       dense_inputShape := None; dense_activation := None |};
  query ← tf_layers_dense
    {| dense_name := name +:+ "-query"; dense_inputDim := Some nEmbd;
       dense_units := headSize; dense_useBias := false;
       dense_inputShape := None; dense_activation := None |};
  value ← tf_layers_dense
    {| dense_name := name +:+ "-value"; dense_inputDim := Some nEmbd;
       dense_units := headSize; dense_useBias := false;
       dense_inputShape := None; dense_activation := None |};
  drop ← tf_layers_dropout
    {| drop_name := name +:+ "-drop"; drop_rate := attnDropout |};
  (* Create a lower triangular matrix (the equivalent of torch.tril) *)
  let tril := bandPart (ones2 blockSize blockSize) (-1) 0 in
  mret (withLayerHelpers
    {| head_key := key; head_query := query; head_value := value;
       head_drop := drop; head_tril := tril; head_headSize := headSize |}).

Definition CausalSelfAttention (nEmbd blockSize nHead : nat)
    (attnDropout residDropout : num) (name : string) : ctor AttentionLayer :=
  if decide (js_rem nEmbd nHead ≠ Some 0)
  then throw (Error "Cannot calculate head size: nEmbd % nHead !== 0")
  else
    let headSize := nEmbd / nHead in
    heads ← Array_from nHead (λ i,
      Head nEmbd headSize blockSize attnDropout (name +:+ "-head" +:+ dec i));
    proj ← tf_layers_dense (dense_args (name +:+ "-proj") nEmbd);
    drop ← tf_layers_dropout
      {| drop_name := name +:+ "-drop"; drop_rate := residDropout |};
    mret (withLayerHelpers
      {| attn_heads := heads; attn_proj := proj; attn_drop := drop |}).

Definition FeedForward (nEmbd : nat) (residDropout : num) (name : string)
  : ctor FeedForwardLayer :=
  cFc ← tf_layers_dense
    {| dense_name := name +:+ "-cFc"; dense_inputShape := Some [nEmbd];
       dense_units := 4 * nEmbd; dense_activation := Some "gelu_new";
       dense_useBias := true; dense_inputDim := None |};
  cProj ← tf_layers_dense
    {| dense_name := name +:+ "-cProj"; dense_inputShape := Some [4 * nEmbd];
       dense_units := nEmbd; dense_activation := None;
       dense_useBias := true; dense_inputDim := None |};
  drop ← tf_layers_dropout
    {| drop_name := name +:+ "-drop"; drop_rate := residDropout |};
  mret (withLayerHelpers
    {| ffwd_cFc := cFc; ffwd_cProj := cProj; ffwd_drop := drop |}).

Definition Block (nEmbd nHead blockSize : nat) (residDropout attnDropout : num)
    (nLayer : nat) (name : string) : ctor BlockLayer :=
  ln1 ← tf_layers_layerNormalization {| ln_name := name +:+ "-ln1" |};
  attn ← CausalSelfAttention nEmbd blockSize nHead attnDropout residDropout
            (name +:+ "-attn");
  ln2 ← tf_layers_layerNormalization {| ln_name := name +:+ "-ln2" |};
  mlp ← FeedForward nEmbd residDropout (name +:+ "-mlp");
  mret (withLayerHelpers
    {| block_ln1 := ln1; block_attn := attn; block_ln2 := ln2;
       block_mlp := mlp |}).

Definition GPT (p : ModelParams) : ctor Model :=
  let embdDropout := default (Fin (1 # 10)) (embdDropout p) in
  let residDropout := default (Fin (1 # 10)) (residDropout p) in
  let attnDropout := default (Fin (1 # 10)) (attnDropout p) in
  wte ← tf_layers_embedding
    {| emb_name := "wte"; emb_inputDim := vocabSize p + 1;
       emb_outputDim := nEmbd p; emb_maskZero := true;
       emb_inputShape := None |};
  wpe ← tf_layers_embedding
    {| emb_name := "wpe"; emb_inputDim := blockSize p;
       emb_outputDim := nEmbd p; emb_maskZero := false;
       emb_inputShape := Some [blockSize p] |};
  drop ← tf_layers_dropout {| drop_name := "drop"; drop_rate := embdDropout |};
  add ← tf_layers_add {| add_name := "add" |};
  h ← Array_from (nLayer p) (λ i,
    Block (nEmbd p) (nHead p) (blockSize p) residDropout attnDropout
      (nLayer p) ("block" +:+ dec (i + 1)));
  lnF ← tf_layers_layerNormalization {| ln_name := "lnF" |};
  lmHead ← tf_layers_dense
    {| dense_name := "lmHead"; dense_units := vocabSize p;
       dense_useBias := false; dense_inputDim := None;
       dense_inputShape := None; dense_activation := None |};
  mret (withModelHelpers
    {| params := p;
       transformer := {| wte := wte; wpe := wpe; drop := drop; add := add;
                         h := h; lnF := lnF |};
       lmHead := lmHead |}).

(** ** A small instance of the library

    Concrete layers on which the model runs inside Rocq: an embedding that
    repeats the token, a dense layer whose [j]-th output is the floor of the
    sum of its inputs plus [j], modulo 3, layer normalization and dropout as the identity
    (dropout outside training), the integer square root, [2 ^ floor q] for
    the exponential, and a sampler that walks through the vocabulary. *)

Definition toy_embedding (a : EmbeddingArgs) (idx : tensor2 Z) : tensor3 num :=
  Tensor3 (shape2 idx, emb_outputDim a)
    (fmap (M:=list)
       (λ tok, replicate (emb_outputDim a) (Fin (inject_Z tok))) <$> data2 idx).

Definition num_floor (x : num) : Z :=
  match x with Fin q => Qfloor q | _ => 0%Z end.

Definition toy_dense (a : DenseArgs) (x : tensor3 num) : tensor3 num :=
  Tensor3 ((shape3 x).1, dense_units a)
    ((λ b,
        (λ t,
           let r := default [] (m ← data3 x !! b; m !! t) in
           (λ j, Fin (inject_Z
                   ((num_floor (foldr num_add (Fin 0) r) + Z.of_nat j)
                      mod 3)%Z))
           <$> seq 0 (dense_units a))
        <$> seq 0 (shape3 x).1.2)
     <$> seq 0 (shape3 x).1.1).

Definition toy_layerNormalization (a : LayerNormArgs) (x : tensor3 num)
  : tensor3 num := x.
Definition toy_dropout (a : DropoutArgs) (x : tensor3 num) : tensor3 num := x.
Definition toy_sqrt (n : nat) : num := Fin (inject_Z (Z.of_nat (Nat.sqrt n))).
Definition toy_exp (q : Q) : Q := (2 ^ Qfloor q)%Q.
Definition toy_multinomial (p : tensor2 num) (n : nat) (normalized : bool)
    (g : nat) : tensor2 Z * nat :=
  (Tensor2 ((shape2 p).1, n)
     (replicate (shape2 p).1
        ((λ j, Z.of_nat ((g + j) mod (shape2 p).2)) <$> seq 0 n)),
   g + n).

(** A model of one block with two heads over a vocabulary of three tokens
    and two positions; as built by [GPT]. *)
Definition toy_params : ModelParams :=
  {| nLayer := 1; nHead := 2; nEmbd := 4; vocabSize := 3; blockSize := 2;
     embdDropout := None; residDropout := None; attnDropout := None |}.

Definition toy_log : list tf_layer := Eval vm_compute in (GPT toy_params []).1.

Definition toy_model : Model :=
  Eval vm_compute in
    match (GPT toy_params []).2 with
    | Ok m => m
    | Err _ =>
        {| params := toy_params;
           transformer :=
             {| wte := {| emb_name := "wte"; emb_inputDim := 4;
                          emb_outputDim := 4; emb_maskZero := true;
                          emb_inputShape := None |};
                wpe := {| emb_name := "wpe"; emb_inputDim := 2;
                          emb_outputDim := 4; emb_maskZero := false;
                          emb_inputShape := Some [2] |};
                drop := {| drop_name := "drop"; drop_rate := Fin (1 # 10) |};
                add := {| add_name := "add" |};
                h := [];
                lnF := {| ln_name := "lnF" |} |};
           lmHead := dense_args "lmHead" 3 |}
    end.

(** A stand-in for the logarithm on the small instance. *)
Definition toy_ln (q : Q) : Q := (q - 1)%Q.


(** ** The forward pass and the sampling loop *)

Section Model.

(** What the layers of the library compute.  They are total here; the
    embedding of the library throws on a token outside [0 .. inputDim - 1],
    so the statements on a call that returns are made for tokens in that
    range. *)
Variable embedding_apply : EmbeddingArgs → tensor2 Z → tensor3 num.
Variable dense_apply : DenseArgs → tensor3 num → tensor3 num.
Variable layerNormalization_apply : LayerNormArgs → tensor3 num → tensor3 num.
Variable dropout_apply : DropoutArgs → tensor3 num → tensor3 num.
(** [Math.sqrt] on a size, the exponential on finite numbers. *)
Variable Math_sqrt : nat → num.
Variable exp : Q → Q.
(** [tf.multinomial(logits, numSamples, undefined, normalized)] draws from
    the state of the random generator. *)
Variable rng : Type.
Variable multinomial : tensor2 num → nat → bool → rng → tensor2 Z * rng.
(** [tf.getBackend()]. *)
Variable getBackend : string.

(** *** [tf.softmax] over the last axis *)

Definition num_exp (x : num) : num :=
  match x with
  | NaN => NaN
  | NegInf => Fin 0
  | PosInf => PosInf
  | Fin q => Fin (exp q)
  end.

Definition softmax_row (l : list num) : list num :=
  let m := foldr num_max NegInf l in
  let e := (λ x, num_exp (num_sub x m)) <$> l in
  let s := foldr num_add (Fin 0) e in
  (λ x, num_div x s) <$> e.

Definition softmax2 (t : tensor2 num) : tensor2 num :=
  Tensor2 (shape2 t) (softmax_row <$> data2 t).
Definition softmax3 (t : tensor3 num) : tensor3 num :=
  Tensor3 (shape3 t) (fmap (M:=list) softmax_row <$> data3 t).

(** *** [Head] *)

(** The attention scores ("affinities") of a head. *)
Definition Head_scores (hd : HeadLayer) (x : tensor3 num)
  : result (tensor3 num) :=
  let k := dense_apply (head_key hd) x in
  let q := dense_apply (head_query hd) x in
  att ← matMul q (transpose3 k);
  Ok (mul_scalar3 att (num_div (Fin 1) (Math_sqrt (head_headSize hd)))).

(** The scores after [tf.where] has masked them with [tril]. *)
Definition Head_masked (hd : HeadLayer) (x : tensor3 num)
  : result (tensor3 num) :=
  let T := (shape3 x).1.2 in
  att ← Head_scores hd x;
  trilT ← slice2 (head_tril hd) (0%Z, 0%Z) (Z.of_nat T, Z.of_nat T);
  where3_then_scalar (equal_zero2 trilT) NegInf att.

(** The attention weights: the softmax of the masked scores. *)
Definition Head_weights (hd : HeadLayer) (x : tensor3 num)
  : result (tensor3 num) :=
  att ← Head_masked hd x;
  Ok (softmax3 att).

Definition Head_apply (hd : HeadLayer) (x : tensor3 num)
  : result (tensor3 num) :=
  att ← Head_weights hd x;
  let att := dropout_apply (head_drop hd) att in
  let y := dense_apply (head_value hd) x in
  matMul att y.

(** *** [CausalSelfAttention], [FeedForward], [Block] *)

Definition CausalSelfAttention_apply (a : AttentionLayer) (x : tensor3 num)
  : result (tensor3 num) :=
  ys ← mapM (λ head, Head_apply head x) (attn_heads a);
  y ← concat3_last ys;
  let y := dense_apply (attn_proj a) y in
  Ok (dropout_apply (attn_drop a) y).

Definition FeedForward_apply (f : FeedForwardLayer) (x : tensor3 num)
  : tensor3 num :=
  let x1 := dense_apply (ffwd_cFc f) x in
  let x2 := dense_apply (ffwd_cProj f) x1 in
  dropout_apply (ffwd_drop f) x2.

Definition Block_apply (b : BlockLayer) (x : tensor3 num)
  : result (tensor3 num) :=
  a ← CausalSelfAttention_apply (block_attn b)
         (layerNormalization_apply (block_ln1 b) x);
  x ← add3 x a;
  x ← add3 x (FeedForward_apply (block_mlp b)
                (layerNormalization_apply (block_ln2 b) x));
  Ok x.

(** [transformer.h.forEach((block) => { x = block.apply(x) })]. *)
Fixpoint forEach_block (bs : list BlockLayer) (x : tensor3 num)
  : result (tensor3 num) :=
  match bs with
  | [] => Ok x
  | b :: bs' => x' ← Block_apply b x; forEach_block bs' x'
  end.

(** *** [model.apply] *)

Definition GPT_apply (m : Model) (idx : tensor2 Z) : result (tensor3 num) :=
  let '(B, T) := shape2 idx in
  let blockSize := blockSize (params m) in
  if negb (T =? blockSize)
  then Err (Error ("Sequence must be of size " +:+ dec blockSize +:+
                   ", got " +:+ dec T))
  else
    let tr := transformer m in
    let tokEmb := embedding_apply (wte tr) idx in
    let pos := range_row T in
    let posBatched := tile_rows pos B in
    let posEmb := embedding_apply (wpe tr) posBatched in
    x ← add3 tokEmb posEmb;
    let x := dropout_apply (drop tr) x in
    x ← forEach_block (h tr) x;
    let x := layerNormalization_apply (lnF tr) x in
    (* Unnormalized outputs of the model's last linear layer *)
    let logits := dense_apply (lmHead m) x in
    Ok logits.

(** *** [model.generate] *)

(** The model input of one iteration: the running sequence cut or padded
    to [blockSize] along the time axis. *)
Definition idxShaped (blockSize : nat) (idx : tensor2 Z)
  : result (tensor2 Z) :=
  let T := Z.of_nat (shape2 idx).2 in
  let bs := Z.of_nat blockSize in
  (* If idx is too long - truncate the beginning of time dimension *)
  kept ← slice2 idx (0, Z.max 0 (T - bs))%Z (-1, Z.min T bs)%Z;
  (* If idx is too short - pad the time dimension *)
  let pad := zeros2 (shape2 idx).1 (Z.to_nat (Z.max 0 (bs - T))) in
  concat2 kept pad.

(** [logits.slice([0, i < blockSize ? i : blockSize - 1, 0], [-1, 1, -1])
    .squeeze([1])]. *)
Definition lastCharLogits (blockSize i : nat) (logits : tensor3 num)
  : result (tensor2 num) :=
  let pos := if i <? blockSize then Z.of_nat i
             else (Z.of_nat blockSize - 1)%Z in
  row ← slice3 logits (0, pos, 0)%Z (-1, 1, -1)%Z;
  squeeze1 row.

(** The body of [if (topK) { ... }]. *)
Definition topK_filter (vocabSize topK : nat) (l : tensor2 num)
  : result (tensor2 num) :=
  values ← topk_values l (Nat.min topK vocabSize);
  smallestTopK ←
    slice2 values (0, Z.of_nat (shape2 values).2 - 1)%Z (-1, -1)%Z;
  keep ← greaterEqual2 l smallestTopK;
  where2_else_scalar keep l NegInf.

(** A number is truthy unless it is 0 (or NaN); [undefined] is not. *)
Definition truthy (topK : option nat) : option nat :=
  match topK with
  | Some 0 => None
  | k => k
  end.

(** Either sample from the distribution or take the most likely element.
    The result is [(sampled, idxNext)] and the next state of the random
    generator. *)
Definition next_token (doSample : bool) (probs logits : tensor2 num)
    (g : rng) : result (tensor2 Z * tensor2 Z * rng) :=
  if doSample then
    let backend := getBackend in
    if String.eqb backend "webgpu" then
      (* 1st sample from tf.multinomial is always zero in webgpu backend *)
      let '(sampled, g') := multinomial probs 2 true g in
      idxNextSliced ← slice2 sampled (0, 1)%Z (1, 1)%Z;
      Ok (sampled, idxNextSliced, g')
    else if String.eqb backend "tensorflow" then
      (* TF Node backend does not support normalized logits *)
      let '(sampled, g') := multinomial logits 1 false g in
      Ok (sampled, sampled, g')
    else
      let '(sampled, g') := multinomial probs 1 true g in
      Ok (sampled, sampled, g')
  else
    let sampled := expandDims_last (argMax_last probs) in
    Ok (sampled, sampled, g).

(** The tensors of one iteration of the loop. *)
Record Iteration : Type := {
  it_i : nat;
  it_idx : tensor2 Z;
  it_idxShaped : tensor2 Z;
  it_logits : tensor3 num;
  it_lastCharLogits : tensor2 num;
  it_scaled : tensor2 num;
  it_filtered : tensor2 num;
  it_probs : tensor2 num;
  it_sampled : tensor2 Z;
  it_idxNext : tensor2 Z;
  it_newIdx : tensor2 Z }.

Definition generate_step (m : Model) (temperature : num) (doSample : bool)
    (topK : option nat) (i : nat) (idx : tensor2 Z) (g : rng)
  : result (Iteration * rng) :=
  let blockSize := blockSize (params m) in
  let vocabSize := vocabSize (params m) in
  shaped ← idxShaped blockSize idx;
  (* Forward the model to get the logits for the index in the sequence *)
  logits ← GPT_apply m shaped;
  (* Focus only on the last time step *)
  last ← lastCharLogits blockSize i logits;
  (* Scale by desired temperature *)
  let scaled := div_scalar2 last temperature in
  filtered ← match truthy topK with
             | Some k => topK_filter vocabSize k scaled
             | None => Ok scaled
             end;
  (* Apply softmax to convert logits to (normalized) probabilities *)
  let probs := softmax2 filtered in
  '(sampled, idxNext, g') ← next_token doSample probs filtered g;
  (* Append sampled index to the running sequence and continue *)
  newIdx ← concat2 idx idxNext;
  Ok ({| it_i := i; it_idx := idx; it_idxShaped := shaped;
         it_logits := logits; it_lastCharLogits := last;
         it_scaled := scaled; it_filtered := filtered; it_probs := probs;
         it_sampled := sampled; it_idxNext := idxNext;
         it_newIdx := newIdx |}, g').

Record GenerateParams : Type := {
  idx : tensor2 Z;
  maxNewTokens : nat;
  temperature : option num;
  doSample : option bool;
  topK : option nat }.

(** [for (let i = 0; i < maxNewTokens; i++) { ... }], [n] iterations being
    left; the iterations run so far are accumulated, latest last. *)
Fixpoint generate_loop (m : Model) (temperature : num) (doSample : bool)
    (topK : option nat) (n i : nat) (idx : tensor2 Z) (g : rng)
    (done : list Iteration)
  : result (tensor2 Z * list Iteration * rng) :=
  match n with
  | 0 => Ok (idx, done, g)
  | S n' =>
      '(it, g') ← generate_step m temperature doSample topK i idx g;
      generate_loop m temperature doSample topK n' (S i) (it_newIdx it) g'
        (done ++ [it])
  end.

(** [generate] with the iterations it went through.  The callback
    [onGenerateChar] and [tf.nextFrame] only observe the loop. *)
Definition generate_trace (m : Model) (p : GenerateParams) (g : rng)
  : result (tensor2 Z * list Iteration * rng) :=
  let temperature := default (Fin 1) (temperature p) in
  let doSample := default false (doSample p) in
  generate_loop m temperature doSample (topK p) (maxNewTokens p) 0 (idx p)
    g [].

Definition generate (m : Model) (p : GenerateParams) (g : rng)
  : result (tensor2 Z) :=
  '(out, _, _) ← generate_trace m p g;
  Ok out.

(** *** The tensors [generate] keeps alive

    tensorflow.js counts every tensor object until it is disposed.  The
    second reading of the loop body follows the handles instead of the
    values: every operation that returns a tensor registers a fresh handle,
    and [dispose] releases the handles it is given.  Only the path on which
    no operation throws is followed. *)

Record registry : Type := { next_id : nat; live : gset nat }.

Definition mem (A : Type) : Type := registry → A * registry.

#[local] Instance mem_ret : MRet mem := λ _ a r, (a, r).
#[local] Instance mem_bind : MBind mem := λ _ _ f m r,
  let '(a, r') := m r in f a r'.

(** The result of a tensor operation. *)
Definition new_tensor : mem nat := λ r,
  (next_id r,
   {| next_id := S (next_id r); live := {[ next_id r ]} ∪ live r |}).

(** [model.apply] runs inside [tf.tidy]: of the tensors it creates only
    the one it returns is still registered afterwards.  This is the call on
    a model that has run before; the weights that the first call of a
    model creates are not counted. *)
Definition tidy_apply : mem nat := new_tensor.

(** Modelled from the spec: [dispose] of [./utils], which is not part of
    the sources at hand; a bookkeeping helper that disposes the
    intermediate tensors it is given.  Entries that are [null] are skipped,
    and disposing a tensor twice is disposing it once. *)
Definition dispose (ts : list (option nat)) : mem unit := λ r,
  (tt, {| next_id := next_id r; live := live r ∖ list_to_set (omap id ts) |}).

(** The handles of one iteration, named after the variables of the source
    where they have one. *)
Record StepTensors : Type := {
  t_kept : nat;              (* idx.slice(...) *)
  t_pad : nat;               (* tf.zeros(...) *)
  t_idxShaped : nat;
  t_logits : nat;
  t_row : nat;               (* logits.slice(...) *)
  t_squeezed : nat;          (* .squeeze([1]), the first lastCharLogits *)
  t_temperature : nat;       (* tf.scalar(temperature) *)
  t_scaled : nat;            (* tf.div(...), the second lastCharLogits *)
  t_topk : list nat;         (* values, indices, smallestTopK, the mask,
                                tf.scalar(-Infinity) *)
  t_lastCharLogits : nat;    (* lastCharLogits when dispose is called *)
  t_probs : nat;
  t_argMax : option nat;     (* probs.argMax(-1) *)
  t_sampled : nat;
  t_idxNextSliced : option nat;
  t_idxNext : nat;
  t_oldIdx : nat;
  t_newIdx : nat }.

Definition mem_generate_step (doSample : bool) (topK : option nat)
    (idx : nat) : mem StepTensors :=
  kept ← new_tensor;
  pad ← new_tensor;
  shaped ← new_tensor;
  logits ← tidy_apply;
  row ← new_tensor;
  squeezed ← new_tensor;
  temperature ← new_tensor;
  scaled ← new_tensor;
  '(extra, lastCharLogits) ←
    match truthy topK with
    | Some _ =>
        values ← new_tensor;
        indices ← new_tensor;
        smallestTopK ← new_tensor;
        keep ← new_tensor;
        negInf ← new_tensor;
        filtered ← new_tensor;
        mret ([values; indices; smallestTopK; keep; negInf], filtered)
    | None => mret ([], scaled)
    end;
  probs ← new_tensor;
  '(argMax, sampled, idxNextSliced, idxNext) ←
    (if doSample then
       if String.eqb getBackend "webgpu" then
         sampled ← new_tensor;
         idxNextSliced ← new_tensor;
         mret (None, sampled, Some idxNextSliced, idxNextSliced)
       else
         sampled ← new_tensor;
         mret (None, sampled, None, sampled)
     else
       argMax ← new_tensor;
       sampled ← new_tensor;
       mret (Some argMax, sampled, None, sampled));
  let oldIdx := idx in
  newIdx ← new_tensor;
  dispose [Some shaped; Some logits; Some lastCharLogits; Some probs;
           Some sampled; idxNextSliced; Some idxNext; Some oldIdx];;
  mret {| t_kept := kept; t_pad := pad; t_idxShaped := shaped;
          t_logits := logits; t_row := row; t_squeezed := squeezed;
          t_temperature := temperature; t_scaled := scaled;
          t_topk := extra; t_lastCharLogits := lastCharLogits;
          t_probs := probs; t_argMax := argMax; t_sampled := sampled;
          t_idxNextSliced := idxNextSliced; t_idxNext := idxNext;
          t_oldIdx := oldIdx; t_newIdx := newIdx |}.

(** The tensors of an iteration that have no name in the source, or lose
    it to a later assignment, before [dispose] is called. *)
Definition unnamed (topK : option nat) (t : StepTensors) : list nat :=
  [t_kept t; t_pad t; t_row t; t_squeezed t; t_temperature t] ++
  (match truthy topK with Some _ => t_scaled t :: t_topk t | None => [] end)
  ++
  (match t_argMax t with Some a => [a] | None => [] end).

(** *** [model.loss] *)

Section Loss.

(** The natural logarithm on positive numbers. *)
Variable ln : Q → Q.

Definition num_ln (x : num) : num :=
  match x with
  | NaN | NegInf => NaN
  | PosInf => PosInf
  | Fin q =>
      match (q ?= 0)%Q with
      | Gt => Fin (ln q)
      | Eq => NegInf
      | Lt => NaN
      end
  end.

(** [tf.logSumExp] over the last axis: [max + log(sum(exp(x - max)))]. *)
Definition logSumExp_row (l : list num) : num :=
  let m := foldr num_max NegInf l in
  num_add m
    (num_ln (foldr num_add (Fin 0) ((λ x, num_exp (num_sub x m)) <$> l))).

(** The cross entropy of one row: [sum(neg(mul(logits - lse, labels)))]. *)
Definition softmaxCrossEntropyWithLogits_row (labels logits : list num)
  : num :=
  let lse := logSumExp_row logits in
  foldr num_add (Fin 0)
    (zip_with (λ x l, num_neg (num_mul (num_sub x lse) l)) logits labels).

(** [tf.losses.softmaxCrossEntropy(onehotLabels, logits)] with its default
    arguments: no weights, no label smoothing, and the reduction
    [SUM_BY_NONZERO_WEIGHTS], which without weights divides the sum of the
    losses of the rows by their number. *)
Definition softmaxCrossEntropy (onehotLabels logits : tensor2 num)
  : result num :=
  if decide (shape2 onehotLabels = shape2 logits) then
    let losses :=
      zip_with softmaxCrossEntropyWithLogits_row
        (data2 onehotLabels) (data2 logits) in
    Ok (num_div (foldr num_add (Fin 0) losses)
          (Fin (inject_Z (Z.of_nat (shape2 logits).1))))
  else Err (TfError "softmaxCrossEntropy").

Definition loss (m : Model) (idx targets : tensor2 Z) : result num :=
  logits ← GPT_apply m idx;
  let '(B, T, C) := shape3 logits in
  flattenLogits ← reshape3_2 logits (B * T) C;
  flattenTargets ← reshape2_1 targets (B * T);
  targetsOneHot ← oneHot flattenTargets (vocabSize (params m));
  softmaxCrossEntropy targetsOneHot flattenLogits.

End Loss.

(** *** [model.build]

    [modelIsWarm] is a variable of the closure of [GPT]; [build] reads and
    sets it. *)
Definition build (m : Model) (modelIsWarm : bool) : result unit * bool :=
  if modelIsWarm then (Ok tt, modelIsWarm)
  else
    (* Perform a test prediction to build the layers *)
    match GPT_apply m (zeros2 1 (blockSize (params m))) with
    | Ok _ => (Ok tt, true)
    | Err e => (Err e, modelIsWarm)
    end.

(** *** [generate] with a callback

    When [onGenerateChar] is given, every iteration calls it, after the
    running sequence has grown, with
    [((await idxNext.array()) as number[][])[0][0]]. *)

(** What [a[0][0]] reads from the nested array of a rank 2 tensor. *)
Inductive js_value : Type :=
  | Number (z : Z)
  | Undefined.

(** What a run ends with when it does not return: an exception of
    [generate] itself or of the library, or the [TypeError] JavaScript
    raises on reading an index of [undefined]. *)
Inductive exn : Type :=
  | Thrown (e : error)
  | TypeError.

(** [a[0][0]]: [a[0]] is [undefined] when [a] has no row, and then reading
    its index 0 throws; [a[0][0]] is [undefined] when row 0 is empty. *)
Definition first_entry (t : tensor2 Z) : option js_value :=
  match data2 t with
  | [] => None
  | [] :: _ => Some Undefined
  | (z :: _) :: _ => Some (Number z)
  end.

(** The loop of [generate] with [onGenerateChar] given; [calls] are the
    arguments of the calls made so far, latest last. *)
Fixpoint generate_loop_observed (m : Model) (temperature : num)
    (doSample : bool) (topK : option nat) (n i : nat) (idx : tensor2 Z)
    (g : rng) (calls : list js_value)
  : list js_value * (exn + tensor2 Z) :=
  match n with
  | 0 => (calls, inr idx)
  | S n' =>
      match generate_step m temperature doSample topK i idx g with
      | Err e => (calls, inl (Thrown e))
      | Ok (it, g') =>
          match first_entry (it_idxNext it) with
          | None => (calls, inl TypeError)
          | Some nextToken =>
              generate_loop_observed m temperature doSample topK n' (S i)
                (it_newIdx it) g' (calls ++ [nextToken])
          end
      end
  end.

Definition generate_observed (m : Model) (p : GenerateParams) (g : rng)
  : list js_value * (exn + tensor2 Z) :=
  let temperature := default (Fin 1) (temperature p) in
  let doSample := default false (doSample p) in
  generate_loop_observed m temperature doSample (topK p) (maxNewTokens p) 0
    (idx p) g [].


(** *** Predicates used in the statements *)

(** [tf_only r]: whatever [r] throws, it is not an [Error] of this file. *)
Definition tf_only {A} (r : result A) : Prop :=
  ∀ msg, r ≠ Err (Error msg).

(** What the constructors establish about the layers they return. *)
Definition head_ok (blockSize headSize : nat) (hd : HeadLayer) : Prop :=
  head_headSize hd = headSize ∧
  dense_units (head_key hd) = headSize ∧
  dense_units (head_query hd) = headSize ∧
  dense_units (head_value hd) = headSize ∧
  head_tril hd = bandPart (ones2 blockSize blockSize) (-1) 0.

Definition attn_ok (nEmbd blockSize nHead : nat) (a : AttentionLayer)
  : Prop :=
  nHead ≠ 0 ∧ nEmbd mod nHead = 0 ∧
  length (attn_heads a) = nHead ∧
  Forall (head_ok blockSize (nEmbd / nHead)) (attn_heads a) ∧
  dense_units (attn_proj a) = nEmbd.

Definition block_ok (nEmbd blockSize nHead : nat) (b : BlockLayer) : Prop :=
  attn_ok nEmbd blockSize nHead (block_attn b) ∧
  dense_units (ffwd_cFc (block_mlp b)) = 4 * nEmbd ∧
  dense_units (ffwd_cProj (block_mlp b)) = nEmbd.

Definition model_ok (m : Model) : Prop :=
  let p := params m in
  let tr := transformer m in
  emb_outputDim (wte tr) = nEmbd p ∧
  emb_outputDim (wpe tr) = nEmbd p ∧
  length (h tr) = nLayer p ∧
  Forall (block_ok (nEmbd p) (blockSize p) (nHead p)) (h tr) ∧
  dense_units (lmHead m) = vocabSize p.

(** The iterations of a run of the loop, from the counter [i], the running
    sequence [idx] and the generator state [g] on. *)
Inductive steps (m : Model) (temperature : num) (doSample : bool)
    (topK : option nat)
  : nat → tensor2 Z → rng → list Iteration → tensor2 Z → rng → Prop :=
  | steps_done i idx g : steps m temperature doSample topK i idx g [] idx g
  | steps_next i idx g it g1 its out g' :
      generate_step m temperature doSample topK i idx g = Ok (it, g1) →
      steps m temperature doSample topK (S i) (it_newIdx it) g1 its out g' →
      steps m temperature doSample topK i idx g (it :: its) out g'.

(** The [k]-th largest entry of a row, counting from 1. *)
Definition kth_largest (k : nat) (row : list num) : option num :=
  merge_sort num_desc row !! (k - 1).

(** Every row of the running sequence survives, in order, in the matching
    row of the model input. *)
Definition input_contains_sequence (it : Iteration) : Prop :=
  Forall2 sublist (data2 (it_idx it)) (data2 (it_idxShaped it)).

(** No tensor registered during one iteration, the new running sequence
    apart, is still registered when the iteration ends. *)
Definition no_intermediate_left (doSample : bool) (topK : option nat)
    (idx : nat) (r : registry) : Prop :=
  let '(t, r') := mem_generate_step doSample topK idx r in
  ∀ u, next_id r ≤ u < next_id r' → u ≠ t_newIdx t → u ∉ live r'.

(** Handles are handed out in increasing order. *)
Definition registry_ok (r : registry) : Prop :=
  ∀ u, u ∈ live r → u < next_id r.

(** The sum of a list of rationals. *)
Definition Qsum (l : list Q) : Q := foldr Qplus 0%Q l.

(** A row of probabilities: finite entries, none negative, that sum to 1. *)
Definition distribution (row : list num) : Prop :=
  ∃ ps : list Q,
    row = Fin <$> ps ∧ Forall (λ pr, (0 <= pr)%Q) ps ∧ (Qsum ps == 1)%Q.

(** The names of the layers a constructor creates, in the order in which it
    creates them. *)
Definition Head_names (name : string) : list string :=
  [name +:+ "-key"; name +:+ "-query"; name +:+ "-value"; name +:+ "-drop"].

Definition CausalSelfAttention_names (nHead : nat) (name : string)
  : list string :=
  (seq 0 nHead ≫= λ i, Head_names (name +:+ "-head" +:+ dec i)) ++
  [name +:+ "-proj"; name +:+ "-drop"].

Definition FeedForward_names (name : string) : list string :=
  [name +:+ "-cFc"; name +:+ "-cProj"; name +:+ "-drop"].

Definition Block_names (nHead : nat) (name : string) : list string :=
  [name +:+ "-ln1"] ++ CausalSelfAttention_names nHead (name +:+ "-attn") ++
  [name +:+ "-ln2"] ++ FeedForward_names (name +:+ "-mlp").

Definition GPT_names (p : ModelParams) : list string :=
  ["wte"; "wpe"; "drop"; "add"] ++
  (seq 0 (nLayer p) ≫= λ i, Block_names (nHead p) ("block" +:+ dec (i + 1)))
  ++ ["lnF"; "lmHead"].

(** The character of the string ["-"]. *)
Definition dash : Ascii.ascii := Ascii.ascii_of_nat 45.

(** No character of the string is a dash. *)
Fixpoint no_dash (s : string) : Prop :=
  match s with
  | EmptyString => True
  | String c s' => c ≠ dash ∧ no_dash s'
  end.

(** What follows the name of a block, and its dash, in the names of the
    layers of the block. *)
Definition block_suffixes (nHead : nat) : list string :=
  ["ln1"] ++
  (seq 0 nHead ≫= λ j,
     (λ k, "attn-head" +:+ dec j +:+ "-" +:+ k)
       <$> ["key"; "query"; "value"; "drop"]) ++
  ["attn-proj"; "attn-drop"; "ln2"; "mlp-cFc"; "mlp-cProj"; "mlp-drop"].

(** A constructor that returns has created layers of the names [names],
    in that order, after the layers created before. *)
Definition creates {A} (c : ctor A) (names : list string) : Prop :=
  ∀ log log' a, c log = (log', Ok a) →
    ∃ new, log' = log ++ new ∧ layer_name <$> new = names.


(** Equality of numbers, the finite ones as rationals. *)
Definition num_equiv (x y : num) : Prop :=
  match x, y with
  | NaN, NaN | NegInf, NegInf | PosInf, PosInf => True
  | Fin a, Fin b => (a == b)%Q
  | _, _ => False
  end.
Definition row_equiv : list num → list num → Prop := Forall2 num_equiv.
Definition mat_equiv : list (list num) → list (list num) → Prop :=
  Forall2 row_equiv.

(** Every entry of the tensor is a finite number. *)
Definition fin3 (x : tensor3 num) : Prop :=
  Forall (Forall (Forall (λ v, is_fin v))) (data3 x).

(** [B] matrices of [T] rows of [C] finite entries. *)
Definition fin_rows (B T C : nat) (d : list (list (list num))) : Prop :=
  length d = B ∧
  Forall (λ m, length m = T ∧
               Forall (λ r, length r = C ∧ Forall (λ v, is_fin v) r) m) d.

(** A tensor of the shape [(B, T, C)], its entries in step with the shape
    and all finite. *)
Definition fin_tensor (B T C : nat) (x : tensor3 num) : Prop :=
  shape3 x = (B, T, C) ∧ wf3 x ∧ fin3 x.

(** [same_upto n x y]: the tensors have the same shape and, in every
    sequence of the batch, the same rows at the positions before [n]. *)
Definition same_upto (n : nat) (x y : tensor3 num) : Prop :=
  shape3 x = shape3 y ∧
  Forall2 (λ m m', mat_equiv (take n m) (take n m')) (data3 x) (data3 y).

(** The scaled products of every query with every key of one sequence. *)
Definition scores_m (scale : num) (qs ks : list (list num))
  : list (list num) :=
  (λ q, (λ k, num_mul (dot q k) scale) <$> ks) <$> qs.

(** What [Head.apply] computes on one sequence, from its queries, keys and
    values: position [i] weighs the values by the softmax of its scores
    with the positions up to [i]. *)
Definition attention (scale : num) (hs : nat) (qs ks vs : list (list num))
  : list (list num) :=
  imap (λ i q,
          let scores := (λ k, num_mul (dot q k) scale) <$> ks in
          let w :=
            softmax_row (imap (λ j s, if i <? j then NegInf else s) scores) in
          dot w <$> transpose_m hs vs) qs.

(** * Properties *)

(** ** Exceptions of the library and of the model *)

Lemma bind_Ok {A B} (m : result A) (f : A → result B) (b : B) :
  m ≫= f = Ok b ↔ ∃ a, m = Ok a ∧ f a = Ok b.
Proof.
  destruct m as [a|e]; simpl; split.
  - intros Hf. by exists a.
  - by intros (a' & [= ->] & Hf).
  - done.
  - by intros (a' & Hm & _).
Qed.

Lemma tf_only_Ok {A} (a : A) : tf_only (Ok a).
Proof. by intros msg. Qed.

Lemma tf_only_TfError {A} (op : string) : tf_only (@Err A (TfError op)).
Proof. by intros msg. Qed.

Lemma tf_only_bind {A B} (m : result A) (f : A → result B) :
  tf_only m → (∀ a, m = Ok a → tf_only (f a)) → tf_only (m ≫= f).
Proof.
  intros Hm Hf msg. destruct m as [a|e]; simpl.
  - by apply Hf.
  - intros [= ->]. by apply (Hm msg).
Qed.

Lemma tf_only_slice_axis dim b s : tf_only (slice_axis dim b s).
Proof. unfold slice_axis. by repeat case_match. Qed.

Lemma tf_only_slice2 {A} (t : tensor2 A) b s : tf_only (slice2 t b s).
Proof.
  unfold slice2.
  repeat (apply tf_only_bind; [apply tf_only_slice_axis | intros ? _]).
  apply tf_only_Ok.
Qed.

Lemma tf_only_slice3 {A} (t : tensor3 A) b s : tf_only (slice3 t b s).
Proof.
  unfold slice3.
  repeat (apply tf_only_bind; [apply tf_only_slice_axis | intros ? _]).
  apply tf_only_Ok.
Qed.

Lemma tf_only_squeeze1 {A} (t : tensor3 A) : tf_only (squeeze1 t).
Proof. unfold squeeze1. by case_match. Qed.

Lemma tf_only_concat2 {A} (a b : tensor2 A) : tf_only (concat2 a b).
Proof. unfold concat2. by case_match. Qed.

Lemma tf_only_binop2 {A B C} op (f : A → B → C) a b :
  tf_only (binop2 op f a b).
Proof. unfold binop2. by repeat case_match. Qed.

Lemma tf_only_binop3 {A B C} op (f : A → B → C) a b :
  tf_only (binop3 op f a b).
Proof. unfold binop3. by repeat case_match. Qed.

Lemma tf_only_matMul a b : tf_only (matMul a b).
Proof. unfold matMul. by repeat case_match. Qed.

Lemma tf_only_concat3_last {A} (ts : list (tensor3 A)) :
  tf_only (concat3_last ts).
Proof. unfold concat3_last. by repeat case_match. Qed.

Lemma tf_only_topk_values t k : tf_only (topk_values t k).
Proof. unfold topk_values. by case_match. Qed.

Lemma tf_only_mapM {A B} (f : A → result B) (l : list A) :
  (∀ a, tf_only (f a)) → tf_only (mapM f l).
Proof.
  intros Hf. induction l as [|a l IH]; simpl.
  - apply tf_only_Ok.
  - apply tf_only_bind; [apply Hf | intros b _].
    apply tf_only_bind; [apply IH | intros bs _]. apply tf_only_Ok.
Qed.

Create HintDb tf_only discriminated.
Hint Resolve tf_only_Ok tf_only_TfError tf_only_slice2 tf_only_slice3
  tf_only_squeeze1 tf_only_concat2 tf_only_binop2 tf_only_binop3
  tf_only_matMul tf_only_concat3_last tf_only_topk_values : tf_only.

Ltac tf_only_steps :=
  repeat first
    [ apply tf_only_bind; [ solve [auto with tf_only] | intros ? _ ]
    | solve [auto with tf_only] ].

Lemma tf_only_Head_apply hd x : tf_only (Head_apply hd x).
Proof.
  unfold Head_apply, Head_weights, Head_masked, Head_scores,
    where3_then_scalar.
  apply tf_only_bind; [|intros; auto with tf_only].
  apply tf_only_bind; [|intros; auto with tf_only].
  apply tf_only_bind; [|intros ? _; tf_only_steps].
  tf_only_steps.
Qed.

Lemma tf_only_Block_apply b x : tf_only (Block_apply b x).
Proof.
  unfold Block_apply, CausalSelfAttention_apply, add3.
  apply tf_only_bind; [|intros ? _; tf_only_steps].
  apply tf_only_bind;
    [apply tf_only_mapM; intros; apply tf_only_Head_apply | intros ? _].
  tf_only_steps.
Qed.

Lemma tf_only_forEach_block bs x : tf_only (forEach_block bs x).
Proof.
  revert x. induction bs as [|b bs IH]; intros x; simpl.
  - apply tf_only_Ok.
  - apply tf_only_bind; [apply tf_only_Block_apply | intros; apply IH].
Qed.

(** ** Shapes through the operations of the library *)

Lemma slice_axis_ok dim b s :
  (0 ≤ b)%Z → (0 ≤ s)%Z → (b + s ≤ Z.of_nat dim)%Z →
  slice_axis dim b s = Ok (Z.to_nat b, Z.to_nat s).
Proof.
  intros Hb Hs Hd. unfold slice_axis.
  destruct (Z.ltb_spec b 0); [lia|].
  destruct (Z.eqb_spec s (-1)); [lia|].
  destruct (Z.ltb_spec s 0); [lia|].
  destruct (Z.ltb_spec (Z.of_nat dim) (b + s)); [lia|]. done.
Qed.

Lemma slice_axis_rest dim : slice_axis dim 0 (-1) = Ok (0, dim).
Proof.
  unfold slice_axis. simpl. rewrite Z.sub_0_r, Z.add_0_l.
  destruct (Z.ltb_spec (Z.of_nat dim) 0); [lia|].
  destruct (Z.ltb_spec (Z.of_nat dim) (Z.of_nat dim)); [lia|].
  simpl. by rewrite Nat2Z.id.
Qed.

Lemma bdim_same n : bdim n n = Some n.
Proof. unfold bdim. by rewrite Nat.eqb_refl. Qed.

Lemma bdim_one n : bdim 1 n = Some n.
Proof. unfold bdim. destruct (Nat.eqb_spec 1 n); by subst. Qed.

Lemma bzip_same {A B C} n (f : A → B → C) : bzip n n f = zip_with f.
Proof. unfold bzip. by rewrite Nat.eqb_refl. Qed.

Lemma binop3_same {A B C} op (f : A → B → C) a b s :
  shape3 a = s → shape3 b = s →
  binop3 op f a b =
    Ok (Tensor3 s (zip_with (zip_with (zip_with f)) (data3 a) (data3 b))).
Proof.
  intros Ha Hb. unfold binop3. rewrite Ha, Hb, !bdim_same, !bzip_same.
  by destruct s as [[? ?] ?].
Qed.

Lemma add3_shape a b s :
  shape3 a = s → shape3 b = s → ∃ c, add3 a b = Ok c ∧ shape3 c = s.
Proof. intros Ha Hb. eexists. split; [by apply binop3_same|done]. Qed.

Lemma matMul_shape a b B T K N :
  shape3 a = (B, T, K) → shape3 b = (B, K, N) →
  ∃ c, matMul a b = Ok c ∧ shape3 c = (B, T, N).
Proof.
  intros Ha Hb. unfold matMul. rewrite Ha, Hb. simpl.
  rewrite bdim_same, Nat.eqb_refl. eauto.
Qed.

Lemma slice2_square {A} (t : tensor2 A) n T :
  shape2 t = (n, n) → T ≤ n →
  slice2 t (0, 0)%Z (Z.of_nat T, Z.of_nat T) =
    Ok (Tensor2 (T, T) (cut (0, T) <$> cut (0, T) (data2 t))).
Proof.
  intros Ht HT. unfold slice2. rewrite Ht. simpl.
  rewrite slice_axis_ok by lia. simpl. by rewrite Nat2Z.id.
Qed.

Lemma where3_then_scalar_shape cond v att B T :
  shape2 cond = (T, T) → shape3 att = (B, T, T) →
  ∃ c, where3_then_scalar cond v att = Ok c ∧ shape3 c = (B, T, T).
Proof.
  intros Hc Ha. unfold where3_then_scalar, binop3, lift3. simpl.
  rewrite Hc, Ha. simpl. rewrite bdim_one, !bdim_same. eauto.
Qed.

Lemma concat3_last_shape {A} (ts : list (tensor3 A)) B T :
  ts ≠ [] → Forall (λ u, (shape3 u).1 = (B, T)) ts →
  ∃ c, concat3_last ts = Ok c ∧ (shape3 c).1 = (B, T).
Proof.
  intros Hne Hall. destruct ts as [|t ts]; [done|].
  apply Forall_cons in Hall as [Ht Hts]. unfold concat3_last.
  assert (forallb (λ u, ((shape3 u).1.1 =? (shape3 t).1.1) &&
                        ((shape3 u).1.2 =? (shape3 t).1.2)) ts = true)
    as ->.
  { apply forallb_forall. intros u Hu.
    rewrite Forall_forall in Hts. apply list_elem_of_In, Hts in Hu.
    rewrite Ht, Hu. simpl. by rewrite !Nat.eqb_refl. }
  eexists; split; [done|]. done.
Qed.

Lemma mapM_result_Forall {A B} (f : A → result B) (P : B → Prop) l :
  (∀ a, a ∈ l → ∃ b, f a = Ok b ∧ P b) →
  ∃ bs, mapM f l = Ok bs ∧ Forall P bs ∧ length bs = length l.
Proof.
  induction l as [|a l IH]; intros Hf; simpl.
  - by exists [].
  - destruct (Hf a) as (b & Hb & HP); [left|].
    destruct IH as (bs & Hbs & HPs & Hlen).
    { intros a' Ha'. apply Hf. by right. }
    exists (b :: bs). rewrite Hb. simpl. rewrite Hbs. simpl.
    split_and!; [done|by constructor|by f_equal].
Qed.

(** ** What the constructors return *)

Lemma ctor_bind_Ok {A B} (c : ctor A) (f : A → ctor B) log log' b :
  (c ≫= f) log = (log', Ok b) ↔
  ∃ log1 a, c log = (log1, Ok a) ∧ f a log1 = (log', Ok b).
Proof.
  unfold mbind, ctor_bind. destruct (c log) as [log1 [a|e]]; split.
  - intros Hf. by exists log1, a.
  - by intros (? & ? & [= -> ->] & Hf).
  - done.
  - by intros (? & ? & [=] & _).
Qed.

Lemma mapM_ctor_Forall {A B} (f : A → ctor B) (P : B → Prop) l log log' xs :
  (∀ a log1 log2 x, f a log1 = (log2, Ok x) → P x) →
  mapM f l log = (log', Ok xs) →
  Forall P xs ∧ length xs = length l.
Proof.
  intros Hf. revert log log' xs.
  induction l as [|a l IH]; intros log log' xs; simpl.
  - intros [= <- <-]. by split.
  - intros (log1 & x & Hx & Hrest)%ctor_bind_Ok.
    apply ctor_bind_Ok in Hrest as (log2 & xs' & Hxs & [= <- <-]).
    apply IH in Hxs as [HP Hlen]. split; [|by simpl; f_equal].
    constructor; [by eapply Hf|done].
Qed.

Lemma Head_ok nEmbd headSize blockSize attnDropout name log log' hd :
  Head nEmbd headSize blockSize attnDropout name log = (log', Ok hd) →
  head_ok blockSize headSize hd.
Proof. intros [= <- <-]. by repeat split. Qed.

Lemma js_rem_divides a b : js_rem a b = Some 0 ↔ b ≠ 0 ∧ a mod b = 0.
Proof.
  unfold js_rem. destruct (Nat.eqb_spec b 0); split.
  - done.
  - by intros [? _].
  - by intros [= ->].
  - by intros [_ ->].
Qed.

Lemma CausalSelfAttention_ok nEmbd blockSize nHead attnDropout residDropout
    name log log' a :
  CausalSelfAttention nEmbd blockSize nHead attnDropout residDropout name log
    = (log', Ok a) →
  attn_ok nEmbd blockSize nHead a.
Proof.
  unfold CausalSelfAttention. case_decide as Hrem; [done|].
  apply js_rem_divides in Hrem as [Hn Hmod].
  intros (log1 & heads & Hheads & Hrest)%ctor_bind_Ok.
  injection Hrest as <- <-.
  eapply mapM_ctor_Forall in Hheads as [Hall Hlen];
    [|intros ????; apply Head_ok].
  rewrite length_seq in Hlen. by repeat split.
Qed.

Lemma Block_ok nEmbd nHead blockSize residDropout attnDropout nLayer name
    log log' b :
  Block nEmbd nHead blockSize residDropout attnDropout nLayer name log
    = (log', Ok b) →
  block_ok nEmbd blockSize nHead b.
Proof.
  unfold Block.
  intros (log1 & ln1 & _ & Hrest)%ctor_bind_Ok.
  apply ctor_bind_Ok in Hrest as (log2 & attn & Hattn & Hrest).
  injection Hrest as <- <-.
  apply CausalSelfAttention_ok in Hattn. split; [exact Hattn|].
  split; [|done]. simpl. lia.
Qed.

Lemma GPT_ok p log log' m :
  GPT p log = (log', Ok m) → params m = p ∧ model_ok m.
Proof.
  unfold GPT.
  intros (log1 & wte & [= <- <-] & Hrest)%ctor_bind_Ok.
  apply ctor_bind_Ok in Hrest as (log2 & wpe & [= <- <-] & Hrest).
  apply ctor_bind_Ok in Hrest as (log3 & drop & [= <- <-] & Hrest).
  apply ctor_bind_Ok in Hrest as (log4 & add & [= <- <-] & Hrest).
  apply ctor_bind_Ok in Hrest as (log5 & blocks & Hblocks & Hrest).
  injection Hrest as <- <-.
  eapply mapM_ctor_Forall in Hblocks as [Hall Hlen];
    [|intros ????; apply Block_ok].
  rewrite length_seq in Hlen. by repeat split.
Qed.

(** ** Shapes through the forward pass

    What the library promises about the layers: the shape of what a layer
    returns is determined by the shape of its input, and the entries of a
    tensor agree with its shape. *)

Hypothesis embedding_shape : ∀ a idx,
  shape3 (embedding_apply a idx) = (shape2 idx, emb_outputDim a).
Hypothesis dense_shape : ∀ a x,
  shape3 (dense_apply a x) = ((shape3 x).1, dense_units a).
Hypothesis dense_wf : ∀ a x, wf3 (dense_apply a x).
Hypothesis layerNormalization_shape : ∀ a x,
  shape3 (layerNormalization_apply a x) = shape3 x.
Hypothesis dropout_shape : ∀ a x, shape3 (dropout_apply a x) = shape3 x.

Lemma Head_scores_shape hd x B T C blockSize headSize :
  head_ok blockSize headSize hd → shape3 x = (B, T, C) →
  ∃ att, Head_scores hd x = Ok att ∧ shape3 att = (B, T, T).
Proof.
  intros (_ & Hk & Hq & _) Hx. unfold Head_scores.
  destruct (matMul_shape (dense_apply (head_query hd) x)
              (transpose3 (dense_apply (head_key hd) x)) B T headSize T)
    as (att & -> & Hatt).
  - by rewrite dense_shape, Hx, Hq.
  - unfold transpose3. simpl. by rewrite dense_shape, Hx, Hk.
  - simpl. eauto.
Qed.

Lemma Head_masked_shape hd x B T C blockSize headSize :
  head_ok blockSize headSize hd → shape3 x = (B, T, C) → T ≤ blockSize →
  ∃ att, Head_masked hd x = Ok att ∧ shape3 att = (B, T, T).
Proof.
  intros Hhd Hx HT. unfold Head_masked.
  destruct (Head_scores_shape hd x B T C _ _ Hhd Hx) as (att & -> & Hatt).
  destruct Hhd as (_ & _ & _ & _ & Htril). simpl.
  rewrite Hx. simpl.
  rewrite (slice2_square _ blockSize) by (by rewrite ?Htril). simpl.
  by apply where3_then_scalar_shape.
Qed.

Lemma Head_apply_shape hd x B T C blockSize headSize :
  head_ok blockSize headSize hd → shape3 x = (B, T, C) → T ≤ blockSize →
  ∃ y, Head_apply hd x = Ok y ∧ shape3 y = (B, T, headSize).
Proof.
  intros Hhd Hx HT. unfold Head_apply, Head_weights.
  destruct (Head_masked_shape hd x B T C _ _ Hhd Hx HT) as (att & -> & Hatt).
  simpl. apply (matMul_shape _ _ B T T headSize).
  - by rewrite dropout_shape.
  - destruct Hhd as (_ & _ & _ & Hv & _). by rewrite dense_shape, Hx, Hv.
Qed.

Lemma CausalSelfAttention_apply_shape a x B T nEmbd blockSize nHead :
  attn_ok nEmbd blockSize nHead a → shape3 x = (B, T, nEmbd) →
  T ≤ blockSize →
  ∃ y, CausalSelfAttention_apply a x = Ok y ∧ shape3 y = (B, T, nEmbd).
Proof.
  intros (Hn & _ & Hlen & Hheads & Hproj) Hx HT.
  unfold CausalSelfAttention_apply.
  destruct (mapM_result_Forall (λ head, Head_apply head x)
              (λ y, (shape3 y).1 = (B, T)) (attn_heads a))
    as (ys & -> & Hys & Hlen').
  { intros hd Hhd. rewrite Forall_forall in Hheads.
    destruct (Head_apply_shape hd x B T nEmbd blockSize (nEmbd / nHead))
      as (y & Hy & Hs); [by apply Hheads|done|done|].
    exists y. by rewrite Hs. }
  simpl. destruct (concat3_last_shape ys B T) as (y & -> & Hy); [|done|].
  { intros ->. simpl in Hlen'. lia. }
  simpl. eexists; split; [done|].
  by rewrite dropout_shape, dense_shape, Hy, Hproj.
Qed.

Lemma FeedForward_apply_shape f x s nEmbd :
  dense_units (ffwd_cProj f) = nEmbd → (shape3 x).1 = s →
  shape3 (FeedForward_apply f x) = (s, nEmbd).
Proof.
  intros Hf Hx. unfold FeedForward_apply.
  by rewrite dropout_shape, !dense_shape, Hx, Hf.
Qed.

Lemma Block_apply_shape b x B T nEmbd blockSize nHead :
  block_ok nEmbd blockSize nHead b → shape3 x = (B, T, nEmbd) →
  T ≤ blockSize →
  ∃ y, Block_apply b x = Ok y ∧ shape3 y = (B, T, nEmbd).
Proof.
  intros (Hattn & _ & Hmlp) Hx HT. unfold Block_apply.
  destruct (CausalSelfAttention_apply_shape (block_attn b)
              (layerNormalization_apply (block_ln1 b) x)
              B T nEmbd blockSize nHead) as (a & -> & Ha);
    [done|by rewrite layerNormalization_shape|done|].
  simpl. destruct (add3_shape x a (B, T, nEmbd)) as (x1 & -> & Hx1);
    [done..|].
  simpl.
  destruct (add3_shape x1
              (FeedForward_apply (block_mlp b)
                 (layerNormalization_apply (block_ln2 b) x1))
              (B, T, nEmbd)) as (x2 & -> & Hx2); [done| |].
  { apply FeedForward_apply_shape; [done|].
    by rewrite layerNormalization_shape, Hx1. }
  simpl. eauto.
Qed.

Lemma forEach_block_shape bs x B T nEmbd blockSize nHead :
  Forall (block_ok nEmbd blockSize nHead) bs → shape3 x = (B, T, nEmbd) →
  T ≤ blockSize →
  ∃ y, forEach_block bs x = Ok y ∧ shape3 y = (B, T, nEmbd).
Proof.
  intros Hbs Hx HT. revert x Hx.
  induction Hbs as [|b bs Hb Hbs IH]; intros x Hx; simpl.
  - eauto.
  - destruct (Block_apply_shape b x B T nEmbd blockSize nHead)
      as (y & -> & Hy); [done..|].
    simpl. by apply IH.
Qed.

(** The forward pass of a model returned by [GPT] succeeds on every input
    of time length [blockSize], with logits of shape
    [(B, blockSize, vocabSize)]. *)
Lemma GPT_apply_shape m idx B :
  model_ok m → shape2 idx = (B, blockSize (params m)) →
  ∃ logits, GPT_apply m idx = Ok logits ∧ wf3 logits ∧
    shape3 logits = (B, blockSize (params m), vocabSize (params m)).
Proof.
  intros (Hwte & Hwpe & _ & Hblocks & Hhead) Hidx. unfold GPT_apply.
  rewrite Hidx, Nat.eqb_refl. simpl.
  destruct (add3_shape
              (embedding_apply (wte (transformer m)) idx)
              (embedding_apply (wpe (transformer m))
                 (tile_rows (range_row (blockSize (params m))) B))
              (B, blockSize (params m), nEmbd (params m)))
    as (x & -> & Hx).
  { by rewrite embedding_shape, Hidx, Hwte. }
  { rewrite embedding_shape, Hwpe. unfold tile_rows, range_row. simpl.
    by rewrite Nat.mul_1_r. }
  simpl.
  destruct (forEach_block_shape (h (transformer m))
              (dropout_apply (drop (transformer m)) x)
              B (blockSize (params m)) (nEmbd (params m))
              (blockSize (params m)) (nHead (params m)))
    as (y & -> & Hy); [done|by rewrite dropout_shape|done|].
  simpl. eexists; split; [done|]. split; [apply dense_wf|].
  by rewrite dense_shape, layerNormalization_shape, Hy, Hhead.
Qed.

(** ** The model input of [generate] *)

Lemma zip_with_app_replicate {A} (l : list (list A)) (z : list A) n :
  length l = n → zip_with app l (replicate n z) = (λ r, r ++ z) <$> l.
Proof.
  intros <-. induction l as [|r l IH]; simpl; [done|]. by rewrite IH.
Qed.

Lemma cut_all {A} (l : list A) n : length l = n → cut (0, n) l = l.
Proof. intros <-. unfold cut. simpl. by rewrite drop_0, firstn_all. Qed.

Lemma idxShaped_shape blockSize idx :
  ∃ shaped, idxShaped blockSize idx = Ok shaped ∧
    shape2 shaped = ((shape2 idx).1, blockSize) ∧
    data2 shaped =
      zip_with app
        (cut ((shape2 idx).2 - blockSize, (shape2 idx).2 `min` blockSize)
           <$> cut (0, (shape2 idx).1) (data2 idx))
        (replicate (shape2 idx).1
           (replicate (blockSize - (shape2 idx).2) 0%Z)).
Proof.
  unfold idxShaped, slice2. simpl. rewrite slice_axis_rest. simpl.
  rewrite slice_axis_ok by lia. simpl. unfold concat2. simpl.
  rewrite Nat.eqb_refl. eexists. split; [done|]. simpl. split.
  - f_equal. lia.
  - repeat f_equal; lia.
Qed.

(** With the entries in place: every row keeps its last [blockSize] tokens
    and is padded with zeros up to [blockSize]. *)
Lemma idxShaped_data blockSize idx shaped :
  wf2 idx → idxShaped blockSize idx = Ok shaped →
  data2 shaped =
    (λ r, list.drop ((shape2 idx).2 - blockSize) r ++
          replicate (blockSize - (shape2 idx).2) 0%Z) <$> data2 idx.
Proof.
  intros [Hrows Hcols] Hshaped.
  destruct (idxShaped_shape blockSize idx) as (t & Ht & _ & Hdata).
  rewrite Hshaped in Ht. injection Ht as <-. rewrite Hdata.
  rewrite cut_all by done.
  rewrite zip_with_app_replicate by (by rewrite length_fmap).
  rewrite <- list_fmap_compose. apply Forall_fmap_ext.
  eapply Forall_impl; [exact Hcols|]. intros r Hr. simpl.
  simpl in Hr. unfold cut. simpl.
  rewrite take_ge; [done|]. rewrite length_drop. lia.
Qed.

(** ** The operations keep the entries in step with the shape *)

Lemma slice_axis_bound dim b s o n :
  slice_axis dim b s = Ok (o, n) → o + n ≤ dim.
Proof.
  unfold slice_axis. destruct (Z.ltb_spec b 0); [done|].
  destruct (Z.eqb_spec s (-1)).
  - destruct (Z.ltb_spec (Z.of_nat dim - b) 0); [done|].
    destruct (Z.ltb_spec (Z.of_nat dim) (b + (Z.of_nat dim - b))); [done|].
    intros [= <- <-]. lia.
  - destruct (Z.ltb_spec s 0); [done|].
    destruct (Z.ltb_spec (Z.of_nat dim) (b + s)); [done|].
    intros [= <- <-]. lia.
Qed.

Lemma slice_axis_Ok_inv dim b s o n :
  slice_axis dim b s = Ok (o, n) → s ≠ (-1)%Z →
  o = Z.to_nat b ∧ n = Z.to_nat s.
Proof.
  unfold slice_axis. destruct (Z.ltb_spec b 0); [done|].
  destruct (Z.eqb_spec s (-1)); [done|].
  destruct (Z.ltb_spec s 0); [done|].
  destruct (Z.ltb_spec (Z.of_nat dim) (b + s)); [done|].
  by intros [= <- <-].
Qed.

Lemma length_cut {A} (l : list A) o n :
  o + n ≤ length l → length (cut (o, n) l) = n.
Proof. intros Hl. unfold cut. simpl. rewrite length_take, length_drop. lia. Qed.

Lemma slice2_wf {A} (t t' : tensor2 A) b s :
  wf2 t → slice2 t b s = Ok t' → wf2 t'.
Proof.
  intros [Hrows Hcols] Ht. unfold slice2 in Ht.
  apply bind_Ok in Ht as ([o1 n1] & H1 & Ht).
  apply bind_Ok in Ht as ([o2 n2] & H2 & [= <-]).
  apply slice_axis_bound in H1, H2. split; simpl.
  - rewrite length_fmap. apply length_cut. lia.
  - apply Forall_fmap. unfold cut at 2. simpl.
    apply Forall_take, Forall_drop.
    eapply Forall_impl; [exact Hcols|]. intros r Hr. simpl in *.
    apply length_cut. lia.
Qed.

Lemma slice3_wf {A} (t t' : tensor3 A) b s :
  wf3 t → slice3 t b s = Ok t' → wf3 t'.
Proof.
  intros [Hrows Hcols] Ht. unfold slice3 in Ht.
  apply bind_Ok in Ht as ([o1 n1] & H1 & Ht).
  apply bind_Ok in Ht as ([o2 n2] & H2 & Ht).
  apply bind_Ok in Ht as ([o3 n3] & H3 & [= <-]).
  apply slice_axis_bound in H1, H2, H3. split; simpl.
  - rewrite !length_fmap. apply length_cut. lia.
  - rewrite <- list_fmap_compose. apply Forall_fmap.
    unfold cut at 3. simpl. apply Forall_take, Forall_drop.
    eapply Forall_impl; [exact Hcols|]. intros mm [Hm Hr]. simpl in *.
    split.
    + rewrite length_fmap. apply length_cut. lia.
    + apply Forall_fmap. unfold cut at 2. simpl.
      apply Forall_take, Forall_drop.
      eapply Forall_impl; [exact Hr|]. intros r Hlen. simpl in *.
      apply length_cut. lia.
Qed.

Lemma squeeze1_wf {A} (t : tensor3 A) (t' : tensor2 A) :
  wf3 t → squeeze1 t = Ok t' → wf2 t'.
Proof.
  intros [Hrows Hcols] Ht. unfold squeeze1 in Ht.
  destruct (Nat.eqb_spec (shape3 t).1.2 1) as [H1|]; [|done].
  injection Ht as <-. split; simpl.
  - by rewrite length_fmap.
  - apply Forall_fmap. eapply Forall_impl; [exact Hcols|].
    intros mm [Hm Hr]. simpl. rewrite H1 in Hm.
    destruct mm as [|r [|]]; simplify_eq/=.
    apply Forall_cons in Hr as [Hr _]. by rewrite app_nil_r.
Qed.

Lemma concat2_wf {A} (a b c : tensor2 A) :
  wf2 a → wf2 b → concat2 a b = Ok c → wf2 c.
Proof.
  intros [Ha1 Ha2] [Hb1 Hb2] Hc. unfold concat2 in Hc.
  destruct (Nat.eqb_spec (shape2 a).1 (shape2 b).1) as [Hab|]; [|done].
  injection Hc as <-. split; simpl.
  - rewrite length_zip_with. lia.
  - apply Forall_forall. intros r Hr.
    apply elem_of_zip_with in Hr as (ra & rb & -> & Hra & Hrb).
    rewrite Forall_forall in Ha2, Hb2. rewrite length_app.
    by rewrite (Ha2 _ Hra), (Hb2 _ Hrb).
Qed.

Lemma tmap2_wf {A B} (f : A → B) (t : tensor2 A) : wf2 t → wf2 (tmap2 f t).
Proof.
  intros [H1 H2]. split; simpl.
  - by rewrite length_fmap.
  - apply Forall_fmap. eapply Forall_impl; [exact H2|].
    intros r Hr. simpl. by rewrite length_fmap.
Qed.

Lemma bzip_length {A B C} m n k (f : A → B → C) la lb :
  length la = m → length lb = n → bdim m n = Some k →
  length (bzip m n f la lb) = k.
Proof.
  intros Ha Hb. unfold bdim, bzip.
  destruct (Nat.eqb_spec m n) as [->|].
  { intros [= <-]. rewrite length_zip_with. lia. }
  destruct (Nat.eqb_spec m 1) as [->|].
  { intros [= <-]. destruct la as [|a [|]]; simplify_eq/=.
    by rewrite length_fmap. }
  destruct (Nat.eqb_spec n 1) as [->|]; [|done].
  intros [= <-]. destruct lb as [|b [|]]; simplify_eq/=.
  by rewrite length_fmap.
Qed.

Lemma bzip_Forall {A B C} m n (f : A → B → C) (P : C → Prop) la lb :
  (∀ a b, a ∈ la → b ∈ lb → P (f a b)) →
  Forall P (bzip m n f la lb).
Proof.
  intros Hf. unfold bzip. repeat case_match; subst.
  - apply Forall_forall. intros c (a & b & -> & Ha & Hb)%elem_of_zip_with.
    by apply Hf.
  - constructor.
  - apply Forall_fmap, Forall_forall. intros b Hb. simpl.
    apply Hf; [left|done].
  - constructor.
  - apply Forall_fmap, Forall_forall. intros a Ha. simpl.
    apply Hf; [done|left].
Qed.

Lemma binop2_shape {A B C} op (f : A → B → C) a b c :
  binop2 op f a b = Ok c →
  bdim (shape2 a).1 (shape2 b).1 = Some (shape2 c).1 ∧
  bdim (shape2 a).2 (shape2 b).2 = Some (shape2 c).2.
Proof. unfold binop2. repeat case_match; try done. by intros [= <-]. Qed.

Lemma binop2_wf {A B C} op (f : A → B → C) a b c :
  wf2 a → wf2 b → binop2 op f a b = Ok c → wf2 c.
Proof.
  intros [Ha1 Ha2] [Hb1 Hb2] Hc.
  destruct (binop2_shape _ _ _ _ _ Hc) as [Hr Hcol].
  unfold binop2 in Hc. rewrite Hr, Hcol in Hc. injection Hc as <-.
  simpl in *. split; simpl.
  - by apply bzip_length.
  - apply bzip_Forall. intros ra rb Hra Hrb.
    rewrite Forall_forall in Ha2. rewrite Forall_forall in Hb2.
    apply bzip_length; [by apply Ha2|by apply Hb2|done].
Qed.

Lemma softmax_row_length l : length (softmax_row l) = length l.
Proof. unfold softmax_row. by rewrite !length_fmap. Qed.

Lemma softmax2_wf t : wf2 t → wf2 (softmax2 t).
Proof.
  intros [H1 H2]. split; simpl.
  - by rewrite length_fmap.
  - apply Forall_fmap. eapply Forall_impl; [exact H2|].
    intros r Hr. simpl. by rewrite softmax_row_length.
Qed.

Lemma topk_values_wf t k v :
  wf2 t → topk_values t k = Ok v →
  wf2 v ∧ shape2 v = ((shape2 t).1, k) ∧ k ≤ (shape2 t).2.
Proof.
  intros [H1 H2] Hv. unfold topk_values in Hv.
  destruct (Nat.ltb_spec (shape2 t).2 k); [done|]. injection Hv as <-.
  split; [|done]. split; simpl.
  - by rewrite length_fmap.
  - apply Forall_fmap. eapply Forall_impl; [exact H2|].
    intros r Hr. simpl in *. rewrite length_take.
    rewrite (Permutation_length (merge_sort_Permutation num_desc r)). lia.
Qed.

Lemma argMax_expandDims_wf t : wf2 t → wf2 (expandDims_last (argMax_last t)).
Proof.
  intros [H1 _]. split; simpl.
  - by rewrite !length_fmap.
  - rewrite <- list_fmap_compose. by apply Forall_fmap, Forall_true.
Qed.

(** ** One iteration of [generate] *)

Hypothesis multinomial_shape : ∀ p n b g,
  shape2 (multinomial p n b g).1 = ((shape2 p).1, n).
Hypothesis multinomial_wf : ∀ p n b g, wf2 (multinomial p n b g).1.

Lemma slice_axis_from dim b :
  (0 ≤ b ≤ Z.of_nat dim)%Z →
  slice_axis dim b (-1) = Ok (Z.to_nat b, dim - Z.to_nat b).
Proof.
  intros Hb. unfold slice_axis. destruct (Z.ltb_spec b 0); [lia|]. simpl.
  destruct (Z.ltb_spec (Z.of_nat dim - b) 0); [lia|].
  destruct (Z.ltb_spec (Z.of_nat dim) (b + (Z.of_nat dim - b))); [lia|].
  simpl. do 2 f_equal. lia.
Qed.

Lemma bdim_one_r n : bdim n 1 = Some n.
Proof.
  unfold bdim. destruct (Nat.eqb_spec n 1) as [->|]; [done|].
  by destruct (Nat.eqb_spec n 1).
Qed.

Lemma lastCharLogits_shape blockSize i logits B V :
  shape3 logits = (B, blockSize, V) → 1 ≤ blockSize →
  ∃ last, lastCharLogits blockSize i logits = Ok last ∧
    shape2 last = (B, V).
Proof.
  intros Hl Hbs. unfold lastCharLogits, slice3. rewrite Hl. simpl.
  rewrite !slice_axis_rest. simpl.
  rewrite slice_axis_ok by (destruct (Nat.ltb_spec i blockSize); lia).
  simpl. unfold squeeze1. simpl. eauto.
Qed.

Lemma lastCharLogits_wf blockSize i logits last :
  wf3 logits → lastCharLogits blockSize i logits = Ok last → wf2 last.
Proof.
  intros Hwf (row & Hrow & Hlast)%bind_Ok.
  eapply squeeze1_wf; [|done]. by eapply slice3_wf.
Qed.

Lemma topK_filter_shape vocabSize k l B :
  shape2 l = (B, vocabSize) → 1 ≤ k → 1 ≤ vocabSize →
  ∃ f, topK_filter vocabSize k l = Ok f ∧ shape2 f = (B, vocabSize).
Proof.
  intros Hl Hk HV. unfold topK_filter, topk_values. rewrite Hl. simpl.
  destruct (Nat.ltb_spec vocabSize (k `min` vocabSize)); [lia|]. simpl.
  unfold slice2. simpl. rewrite slice_axis_rest. simpl.
  rewrite slice_axis_from by lia. simpl.
  unfold greaterEqual2, binop2. simpl. rewrite Hl. simpl.
  replace (k `min` vocabSize - Z.to_nat (Z.of_nat (k `min` vocabSize) - 1))
    with 1 by lia.
  rewrite bdim_same, bdim_one_r. simpl.
  unfold where2_else_scalar, binop2. simpl. rewrite Hl. simpl.
  rewrite !bdim_same. eauto.
Qed.

Lemma topK_filter_wf vocabSize k l f :
  wf2 l → topK_filter vocabSize k l = Ok f → wf2 f.
Proof.
  intros Hwf (values & Hvalues & Hf)%bind_Ok.
  apply bind_Ok in Hf as (smallest & Hsmallest & Hf).
  apply bind_Ok in Hf as (keep & Hkeep & Hf).
  apply topk_values_wf in Hvalues as (Hv & _); [|done].
  eapply slice2_wf in Hsmallest; [|done].
  eapply binop2_wf in Hkeep; [|done..].
  by eapply binop2_wf in Hf.
Qed.

Lemma next_token_shape doSample probs logits g B V :
  shape2 probs = (B, V) → shape2 logits = (B, V) →
  (doSample = true → getBackend = "webgpu" → B = 1) →
  ∃ sampled idxNext g',
    next_token doSample probs logits g = Ok (sampled, idxNext, g') ∧
    shape2 idxNext = (B, 1).
Proof.
  intros Hp Hl Hgpu. unfold next_token. destruct doSample.
  - destruct (String.eqb_spec getBackend "webgpu") as [Hb|_].
    + specialize (Hgpu eq_refl Hb) as ->.
      pose proof (multinomial_shape probs 2 true g) as Hs.
      destruct (multinomial probs 2 true g) as [sampled g'].
      simpl in Hs. unfold slice2. rewrite Hs, Hp. simpl. eauto.
    + destruct (String.eqb_spec getBackend "tensorflow") as [_|_].
      * pose proof (multinomial_shape logits 1 false g) as Hs.
        destruct (multinomial logits 1 false g) as [sampled g'].
        simpl in Hs. rewrite Hl in Hs. eauto.
      * pose proof (multinomial_shape probs 1 true g) as Hs.
        destruct (multinomial probs 1 true g) as [sampled g'].
        simpl in Hs. rewrite Hp in Hs. eauto.
  - do 3 eexists. split; [done|]. simpl. by rewrite Hp.
Qed.

Lemma next_token_wf doSample probs logits g sampled idxNext g' :
  wf2 probs →
  next_token doSample probs logits g = Ok (sampled, idxNext, g') →
  wf2 idxNext.
Proof.
  intros Hwf. unfold next_token. destruct doSample.
  - destruct (String.eqb_spec getBackend "webgpu") as [_|_].
    + pose proof (multinomial_wf probs 2 true g) as Hs.
      destruct (multinomial probs 2 true g) as [s g1]. simpl in Hs.
      intros (sl & Hsl & [= <- <- <-])%bind_Ok. by eapply slice2_wf.
    + destruct (String.eqb_spec getBackend "tensorflow") as [_|_].
      * pose proof (multinomial_wf logits 1 false g) as Hs.
        destruct (multinomial logits 1 false g) as [s g1]. simpl in Hs.
        by intros [= <- <- <-].
      * pose proof (multinomial_wf probs 1 true g) as Hs.
        destruct (multinomial probs 1 true g) as [s g1]. simpl in Hs.
        by intros [= <- <- <-].
  - intros [= <- <- <-]. by apply argMax_expandDims_wf.
Qed.

(** What a successful iteration has computed. *)
Lemma generate_step_inv m temperature doSample topK i idx g it g1 :
  generate_step m temperature doSample topK i idx g = Ok (it, g1) →
  it_i it = i ∧ it_idx it = idx ∧
  idxShaped (blockSize (params m)) idx = Ok (it_idxShaped it) ∧
  GPT_apply m (it_idxShaped it) = Ok (it_logits it) ∧
  lastCharLogits (blockSize (params m)) i (it_logits it)
    = Ok (it_lastCharLogits it) ∧
  it_scaled it = div_scalar2 (it_lastCharLogits it) temperature ∧
  match truthy topK with
  | Some k => topK_filter (vocabSize (params m)) k (it_scaled it)
  | None => Ok (it_scaled it)
  end = Ok (it_filtered it) ∧
  it_probs it = softmax2 (it_filtered it) ∧
  next_token doSample (it_probs it) (it_filtered it) g
    = Ok (it_sampled it, it_idxNext it, g1) ∧
  concat2 idx (it_idxNext it) = Ok (it_newIdx it).
Proof.
  unfold generate_step.
  intros (shaped & Hshaped & H)%bind_Ok.
  apply bind_Ok in H as (logits & Hlogits & H).
  apply bind_Ok in H as (last & Hlast & H).
  apply bind_Ok in H as (filtered & Hfiltered & H).
  apply bind_Ok in H as ([[sampled idxNext] g'] & Hnext & H).
  apply bind_Ok in H as (newIdx & Hnew & [= <- <-]).
  simpl. by repeat split.
Qed.

Lemma generate_loop_steps m temperature doSample topK n i idx g done out
    trace g' :
  generate_loop m temperature doSample topK n i idx g done
    = Ok (out, trace, g') ↔
  ∃ its, trace = done ++ its ∧ length its = n ∧
         steps m temperature doSample topK i idx g its out g'.
Proof.
  revert i idx g done. induction n as [|n IH]; intros i idx g done; simpl.
  - split.
    + intros [= <- <- <-]. exists []. rewrite app_nil_r.
      split_and!; [done..|constructor].
    + intros (its & -> & Hlen & Hsteps). destruct its; [|done].
      inversion Hsteps; subst. by rewrite app_nil_r.
  - split.
    + intros ([it g1] & Hstep & Hloop)%bind_Ok.
      apply IH in Hloop as (its & -> & Hlen & Hsteps).
      exists (it :: its). rewrite <- app_assoc. simpl.
      split_and!; [done|by f_equal|by econstructor].
    + intros (its & -> & Hlen & Hsteps). destruct its as [|it its]; [done|].
      inversion Hsteps; subst. apply bind_Ok. eexists (_, _).
      split; [done|]. apply IH. exists its.
      rewrite <- app_assoc. simpl. split_and!; [done|by simplify_eq/=|done].
Qed.

Lemma generate_trace_steps m p g out trace g' :
  generate_trace m p g = Ok (out, trace, g') ↔
  length trace = maxNewTokens p ∧
  steps m (default (Fin 1) (temperature p)) (default false (doSample p))
    (topK p) 0 (idx p) g trace out g'.
Proof.
  unfold generate_trace. rewrite generate_loop_steps. simpl. split.
  - by intros (its & -> & Hlen & Hsteps).
  - intros [Hlen Hsteps]. by exists trace.
Qed.

(** A property of every iteration of a run follows from an invariant of
    the running sequence. *)
Lemma steps_invariant m temperature doSample topK
    (I : nat → tensor2 Z → Prop) (P : Iteration → Prop)
    i idx g its out g' :
  (∀ i idx g it g1, I i idx →
     generate_step m temperature doSample topK i idx g = Ok (it, g1) →
     P it ∧ I (S i) (it_newIdx it)) →
  I i idx →
  steps m temperature doSample topK i idx g its out g' →
  Forall P its ∧ I (i + length its) out.
Proof.
  intros Hstep HI Hsteps. induction Hsteps as [|???????? Hit _ IH].
  - split; [constructor|]. by rewrite Nat.add_0_r.
  - destruct (Hstep _ _ _ _ _ HI Hit) as [HP HI'].
    destruct (IH HI') as [HPs Hout]. split; [by constructor|].
    simpl. by rewrite Nat.add_succ_r.
Qed.

(** ** [model.apply] and the length of its input *)

Lemma GPT_apply_mismatch m idx :
  (shape2 idx).2 ≠ blockSize (params m) →
  GPT_apply m idx =
    Err (Error ("Sequence must be of size " +:+ dec (blockSize (params m)) +:+
                ", got " +:+ dec (shape2 idx).2)).
Proof.
  intros HT. unfold GPT_apply. destruct (shape2 idx) as [B T]. simpl in *.
  by destruct (Nat.eqb_spec T (blockSize (params m))).
Qed.

Lemma tf_only_GPT_apply m idx :
  (shape2 idx).2 = blockSize (params m) → tf_only (GPT_apply m idx).
Proof.
  intros HT. unfold GPT_apply. destruct (shape2 idx) as [B T]. simpl in *.
  subst T. rewrite Nat.eqb_refl. simpl. unfold add3.
  apply tf_only_bind; [auto with tf_only|intros x _].
  apply tf_only_bind; [apply tf_only_forEach_block|intros y _].
  apply tf_only_Ok.
Qed.

Lemma tf_only_generate_step m temperature doSample topK i idx g :
  tf_only (generate_step m temperature doSample topK i idx g).
Proof.
  unfold generate_step.
  apply tf_only_bind.
  { unfold idxShaped. tf_only_steps. }
  intros shaped Hshaped.
  destruct (idxShaped_shape (blockSize (params m)) idx)
    as (shaped' & Hs & Hshape & _).
  rewrite Hshaped in Hs. injection Hs as <-.
  apply tf_only_bind; [apply tf_only_GPT_apply; by rewrite Hshape|].
  intros logits _.
  apply tf_only_bind; [unfold lastCharLogits; tf_only_steps|intros last _].
  apply tf_only_bind.
  { destruct (truthy topK); [|apply tf_only_Ok].
    unfold topK_filter, greaterEqual2, where2_else_scalar. tf_only_steps. }
  intros filtered _.
  apply tf_only_bind.
  { unfold next_token. repeat case_match; tf_only_steps. }
  intros [[sampled idxNext] g'] _. tf_only_steps.
Qed.

Lemma tf_only_generate_loop m temperature doSample topK n i idx g done :
  tf_only (generate_loop m temperature doSample topK n i idx g done).
Proof.
  revert i idx g done. induction n as [|n IH]; intros i idx g done; simpl.
  - apply tf_only_Ok.
  - apply tf_only_bind; [apply tf_only_generate_step|].
    intros [it g1] _. apply IH.
Qed.

(** C9. [model.apply] throws [Sequence must be of size blockSize, got T]
    exactly when the time length [T] of its input differs from [blockSize];
    [generate] reshapes its model input to time length [blockSize], keeping
    the last [blockSize] tokens of every row or padding the row with zeros
    at its end, and so never raises that error. *)
Theorem apply_checks_blockSize (m : Model) (idx : tensor2 Z) :
  ((shape2 idx).2 ≠ blockSize (params m) →
   GPT_apply m idx =
     Err (Error ("Sequence must be of size " +:+ dec (blockSize (params m))
                 +:+ ", got " +:+ dec (shape2 idx).2))) ∧
  ((shape2 idx).2 = blockSize (params m) → tf_only (GPT_apply m idx)) ∧
  (∃ shaped, idxShaped (blockSize (params m)) idx = Ok shaped ∧
     (shape2 shaped).2 = blockSize (params m) ∧
     tf_only (GPT_apply m shaped) ∧
     (wf2 idx →
      data2 shaped =
        (λ r, list.drop ((shape2 idx).2 - blockSize (params m)) r ++
              replicate (blockSize (params m) - (shape2 idx).2) 0%Z)
        <$> data2 idx)) ∧
  (∀ p g, tf_only (generate m p g)).
Proof.
  split_and!.
  - apply GPT_apply_mismatch.
  - apply tf_only_GPT_apply.
  - destruct (idxShaped_shape (blockSize (params m)) idx)
      as (shaped & Hs & Hshape & _).
    exists shaped. split_and!; [done|by rewrite Hshape| |].
    + apply tf_only_GPT_apply. by rewrite Hshape.
    + intros Hwf. by apply idxShaped_data.
  - intros p g. unfold generate, generate_trace.
    apply tf_only_bind; [apply tf_only_generate_loop|].
    intros [[out trace] g'] _. apply tf_only_Ok.
Qed.

(** ** The topology of the forward pass *)

Lemma tile_rows_range T B :
  tile_rows (range_row T) B =
    Tensor2 (B, T) (replicate B (Z.of_nat <$> seq 0 T)).
Proof.
  unfold tile_rows, range_row. simpl. rewrite Nat.mul_1_r. f_equal.
  induction B as [|B IH]; simpl; [done|]. by rewrite IH.
Qed.

Lemma forEach_block_foldl bs x :
  forEach_block bs x = foldl (λ r b, r ≫= Block_apply b) (Ok x) bs.
Proof.
  revert x. induction bs as [|b bs IH]; intros x; simpl; [done|].
  destruct (Block_apply b x) as [y|e]; simpl; [apply IH|].
  clear. induction bs as [|b' bs IH]; simpl; [done|apply IH].
Qed.

Lemma Block_apply_residual b x :
  Block_apply b x =
    (a ← CausalSelfAttention_apply (block_attn b)
           (layerNormalization_apply (block_ln1 b) x);
     x1 ← add3 x a;
     add3 x1 (FeedForward_apply (block_mlp b)
                (layerNormalization_apply (block_ln2 b) x1))).
Proof.
  unfold Block_apply.
  destruct (CausalSelfAttention_apply _ _) as [a|]; simpl; [|done].
  destruct (add3 x a) as [x1|]; simpl; [|done].
  by destruct (add3 x1 _).
Qed.

(** C6. On an input of time length [blockSize] whose tokens lie in
    [0 .. vocabSize] (the rows of the token embedding), [model.apply] of a
    model built by [GPT] adds the token embeddings and the position embeddings
    (of the positions [0 .. blockSize - 1] in every row), applies dropout,
    runs the [nLayer] blocks one after the other, each block computing
    [x + attn(ln1(x))] and then [x + mlp(ln2(x))], applies the final layer
    normalization [lnF] and the linear [lmHead], and returns logits of
    shape [(B, blockSize, vocabSize)]; the sum of the embeddings and the
    output of the last block have shape [(B, blockSize, nEmbd)]. *)
Theorem GPT_apply_topology (p : ModelParams) (log log' : list tf_layer)
    (m : Model) (idx : tensor2 Z) (B : nat) :
  GPT p log = (log', Ok m) →
  shape2 idx = (B, blockSize p) →
  Forall (Forall (λ tok, (0 ≤ tok ≤ Z.of_nat (vocabSize p))%Z)) (data2 idx) →
  let tr := transformer m in
  let tokEmb := embedding_apply (wte tr) idx in
  let posEmb :=
    embedding_apply (wpe tr)
      (Tensor2 (B, blockSize p)
         (replicate B (Z.of_nat <$> seq 0 (blockSize p)))) in
  length (h tr) = nLayer p ∧
  (∀ b x, Block_apply b x =
     (a ← CausalSelfAttention_apply (block_attn b)
            (layerNormalization_apply (block_ln1 b) x);
      x1 ← add3 x a;
      add3 x1 (FeedForward_apply (block_mlp b)
                 (layerNormalization_apply (block_ln2 b) x1)))) ∧
  ∃ x0 xn logits,
    add3 tokEmb posEmb = Ok x0 ∧
    shape3 x0 = (B, blockSize p, nEmbd p) ∧
    foldl (λ r b, r ≫= Block_apply b) (Ok (dropout_apply (drop tr) x0)) (h tr)
      = Ok xn ∧
    shape3 xn = (B, blockSize p, nEmbd p) ∧
    logits = dense_apply (lmHead m) (layerNormalization_apply (lnF tr) xn) ∧
    GPT_apply m idx = Ok logits ∧
    shape3 logits = (B, blockSize p, vocabSize p).
Proof.
  intros [<- Hok]%GPT_ok Hidx _. simpl.
  split; [apply Hok|]. split; [apply Block_apply_residual|].
  destruct (GPT_apply_shape m idx B Hok Hidx) as (logits & Happly & _ & Hs).
  unfold GPT_apply in Happly. rewrite Hidx, Nat.eqb_refl in Happly.
  simpl in Happly. rewrite tile_rows_range in Happly.
  apply bind_Ok in Happly as (x0 & Hx0 & Happly).
  apply bind_Ok in Happly as (xn & Hxn & [= <-]).
  pose proof Hok as (Hwte & Hwpe & _ & Hblocks & _).
  destruct (add3_shape
              (embedding_apply (wte (transformer m)) idx)
              (embedding_apply (wpe (transformer m))
                 (Tensor2 (B, blockSize (params m))
                    (replicate B (Z.of_nat <$> seq 0 (blockSize (params m))))))
              (B, blockSize (params m), nEmbd (params m)))
    as (x0' & Hx0' & Hsx0).
  { by rewrite embedding_shape, Hidx, Hwte. }
  { by rewrite embedding_shape, Hwpe. }
  rewrite Hx0 in Hx0'. injection Hx0' as <-.
  destruct (forEach_block_shape (h (transformer m))
              (dropout_apply (drop (transformer m)) x0)
              B (blockSize (params m)) (nEmbd (params m))
              (blockSize (params m)) (nHead (params m)))
    as (xn' & Hxn' & Hsxn); [done|by rewrite dropout_shape|done|].
  rewrite Hxn in Hxn'. injection Hxn' as <-.
  exists x0, xn. eexists. split_and!; [done|done| |done|done| |done].
  - by rewrite <- forEach_block_foldl.
  - unfold GPT_apply. rewrite Hidx, Nat.eqb_refl. simpl.
    rewrite tile_rows_range, Hx0. simpl. by rewrite Hxn.
Qed.

(** ** Runs of [generate] *)

Lemma GPT_apply_wf m idx logits : GPT_apply m idx = Ok logits → wf3 logits.
Proof.
  unfold GPT_apply. destruct (shape2 idx) as [B T]. case_match; [done|].
  intros (x & _ & Hr)%bind_Ok. apply bind_Ok in Hr as (y & _ & [= <-]).
  apply dense_wf.
Qed.

Lemma truthy_Some topK k : truthy topK = Some k → topK = Some k ∧ 1 ≤ k.
Proof. destruct topK as [[|n]|]; intros [= <-]; split; [done|lia]. Qed.

Lemma generate_step_wf m temperature doSample topK i idx g it g1 :
  generate_step m temperature doSample topK i idx g = Ok (it, g1) →
  wf2 (it_lastCharLogits it) ∧ wf2 (it_scaled it) ∧ wf2 (it_filtered it) ∧
  wf2 (it_probs it) ∧ wf2 (it_idxNext it) ∧
  (wf2 idx → wf2 (it_newIdx it)).
Proof.
  intros (_ & _ & _ & Hlogits & Hlast & -> & Hfiltered & -> & Hnext & Hnew)
    %generate_step_inv.
  apply GPT_apply_wf in Hlogits.
  assert (wf2 (it_lastCharLogits it)) as Hl by by eapply lastCharLogits_wf.
  assert (wf2 (div_scalar2 (it_lastCharLogits it) temperature)) as Hs
    by by apply tmap2_wf.
  assert (wf2 (it_filtered it)) as Hf.
  { destruct (truthy topK); [by eapply topK_filter_wf|].
    by injection Hfiltered as <-. }
  assert (wf2 (softmax2 (it_filtered it))) as Hp by by apply softmax2_wf.
  assert (wf2 (it_idxNext it)) as Hn by by eapply next_token_wf.
  refine (conj Hl (conj Hs (conj Hf (conj Hp (conj Hn _))))).
  intros Hwf. exact (concat2_wf _ _ _ Hwf Hn Hnew).
Qed.

Lemma generate_step_Ok m temperature doSample topK i idx g :
  model_ok m → 1 ≤ blockSize (params m) →
  (is_Some (truthy topK) → 1 ≤ vocabSize (params m)) →
  (doSample = true → getBackend = "webgpu" → (shape2 idx).1 = 1) →
  ∃ it g1,
    generate_step m temperature doSample topK i idx g = Ok (it, g1) ∧
    shape3 (it_logits it)
      = ((shape2 idx).1, blockSize (params m), vocabSize (params m)) ∧
    shape2 (it_scaled it) = ((shape2 idx).1, vocabSize (params m)) ∧
    shape2 (it_filtered it) = ((shape2 idx).1, vocabSize (params m)) ∧
    shape2 (it_idxNext it) = ((shape2 idx).1, 1) ∧
    shape2 (it_newIdx it) = ((shape2 idx).1, S (shape2 idx).2).
Proof.
  intros Hok Hbs HtopK Hgpu. unfold generate_step.
  destruct (idxShaped_shape (blockSize (params m)) idx)
    as (shaped & -> & Hshaped & _). simpl.
  destruct (GPT_apply_shape m shaped _ Hok Hshaped)
    as (logits & -> & _ & Hlogits). simpl.
  destruct (lastCharLogits_shape _ i logits _ _ Hlogits Hbs)
    as (last & -> & Hlast). simpl.
  assert (∃ filtered,
    match truthy topK with
    | Some k => topK_filter (vocabSize (params m)) k
                  (div_scalar2 last temperature)
    | None => Ok (div_scalar2 last temperature)
    end = Ok filtered ∧
    shape2 filtered = ((shape2 idx).1, vocabSize (params m)))
    as (filtered & -> & Hfiltered).
  { destruct (truthy topK) as [k|] eqn:Hk; [|by eauto].
    apply truthy_Some in Hk as [_ Hk].
    apply topK_filter_shape; [done|done|]. apply HtopK. by eexists. }
  simpl.
  destruct (next_token_shape doSample (softmax2 filtered) filtered g
              (shape2 idx).1 (vocabSize (params m)))
    as (sampled & idxNext & g' & -> & HidxNext); [done..|].
  simpl. unfold concat2. rewrite HidxNext. simpl. rewrite Nat.eqb_refl.
  simpl. do 2 eexists. split; [done|]. simpl.
  split_and!; [done..|]. f_equal. lia.
Qed.

Lemma steps_exist m temperature doSample topK n i idx g :
  model_ok m → 1 ≤ blockSize (params m) →
  (is_Some (truthy topK) → 1 ≤ vocabSize (params m)) →
  (doSample = true → getBackend = "webgpu" → (shape2 idx).1 = 1) →
  ∃ its out g',
    length its = n ∧
    steps m temperature doSample topK i idx g its out g' ∧
    shape2 out = ((shape2 idx).1, (shape2 idx).2 + n) ∧
    Forall (λ it, shape2 (it_newIdx it)
                  = ((shape2 (it_idx it)).1, S (shape2 (it_idx it)).2)) its.
Proof.
  intros Hok Hbs HtopK. revert i idx g.
  induction n as [|n IH]; intros i idx g Hgpu.
  - exists [], idx, g. split_and!; [done|constructor| |constructor].
    rewrite Nat.add_0_r. by destruct (shape2 idx).
  - destruct (generate_step_Ok m temperature doSample topK i idx g)
      as (it & g1 & Hit & _ & _ & _ & _ & Hnew); [done..|].
    destruct (IH (S i) (it_newIdx it) g1) as (its & out & g' & Hlen & Hs & Ho & Ha).
    { rewrite Hnew. simpl. done. }
    exists (it :: its), out, g'. split_and!.
    + simpl. by f_equal.
    + by econstructor.
    + rewrite Ho, Hnew. simpl. f_equal. lia.
    + constructor; [|done].
      apply generate_step_inv in Hit as (_ & -> & _). done.
Qed.

(** X1. On a model built by [GPT] with at least one position and one
    token, [generate] returns on every prompt of one row at least whose
    tokens lie in [0 .. vocabSize] (the rows of the token embedding):
    the loop runs [maxNewTokens] iterations, each appends one column to the
    running sequence, and the result has time length [T0 + maxNewTokens].
    With [doSample] this needs two tokens at least (the sampler of the
    library refuses fewer than two outcomes) and, under the backend
    [webgpu], a batch of one row. *)
Lemma generate_length (p0 : ModelParams) (log log' : list tf_layer) m p g :
  GPT p0 log = (log', Ok m) → 1 ≤ blockSize p0 → 1 ≤ vocabSize p0 →
  wf2 (idx p) → 1 ≤ (shape2 (idx p)).1 →
  Forall (Forall (λ tok, (0 ≤ tok ≤ Z.of_nat (vocabSize p0))%Z))
    (data2 (idx p)) →
  (doSample p = Some true → 2 ≤ vocabSize p0) →
  (doSample p = Some true → getBackend = "webgpu" → (shape2 (idx p)).1 = 1) →
  ∃ out trace g',
    generate_trace m p g = Ok (out, trace, g') ∧
    generate m p g = Ok out ∧
    length trace = maxNewTokens p ∧
    Forall (λ it, shape2 (it_newIdx it)
                  = ((shape2 (it_idx it)).1, S (shape2 (it_idx it)).2)) trace ∧
    shape2 out = ((shape2 (idx p)).1, (shape2 (idx p)).2 + maxNewTokens p).
Proof.
  intros [<- Hok]%GPT_ok Hbs HV _ _ _ _ Hgpu.
  destruct (steps_exist m (default (Fin 1) (temperature p))
              (default false (doSample p)) (topK p) (maxNewTokens p) 0
              (idx p) g) as (its & out & g' & Hlen & Hs & Ho & Ha); [done..| |].
  { intros Hd. apply Hgpu. by destruct (doSample p) as [[]|]. }
  assert (generate_trace m p g = Ok (out, its, g')) as Ht
    by by apply generate_trace_steps.
  exists out, its, g'. split_and!; [done| |done..].
  unfold generate. by rewrite Ht.
Qed.

Lemma steps_Forall m temperature doSample topK (P : Iteration → Prop)
    i idx g its out g' :
  (∀ i idx g it g1,
     generate_step m temperature doSample topK i idx g = Ok (it, g1) → P it) →
  steps m temperature doSample topK i idx g its out g' → Forall P its.
Proof.
  intros HP Hsteps.
  eapply (steps_invariant _ _ _ _ (λ _ _, True) P) in Hsteps as [H _];
    [done| |done].
  intros. split; [by eapply HP|done].
Qed.

Lemma steps_chain m temperature doSample topK i idx g its out g' :
  steps m temperature doSample topK i idx g its out g' →
  ∀ j it, its !! j = Some it →
    it_i it = i + j ∧
    it_idx it = match j with
                | 0 => idx
                | S j' => default idx (it_newIdx <$> its !! j')
                end.
Proof.
  induction 1 as [|i idx g it g1 its out g' Hit _ IH]; intros j it' Hj;
    [done|].
  apply generate_step_inv in Hit as (Hi & Hidx & _).
  destruct j as [|j]; simpl in *.
  - injection Hj as <-. split; [lia|done].
  - destruct (IH _ _ Hj) as [Hi' Hidx']. split; [lia|].
    rewrite Hidx'. destruct j as [|j]; simpl; [done|].
    destruct (its !! j) eqn:Hlook; [done|].
    apply lookup_ge_None in Hlook. apply lookup_lt_Some in Hj. lia.
Qed.

Lemma steps_wf m temperature doSample topK i idx g its out g' :
  wf2 idx →
  steps m temperature doSample topK i idx g its out g' →
  Forall (λ it, wf2 (it_idx it)) its ∧ wf2 out.
Proof.
  intros Hwf Hsteps.
  eapply (steps_invariant _ _ _ _ (λ _ idx, wf2 idx)) in Hsteps as [H1 H2];
    [done| |done].
  intros i0 idx0 g0 it g1 Hwf0 Hit.
  pose proof (generate_step_wf _ _ _ _ _ _ _ _ _ Hit) as (_&_&_&_&_&Hn).
  apply generate_step_inv in Hit as (_ & -> & _). auto.
Qed.

(** C1 (amended). At every iteration of [generate] the model input is the
    window of the running sequence that fits the model: every row keeps its
    last [min T blockSize] tokens and is padded with zeros up to [blockSize];
    the logits of the iteration are those of that input.  As long as the
    running sequence is no longer than [blockSize], the input holds all of it
    (every row of the sequence is a prefix of the row of the input).  The
    running sequence of an iteration is the one the iteration before left. *)
Theorem generate_input_window (m : Model) (p : GenerateParams) (g : rng)
    (out : tensor2 Z) (trace : list Iteration) (g' : rng) :
  wf2 (idx p) →
  generate_trace m p g = Ok (out, trace, g') →
  Forall (λ it,
    let T := (shape2 (it_idx it)).2 in
    let blockSize := blockSize (params m) in
    idxShaped blockSize (it_idx it) = Ok (it_idxShaped it) ∧
    GPT_apply m (it_idxShaped it) = Ok (it_logits it) ∧
    data2 (it_idxShaped it) =
      (λ r, list.drop (T - blockSize) r ++ replicate (blockSize - T) 0%Z)
      <$> data2 (it_idx it) ∧
    (T ≤ blockSize →
     Forall2 prefix (data2 (it_idx it)) (data2 (it_idxShaped it)))) trace ∧
  (∀ j it, trace !! j = Some it →
     it_i it = j ∧
     it_idx it = match j with
                 | 0 => idx p
                 | S j' => default (idx p) (it_newIdx <$> trace !! j')
                 end).
Proof.
  intros Hwf [Hlen Hsteps]%generate_trace_steps. split.
  - destruct (steps_wf _ _ _ _ _ _ _ _ _ _ Hwf Hsteps) as [Hwfs _].
    assert (Forall
      (λ it, idxShaped (blockSize (params m)) (it_idx it)
               = Ok (it_idxShaped it) ∧
             GPT_apply m (it_idxShaped it) = Ok (it_logits it)) trace)
      as Hstep.
    { eapply steps_Forall; [|exact Hsteps].
      by intros ????? (_ & -> & ? & ? & _)%generate_step_inv. }
    rewrite Forall_forall in Hwfs. rewrite Forall_forall in Hstep.
    apply Forall_forall. intros it Hit.
    destruct (Hstep it Hit) as [Hshaped Hlogits]. specialize (Hwfs it Hit).
    pose proof (idxShaped_data _ _ _ Hwfs Hshaped) as Hdata.
    split_and!; [done..|]. intros HT. rewrite Hdata.
    apply Forall2_fmap_r, Forall_Forall2_diag, Forall_true. intros r. simpl.
    replace ((shape2 (it_idx it)).2 - blockSize (params m)) with 0 by lia.
    rewrite drop_0. by apply prefix_app_r.
  - intros j it Hj. by destruct (steps_chain _ _ _ _ _ _ _ _ _ _ Hsteps j it Hj).
Qed.

(** Under [webgpu] with [doSample] the next token is cut out of the samples
    with [slice([0, 1], [1, 1])], one row whatever the batch: with two rows
    or more in the running sequence, [idx.concat(idxNext, 1)] throws in the
    first iteration. *)
Lemma generate_step_webgpu_batch m temperature topK i idx g :
  model_ok m → 1 ≤ blockSize (params m) →
  (is_Some (truthy topK) → 1 ≤ vocabSize (params m)) →
  getBackend = "webgpu" → 2 ≤ (shape2 idx).1 →
  generate_step m temperature true topK i idx g = Err (TfError "concat").
Proof.
  intros Hok Hbs HtopK Hgpu HB. unfold generate_step.
  destruct (idxShaped_shape (blockSize (params m)) idx)
    as (shaped & -> & Hshaped & _). simpl.
  destruct (GPT_apply_shape m shaped _ Hok Hshaped)
    as (logits & -> & _ & Hlogits). simpl.
  destruct (lastCharLogits_shape _ i logits _ _ Hlogits Hbs)
    as (last & -> & Hlast). simpl.
  assert (∃ filtered,
    match truthy topK with
    | Some k => topK_filter (vocabSize (params m)) k
                  (div_scalar2 last temperature)
    | None => Ok (div_scalar2 last temperature)
    end = Ok filtered ∧
    shape2 filtered = ((shape2 idx).1, vocabSize (params m)))
    as (filtered & -> & Hfiltered).
  { destruct (truthy topK) as [k|] eqn:Hk; [|by eauto].
    apply truthy_Some in Hk as [_ Hk].
    apply topK_filter_shape; [done|done|]. apply HtopK. by eexists. }
  simpl. unfold next_token. rewrite Hgpu. simpl.
  pose proof (multinomial_shape (softmax2 filtered) 2 true g) as Hs.
  destruct (multinomial (softmax2 filtered) 2 true g) as [sampled g'].
  simpl in Hs. unfold slice2. rewrite Hs, Hfiltered. simpl.
  rewrite !slice_axis_ok by lia. simpl. unfold concat2. simpl.
  change (Z.to_nat 1) with 1.
  by destruct (Nat.eqb_spec (shape2 idx).1 1); [lia|].
Qed.

(** X2. On a model built by [GPT] with at least one position and one
    token, under [webgpu] with [doSample], [generate] on a batch of two rows
    or more, of tokens in [0 .. vocabSize], throws in the first iteration,
    when the next token is appended. *)
Lemma generate_webgpu_batch_throws (p0 : ModelParams)
    (log log' : list tf_layer) m p g :
  GPT p0 log = (log', Ok m) → 1 ≤ blockSize p0 → 1 ≤ vocabSize p0 →
  wf2 (idx p) →
  Forall (Forall (λ tok, (0 ≤ tok ≤ Z.of_nat (vocabSize p0))%Z))
    (data2 (idx p)) →
  getBackend = "webgpu" → doSample p = Some true →
  2 ≤ (shape2 (idx p)).1 → 1 ≤ maxNewTokens p →
  generate m p g = Err (TfError "concat").
Proof.
  intros [<- Hok]%GPT_ok Hbs HV _ _ Hgpu Hsample HB Hn.
  unfold generate, generate_trace.
  rewrite Hsample. destruct (maxNewTokens p) as [|n]; [lia|]. simpl.
  by rewrite generate_step_webgpu_batch.
Qed.

(** ** Temperature *)

Lemma Qdiv_one (q : Q) : (q / 1)%Q = q.
Proof.
  destruct q as [n d]. unfold Qdiv, Qmult, Qinv. simpl.
  by rewrite Z.mul_1_r, Pos.mul_1_r.
Qed.

Lemma num_div_one (x : num) : num_div x (Fin 1) = x.
Proof. destruct x; simpl; [done..|]. by rewrite Qdiv_one. Qed.

Lemma div_scalar2_one (t : tensor2 num) : div_scalar2 t (Fin 1) = t.
Proof.
  destruct t as [sh d]. unfold div_scalar2, tmap2. simpl. f_equal.
  rewrite <- (list_fmap_id d) at 2. apply list_fmap_ext. intros _ r _.
  rewrite <- (list_fmap_id r) at 2. apply list_fmap_ext. intros _ x _.
  apply num_div_one.
Qed.

(** X22. A run of [generate] has [maxNewTokens] iterations, and at every
    one of them the row of logits that the iteration selected from the model
    output (the row at its counter, see [lastCharLogits]) is divided entry
    by entry by [temperature], which is 1.0 when the caller gives none; the
    softmax that yields the sampling distribution is taken of the scaled
    logits (after the top-k filter, if any).  With temperature 1.0 the
    logits are unchanged. *)
Theorem generate_temperature (m : Model) (p : GenerateParams) (g : rng)
    (out : tensor2 Z) (trace : list Iteration) (g' : rng) :
  generate_trace m p g = Ok (out, trace, g') →
  let t := default (Fin 1) (temperature p) in
  length trace = maxNewTokens p ∧
  Forall (λ it,
    lastCharLogits (blockSize (params m)) (it_i it) (it_logits it)
      = Ok (it_lastCharLogits it) ∧
    shape2 (it_scaled it) = shape2 (it_lastCharLogits it) ∧
    data2 (it_scaled it) =
      fmap (M:=list) (λ x, num_div x t) <$> data2 (it_lastCharLogits it) ∧
    match truthy (topK p) with
    | Some k => topK_filter (vocabSize (params m)) k (it_scaled it)
    | None => Ok (it_scaled it)
    end = Ok (it_filtered it) ∧
    it_probs it = softmax2 (it_filtered it) ∧
    (t = Fin 1 → it_scaled it = it_lastCharLogits it)) trace.
Proof.
  intros [Hlen Hsteps]%generate_trace_steps t.
  split; [exact Hlen|].
  eapply steps_Forall; [|exact Hsteps].
  intros i idx0 g0 it g1
    (<- & _ & _ & _ & Hlast & Hscaled & Hfiltered & Hprobs & _)
    %generate_step_inv.
  split_and!; [done|by rewrite Hscaled|by rewrite Hscaled|done|done|].
  fold t in Hscaled. intros Ht. rewrite Hscaled, Ht. apply div_scalar2_one.
Qed.

(** ** Sampling *)

(** C7. A run of [generate] with [doSample] has [maxNewTokens] iterations,
    and each of them draws the next token from the sampler: under the
    backend [webgpu] an iteration of
    [generate] draws two samples per row from the softmax probabilities and
    takes as next token the second sample (of the first row), leaving the
    first aside; under [tensorflow] it draws one sample from the logits
    themselves, not from the probabilities; under any other backend it draws
    one sample from the softmax probabilities. *)
Theorem generate_sampling (m : Model) (p : GenerateParams) (g : rng)
    (out : tensor2 Z) (trace : list Iteration) (g' : rng) :
  doSample p = Some true →
  generate_trace m p g = Ok (out, trace, g') →
  length trace = maxNewTokens p ∧
  Forall (λ it, ∃ g0,
    it_probs it = softmax2 (it_filtered it) ∧
    (getBackend = "webgpu" →
       it_sampled it = (multinomial (it_probs it) 2 true g0).1 ∧
       slice2 (it_sampled it) (0, 1)%Z (1, 1)%Z = Ok (it_idxNext it) ∧
       data2 (it_idxNext it) =
         (λ r, take 1 (list.drop 1 r)) <$> take 1 (data2 (it_sampled it)) ∧
       ∀ first second, data2 (it_sampled it) = [[first; second]] →
                       data2 (it_idxNext it) = [[second]]) ∧
    (getBackend = "tensorflow" →
       it_sampled it = (multinomial (it_filtered it) 1 false g0).1 ∧
       it_idxNext it = it_sampled it) ∧
    (getBackend ≠ "webgpu" → getBackend ≠ "tensorflow" →
       it_sampled it = (multinomial (it_probs it) 1 true g0).1 ∧
       it_idxNext it = it_sampled it)) trace.
Proof.
  intros Hsample [Hlen Hsteps]%generate_trace_steps.
  split; [exact Hlen|]. rewrite Hsample in Hsteps.
  simpl in Hsteps. eapply steps_Forall; [|exact Hsteps].
  intros i idx0 g0 it g1 (_ & _ & _ & _ & _ & _ & _ & Hprobs & Hnext & _)
    %generate_step_inv.
  exists g0. split; [done|]. unfold next_token in Hnext.
  destruct (String.eqb_spec getBackend "webgpu") as [Hgpu|Hgpu].
  - destruct (multinomial (it_probs it) 2 true g0) as [s gs] eqn:Hs.
    apply bind_Ok in Hnext as (sl & Hsl & [= <- <- <-]).
    split_and!; [|by intros ->|done]. intros _.
    assert (data2 sl =
            (λ r, take 1 (list.drop 1 r)) <$> take 1 (data2 s)) as Hdata.
    { unfold slice2 in Hsl.
      apply bind_Ok in Hsl as ([o1 n1] & H1 & Hsl).
      apply bind_Ok in Hsl as ([o2 n2] & H2 & [= Heq]).
      apply slice_axis_Ok_inv in H1 as [-> ->]; [|done].
      apply slice_axis_Ok_inv in H2 as [-> ->]; [|done].
      rewrite <- Heq. simpl. unfold cut. simpl. by rewrite drop_0. }
    split_and!; [done|done|done|].
    intros a b Hab. by rewrite Hdata, Hab.
  - destruct (String.eqb_spec getBackend "tensorflow") as [Htf|Htf].
    + destruct (multinomial (it_filtered it) 1 false g0) as [s gs] eqn:Hs.
      injection Hnext as <- <- <-. by split_and!.
    + destruct (multinomial (it_probs it) 1 true g0) as [s gs] eqn:Hs.
      injection Hnext as <- <- <-. by split_and!.
Qed.

(** ** Softmax of masked entries *)

Hypothesis exp_pos : ∀ q, (0 < exp q)%Q.

Lemma max_masked (l : list num) :
  Forall (λ x, x = NegInf ∨ is_fin x) l →
  foldr num_max NegInf l = NegInf ∨ ∃ mm, foldr num_max NegInf l = Fin mm.
Proof.
  induction 1 as [|x l Hx _ IH]; simpl; [by left|].
  destruct Hx as [->|Hx].
  - destruct IH as [->|[mm ->]]; [by left|right]. by exists mm.
  - destruct x as [| | |a]; try done. right.
    destruct IH as [->|[mm ->]]; simpl; [by exists a|].
    destruct (Qle_bool mm a); eauto.
Qed.

Lemma max_masked_fin (l : list num) :
  Forall (λ x, x = NegInf ∨ is_fin x) l → Exists (λ x, is_fin x) l →
  ∃ mm, foldr num_max NegInf l = Fin mm.
Proof.
  intros Hall Hex. induction Hall as [|x l Hx Hall IH]; simpl.
  { by apply Exists_nil in Hex. }
  destruct (max_masked l Hall) as [Hmax|[mm Hmax]]; rewrite Hmax.
  - destruct Hx as [->|Hx].
    + apply Exists_cons in Hex as [Hex|Hex]; [done|].
      destruct (IH Hex) as [mm Hmm]. congruence.
    + destruct x as [| | |a]; try done. by exists a.
  - destruct Hx as [->|Hx]; [by exists mm|].
    destruct x as [| | |a]; try done. simpl.
    destruct (Qle_bool mm a); eauto.
Qed.

Lemma sum_nonneg (e : list num) :
  Forall (λ y, ∃ q, y = Fin q ∧ (0 <= q)%Q) e →
  ∃ sum, foldr num_add (Fin 0) e = Fin sum ∧ (0 <= sum)%Q ∧
    (Exists (λ y, ∃ q, y = Fin q ∧ (0 < q)%Q) e → (0 < sum)%Q).
Proof.
  induction 1 as [|y e (q & -> & Hq) _ (sum & Hsum & Hpos & Hlt)]; simpl.
  - exists 0%Q. split_and!; [done|lra|]. by intros ?%Exists_nil.
  - rewrite Hsum. simpl. exists (q + sum)%Q. split_and!; [done|lra|].
    intros [(q' & [= <-] & Hq')|Hex%Hlt]%Exists_cons; lra.
Qed.

(** In a row whose entries are finite or -Infinity, with a finite one among
    them, softmax gives weight 0 to every entry that is -Infinity. *)
Lemma softmax_row_masked (l : list num) (j : nat) :
  Forall (λ x, x = NegInf ∨ is_fin x) l → Exists (λ x, is_fin x) l →
  l !! j = Some NegInf →
  ∃ pr, softmax_row l !! j = Some (Fin pr) ∧ (pr == 0)%Q.
Proof.
  intros Hall Hex Hj. unfold softmax_row.
  destruct (max_masked_fin l Hall Hex) as [mm ->].
  destruct (sum_nonneg ((λ x, num_exp (num_sub x (Fin mm))) <$> l))
    as (sum & -> & _ & Hsum).
  { apply Forall_fmap. eapply Forall_impl; [exact Hall|].
    intros x [->|Hx]; simpl.
    - exists 0%Q. split; [done|lra].
    - destruct x as [| | |a]; try done. simpl. eexists. split; [done|].
      apply Qlt_le_weak, exp_pos. }
  assert (0 < sum)%Q as Hpos.
  { apply Hsum, Exists_fmap. eapply Exists_impl; [exact Hex|].
    intros x Hx. destruct x as [| | |a]; try done. simpl.
    eexists. split; [done|apply exp_pos]. }
  rewrite !list_lookup_fmap, Hj. simpl.
  destruct (Qeq_bool sum 0) eqn:E.
  { apply Qeq_bool_eq in E. lra. }
  eexists. split; [done|]. field. lra.
Qed.

(** ** The top-k filter *)

Lemma zip_with_fmap_same_r {A B C} (f : A → B → C) (h : A → B) (l : list A) :
  zip_with f l (h <$> l) = (λ x, f x (h x)) <$> l.
Proof. induction l as [|x l IH]; simpl; [done|]. f_equal. apply IH. Qed.

Lemma zip_with_fmap_same_l {A B C} (f : B → A → C) (h : A → B) (l : list A) :
  zip_with f (h <$> l) l = (λ x, f (h x) x) <$> l.
Proof. induction l as [|x l IH]; simpl; [done|]. f_equal. apply IH. Qed.

Lemma bzip_one_r {A B C} n (f : A → B → C) (la : list A) (b : B) :
  length la = n → bzip n 1 f la [b] = (λ a, f a b) <$> la.
Proof.
  intros Hn. unfold bzip. destruct (Nat.eqb_spec n 1) as [->|]; [|done].
  by destruct la as [|a [|]].
Qed.

Lemma cut_one {A} (l : list A) (i : nat) (x : A) :
  l !! i = Some x → cut (i, 1) (take (S i) l) = [x].
Proof.
  intros Hi. unfold cut. simpl. rewrite (take_S_r _ _ _ Hi).
  rewrite drop_app_length'; [done|].
  rewrite length_take. apply lookup_lt_Some in Hi. lia.
Qed.

(** What the filter leaves of every row: the entries at least as large as
    the [min k vocabSize]-th largest of the row, and -Infinity elsewhere. *)
Lemma topK_filter_data vocabSize k l f :
  wf2 l → topK_filter vocabSize k l = Ok f →
  1 ≤ k `min` vocabSize ∧ k `min` vocabSize ≤ (shape2 l).2 ∧
  shape2 f = shape2 l ∧
  Forall2 (λ row frow, ∃ kth,
             kth_largest (k `min` vocabSize) row = Some kth ∧
             frow = (λ x, if num_ge x kth then x else NegInf) <$> row)
    (data2 l) (data2 f).
Proof.
  intros [Hrows Hcols] Hf. unfold topK_filter in Hf.
  apply bind_Ok in Hf as (values & Hvalues & Hf).
  apply bind_Ok in Hf as (smallest & Hsmallest & Hf).
  apply bind_Ok in Hf as (keep & Hkeep & Hf).
  set (k' := k `min` vocabSize) in *.
  unfold topk_values in Hvalues.
  destruct (Nat.ltb_spec (shape2 l).2 k') as [|Hk']; [done|].
  injection Hvalues as <-. unfold slice2 in Hsmallest. simpl in Hsmallest.
  rewrite slice_axis_rest in Hsmallest. simpl in Hsmallest.
  apply bind_Ok in Hsmallest as ([o n] & Hax & [= <-]).
  assert (1 ≤ k') as Hk1.
  { unfold slice_axis in Hax.
    destruct (Z.ltb_spec (Z.of_nat k' - 1) 0); [done|lia]. }
  rewrite slice_axis_from in Hax by lia. injection Hax as <- <-.
  replace (k' - Z.to_nat (Z.of_nat k' - 1)) with 1 in * by lia.
  replace (Z.to_nat (Z.of_nat k' - 1)) with (k' - 1) in * by lia.
  unfold greaterEqual2, binop2 in Hkeep. simpl in Hkeep.
  rewrite bdim_same, bdim_one_r in Hkeep. injection Hkeep as <-.
  unfold where2_else_scalar, binop2 in Hf. simpl in Hf.
  rewrite !bdim_same in Hf. injection Hf as <-. simpl.
  split_and!; [done|done|by destruct (shape2 l)|].
  rewrite !bzip_same, cut_all by (by rewrite length_fmap).
  rewrite <- list_fmap_compose, zip_with_fmap_same_r, zip_with_fmap_same_l.
  apply Forall2_fmap_r, Forall_Forall2_diag.
  eapply Forall_impl; [exact Hcols|]. intros row Hrow. simpl in *.
  assert (is_Some (merge_sort num_desc row !! (k' - 1))) as [kth Hkth].
  { apply lookup_lt_is_Some.
    rewrite (Permutation_length (merge_sort_Permutation num_desc row)). lia. }
  exists kth. split; [done|].
  replace (take k' (merge_sort num_desc row))
    with (take (S (k' - 1)) (merge_sort num_desc row)) by (f_equal; lia).
  rewrite (cut_one _ _ _ Hkth).
  rewrite bzip_one_r by done. by rewrite zip_with_fmap_same_l.
Qed.

Lemma Qle_bool_total a b : Qle_bool a b = true ∨ Qle_bool b a = true.
Proof.
  destruct (Qlt_le_dec b a) as [Hlt|Hle].
  - right. apply Qle_bool_iff. lra.
  - left. by apply Qle_bool_iff.
Qed.

Lemma Qle_bool_trans a b c :
  Qle_bool a b = true → Qle_bool b c = true → Qle_bool a c = true.
Proof. rewrite !Qle_bool_iff. lra. Qed.

#[local] Instance num_desc_total : Total num_desc.
Proof.
  intros x y. unfold num_desc.
  destruct x as [| | |a], y as [| | |b]; simpl; auto.
  destruct (Qle_bool_total a b) as [->| ->]; auto.
Qed.

#[local] Instance num_desc_trans : Transitive num_desc.
Proof.
  intros x y z. unfold num_desc.
  destruct x as [| | |a], y as [| | |b], z as [| | |c]; simpl; try done.
  rewrite !Is_true_true. intros H1 H2. by eapply Qle_bool_trans.
Qed.

Lemma num_desc_refl x : num_desc x x.
Proof. by destruct (total num_desc x x). Qed.

Lemma filter_all {A} (P : A → Prop) `{∀ x, Decision (P x)} (l : list A) :
  Forall P l → filter P l = l.
Proof.
  induction 1 as [|x l Hx _ IH]; [done|].
  rewrite filter_cons_True by done. by rewrite IH.
Qed.

Lemma filter_none {A} (P : A → Prop) `{∀ x, Decision (P x)} (l : list A) :
  Forall (λ x, ¬ P x) l → filter P l = [].
Proof.
  induction 1 as [|x l Hx _ IH]; [done|].
  by rewrite filter_cons_False.
Qed.

(** The [k]-th largest entry is an entry of the row; at least [k] entries
    are no smaller, and fewer than [k] are strictly larger. *)
Lemma kth_largest_spec (k : nat) (row : list num) (kth : num) :
  1 ≤ k → kth_largest k row = Some kth →
  kth ∈ row ∧
  k ≤ length (filter (λ x, num_desc x kth) row) ∧
  length (filter (λ x, ¬ num_desc kth x) row) < k.
Proof.
  intros Hk Hkth. unfold kth_largest in Hkth.
  pose proof (merge_sort_Permutation num_desc row) as Hperm.
  pose proof (StronglySorted_merge_sort num_desc row) as Hsorted.
  rewrite <- !Hperm. clear Hperm.
  pose proof (take_drop_middle _ _ _ Hkth) as Hsplit.
  pose proof (lookup_lt_Some _ _ _ Hkth) as Hlt.
  set (s := merge_sort num_desc row) in *. rewrite <- Hsplit in Hsorted.
  apply StronglySorted_app in Hsorted as (Hcross & _ & Htail).
  apply StronglySorted_cons in Htail as [Htail _].
  split_and!.
  - eapply list_elem_of_lookup_2, Hkth.
  - rewrite <- Hsplit, filter_app, filter_cons_True by apply num_desc_refl.
    rewrite filter_all.
    + rewrite length_app, length_take. simpl. lia.
    + apply Forall_forall. intros x Hx. apply Hcross; [done|left].
  - rewrite <- Hsplit, filter_app, length_app.
    rewrite (filter_none _ (kth :: _)).
    + pose proof (length_filter (λ x, ¬ num_desc kth x) (take (k - 1) s)).
      rewrite length_take in *. simpl. lia.
    + constructor; [by intros []; apply num_desc_refl|].
      eapply Forall_impl; [exact Htail|]. by intros x Hx [].
Qed.

Lemma num_ge_rank (x kth : num) :
  kth ≠ NaN → num_ge x kth = num_rank_le kth x.
Proof. by destruct x, kth. Qed.




(** ** The causal mask of a head *)

Lemma length_transpose_m {A} (c : nat) (m : list (list A)) :
  Forall (λ r, length r = c) m → length (transpose_m c m) = c.
Proof.
  unfold transpose_m. induction 1 as [|r m Hr _ IH]; simpl.
  - by rewrite length_replicate.
  - rewrite length_zip_with, IH. lia.
Qed.

Lemma transpose_m_rows {A} (c : nat) (m : list (list A)) :
  Forall (λ col, length col = length m) (transpose_m c m).
Proof.
  unfold transpose_m. induction m as [|r m IH]; simpl.
  - by apply Forall_replicate.
  - apply Forall_forall. intros col (x & col' & -> & _ & Hcol)%elem_of_zip_with.
    rewrite Forall_forall in IH. simpl. f_equal. by apply IH.
Qed.

Lemma transpose3_wf {A} (t : tensor3 A) : wf3 t → wf3 (transpose3 t).
Proof.
  intros [H1 H2]. split; simpl.
  - by rewrite length_fmap.
  - apply Forall_fmap. eapply Forall_impl; [exact H2|].
    intros mm [Hm Hr]. simpl. split.
    + by apply length_transpose_m.
    + rewrite <- Hm. apply transpose_m_rows.
Qed.

Lemma tmap3_wf {A B} (f : A → B) (t : tensor3 A) : wf3 t → wf3 (tmap3 f t).
Proof.
  intros [H1 H2]. split; simpl.
  - by rewrite length_fmap.
  - apply Forall_fmap. eapply Forall_impl; [exact H2|].
    intros mm [Hm Hr]. simpl. split; [by rewrite length_fmap|].
    apply Forall_fmap. eapply Forall_impl; [exact Hr|].
    intros r Hlen. simpl. by rewrite length_fmap.
Qed.

Lemma matMul_wf a b c : wf3 a → wf3 b → matMul a b = Ok c → wf3 c.
Proof.
  intros [Ha1 Ha2] [Hb1 Hb2]. unfold matMul.
  destruct (bdim (shape3 a).1.1 (shape3 b).1.1) as [B|] eqn:HB; [|done].
  case_match; [|done]. intros [= <-]. split; simpl.
  - by apply bzip_length.
  - apply bzip_Forall. intros ma mb Hma Hmb.
    rewrite Forall_forall in Ha2. rewrite Forall_forall in Hb2.
    destruct (Ha2 _ Hma) as [Hlen _]. destruct (Hb2 _ Hmb) as [_ Hrows].
    unfold matmul_m. split; [by rewrite length_fmap|].
    apply Forall_fmap, Forall_true. intros r. simpl.
    rewrite length_fmap. by apply length_transpose_m.
Qed.

Lemma Head_scores_wf hd x scores :
  Head_scores hd x = Ok scores → wf3 scores.
Proof.
  intros (att & Hatt & [= <-])%bind_Ok. apply tmap3_wf.
  eapply matMul_wf; [| |exact Hatt]; [|apply transpose3_wf]; apply dense_wf.
Qed.

Lemma bzip_one_l {A B C} n (f : A → B → C) (a : A) (lb : list B) :
  length lb = n → bzip 1 n f [a] lb = f a <$> lb.
Proof.
  intros Hn. unfold bzip. destruct (Nat.eqb_spec 1 n) as [<-|]; [|done].
  by destruct lb as [|b [|]].
Qed.

(** The mask cut out of [tril]: the entry at row [i] and column [j] is set
    exactly when [j] lies after [i]. *)
Lemma tril_mask_lookup blockSize T i j :
  T ≤ blockSize → i < T → j < T →
  (fmap (M:=list) (λ x, num_eqb x (Fin 0)) <$>
     (cut (0, T) <$>
        cut (0, T) (data2 (bandPart (ones2 blockSize blockSize) (-1) 0))))
    !! i ≫= (.!! j) = Some (i <? j).
Proof.
  intros HT Hi Hj. unfold cut. simpl. rewrite !drop_0.
  rewrite !list_lookup_fmap, lookup_take_lt by done.
  rewrite list_lookup_imap, lookup_replicate_2 by lia. simpl.
  rewrite drop_0, list_lookup_fmap, lookup_take_lt by done.
  rewrite list_lookup_imap, lookup_replicate_2 by lia. simpl.
  unfold in_band. simpl.
  destruct (Z.leb_spec (Z.of_nat j - Z.of_nat i) 0);
    destruct (Nat.ltb_spec i j); simpl; try lia; done.
Qed.

Lemma Head_masked_data hd x B T C blockSize headSize scores :
  head_ok blockSize headSize hd → shape3 x = (B, T, C) → T ≤ blockSize →
  Head_scores hd x = Ok scores →
  Head_masked hd x =
    Ok (Tensor3 (B, T, T)
          ((λ mat,
              zip_with (zip_with (λ (c : bool) s, if c then NegInf else s))
                (fmap (M:=list) (λ x, num_eqb x (Fin 0)) <$>
                   (cut (0, T) <$>
                      cut (0, T)
                        (data2 (bandPart (ones2 blockSize blockSize) (-1) 0))))
                mat) <$> data3 scores)).
Proof.
  intros Hhd Hx HT Hscores.
  destruct (Head_scores_shape hd x B T C _ _ Hhd Hx) as (att & Hatt & Hshape).
  rewrite Hscores in Hatt. injection Hatt as <-.
  pose proof (Head_scores_wf _ _ _ Hscores) as [Hlen _].
  rewrite Hshape in Hlen. simpl in Hlen.
  destruct Hhd as (_ & _ & _ & _ & Htril).
  unfold Head_masked. rewrite Hscores, Hx. simpl.
  rewrite (slice2_square _ blockSize) by (by rewrite ?Htril). simpl.
  unfold where3_then_scalar, binop3, lift3. simpl. rewrite Hshape. simpl.
  rewrite bdim_one, !bdim_same, !bzip_same, bzip_one_l by done.
  by rewrite Htril.
Qed.

(** C3. In [Head.apply] on an input of time length [T] (at most
    [blockSize]) the attention scores at the positions [(i, j)] with [j > i]
    are replaced by -Infinity before the softmax, the others are left as
    they are; after the softmax of finite scores the weight of every such
    position is 0: no position attends to a later one. *)
Theorem Head_causal (hd : HeadLayer) (x : tensor3 num)
    (B T C blockSize headSize : nat) :
  head_ok blockSize headSize hd → shape3 x = (B, T, C) → T ≤ blockSize →
  ∃ scores masked weights,
    Head_scores hd x = Ok scores ∧
    Head_masked hd x = Ok masked ∧
    Head_weights hd x = Ok weights ∧
    weights = softmax3 masked ∧
    shape3 masked = (B, T, T) ∧
    ∀ b i j, b < B → i < T → j < T →
      ∃ s,
        entry3 scores b i j = Some s ∧
        entry3 masked b i j = Some (if i <? j then NegInf else s) ∧
        (i < j → Forall (Forall (Forall is_fin)) (data3 scores) →
         ∃ pr, entry3 weights b i j = Some (Fin pr) ∧ (pr == 0)%Q).
Proof.
  intros Hhd Hx HT.
  destruct (Head_scores_shape hd x B T C _ _ Hhd Hx)
    as (scores & Hscores & Hshape).
  pose proof (Head_masked_data _ _ _ _ _ _ _ _ Hhd Hx HT Hscores) as Hmasked.
  pose proof (Head_scores_wf _ _ _ Hscores) as [Hlen Hmats].
  rewrite Hshape in Hlen, Hmats. simpl in Hlen, Hmats.
  eexists scores, _, _. split_and!; [done|exact Hmasked| |done|done|].
  { unfold Head_weights. by rewrite Hmasked. }
  intros b i j Hb Hi Hj. unfold entry3. simpl.
  destruct (lookup_lt_is_Some_2 (data3 scores) b) as [mat Hmat]; [lia|].
  rewrite Forall_forall in Hmats.
  destruct (Hmats mat) as [Hrows Hcols]; [by eapply list_elem_of_lookup_2|].
  destruct (lookup_lt_is_Some_2 mat i) as [row Hrow]; [lia|].
  rewrite Forall_forall in Hcols.
  pose proof (Hcols row (list_elem_of_lookup_2 _ _ _ Hrow)) as Hrowlen.
  destruct (lookup_lt_is_Some_2 row j) as [s Hs]; [lia|].
  destruct (lookup_lt_is_Some_2 row i) as [si Hsi]; [lia|].
  exists s. rewrite !list_lookup_fmap, Hmat. simpl. rewrite Hrow. simpl.
  pose proof (tril_mask_lookup blockSize T i j HT Hi Hj) as Hcj.
  pose proof (tril_mask_lookup blockSize T i i HT Hi Hi) as Hci.
  set (cond := fmap (M:=list) (λ x, num_eqb x (Fin 0)) <$> _) in *.
  destruct (cond !! i) as [crow|] eqn:Hcrow; [|done]. simpl in Hcj, Hci.
  rewrite Nat.ltb_irrefl in Hci.
  rewrite list_lookup_fmap, lookup_zip_with, Hcrow, Hrow. simpl.
  rewrite lookup_zip_with, Hcj, Hs. simpl.
  split_and!; [done|done|]. intros Hij Hfin.
  assert (Forall is_fin row) as Hrowfin.
  { rewrite Forall_forall in Hfin.
    specialize (Hfin mat (list_elem_of_lookup_2 _ _ _ Hmat)).
    rewrite Forall_forall in Hfin.
    exact (Hfin row (list_elem_of_lookup_2 _ _ _ Hrow)). }
  apply softmax_row_masked.
  - apply Forall_forall. intros y (c & s' & -> & _ & Hs')%elem_of_zip_with.
    rewrite Forall_forall in Hrowfin. destruct c; auto.
  - apply Exists_exists. exists si. split.
    + eapply list_elem_of_lookup_2 with i.
      by rewrite lookup_zip_with, Hci, Hsi.
    + rewrite Forall_forall in Hrowfin.
      exact (Hrowfin si (list_elem_of_lookup_2 _ _ _ Hsi)).
  - rewrite lookup_zip_with, Hcj, Hs. simpl.
    by destruct (Nat.ltb_spec i j); [|lia].
Qed.

(** ** Construction and the head size *)

Lemma ctor_bind_step {A B} (c : ctor A) (f : A → ctor B) log log1 a :
  c log = (log1, Ok a) → (c ≫= f) log = f a log1.
Proof. intros Hc. unfold mbind, ctor_bind. by rewrite Hc. Qed.

Lemma ctor_bind_Err {A B} (c : ctor A) (f : A → ctor B) log log1 e :
  c log = (log1, Err e) → (c ≫= f) log = (log1, Err e).
Proof. intros Hc. unfold mbind, ctor_bind. by rewrite Hc. Qed.

Lemma ctor_bind_Ok_ex {A B} (c : ctor A) (f : A → ctor B) log :
  (∃ log1 a, c log = (log1, Ok a) ∧ ∃ log' b, f a log1 = (log', Ok b)) →
  ∃ log' b, (c ≫= f) log = (log', Ok b).
Proof.
  intros (log1 & a & Hc & log' & b & Hf). exists log', b.
  by rewrite (ctor_bind_step _ _ _ _ _ Hc).
Qed.

Lemma tf_layers_embedding_run a log :
  tf_layers_embedding a log = (log ++ [L_embedding a], Ok a).
Proof. done. Qed.
Lemma tf_layers_dense_run a log :
  tf_layers_dense a log = (log ++ [L_dense a], Ok a).
Proof. done. Qed.
Lemma tf_layers_dropout_run a log :
  tf_layers_dropout a log = (log ++ [L_dropout a], Ok a).
Proof. done. Qed.
Lemma tf_layers_layerNormalization_run a log :
  tf_layers_layerNormalization a log = (log ++ [L_layerNormalization a], Ok a).
Proof. done. Qed.
Lemma tf_layers_add_run a log :
  tf_layers_add a log = (log ++ [L_add a], Ok a).
Proof. done. Qed.

Ltac ctor_run :=
  repeat first
    [ rewrite (ctor_bind_step _ _ _ _ _ (tf_layers_embedding_run _ _))
    | rewrite (ctor_bind_step _ _ _ _ _ (tf_layers_dense_run _ _))
    | rewrite (ctor_bind_step _ _ _ _ _ (tf_layers_dropout_run _ _))
    | rewrite (ctor_bind_step _ _ _ _ _ (tf_layers_layerNormalization_run _ _))
    | rewrite (ctor_bind_step _ _ _ _ _ (tf_layers_add_run _ _)) ].

Lemma mapM_ctor_Ok {A B} (f : A → ctor B) (l : list A) log :
  (∀ a log, ∃ log' x, f a log = (log', Ok x)) →
  ∃ log' xs, mapM f l log = (log', Ok xs).
Proof.
  intros Hf. revert log. induction l as [|a l IH]; intros log.
  - by exists log, [].
  - destruct (Hf a log) as (log1 & x & Hx).
    destruct (IH log1) as (log2 & xs & Hxs).
    exists log2, (x :: xs).
    change (mapM f (a :: l)) with (y ← f a; k ← mapM f l; mret (y :: k)).
    rewrite (ctor_bind_step _ _ _ _ _ Hx).
    by rewrite (ctor_bind_step _ _ _ _ _ Hxs).
Qed.

Lemma Head_Ok nEmbd headSize blockSize attnDropout name log :
  ∃ log' hd, Head nEmbd headSize blockSize attnDropout name log = (log', Ok hd).
Proof. unfold Head. ctor_run. by eexists _, _. Qed.

Lemma CausalSelfAttention_throws nEmbd blockSize nHead attnDropout
    residDropout name log :
  js_rem nEmbd nHead ≠ Some 0 →
  CausalSelfAttention nEmbd blockSize nHead attnDropout residDropout name log
    = (log, Err (Error "Cannot calculate head size: nEmbd % nHead !== 0")).
Proof. intros Hrem. unfold CausalSelfAttention. by case_decide. Qed.

Lemma CausalSelfAttention_Ok nEmbd blockSize nHead attnDropout residDropout
    name log :
  js_rem nEmbd nHead = Some 0 →
  ∃ log' a, CausalSelfAttention nEmbd blockSize nHead attnDropout
              residDropout name log = (log', Ok a).
Proof.
  intros Hrem. unfold CausalSelfAttention. case_decide; [done|].
  apply ctor_bind_Ok_ex.
  edestruct (mapM_ctor_Ok
    (λ i, Head nEmbd (nEmbd / nHead) blockSize attnDropout
            (name +:+ "-head" +:+ dec i)) (seq 0 nHead))
    as (log1 & heads & Hheads); [intros; apply Head_Ok|].
  exists log1, heads. split; [exact Hheads|].
  ctor_run. by eexists _, _.
Qed.

Lemma FeedForward_Ok nEmbd residDropout name log :
  ∃ log' f, FeedForward nEmbd residDropout name log = (log', Ok f).
Proof. unfold FeedForward. ctor_run. by eexists _, _. Qed.

Lemma Block_Ok nEmbd nHead blockSize residDropout attnDropout nLayer name log :
  js_rem nEmbd nHead = Some 0 →
  ∃ log' b, Block nEmbd nHead blockSize residDropout attnDropout nLayer name
              log = (log', Ok b).
Proof.
  intros Hrem. unfold Block. ctor_run.
  apply ctor_bind_Ok_ex.
  edestruct (CausalSelfAttention_Ok nEmbd blockSize nHead attnDropout
               residDropout (name +:+ "-attn")) as (log1 & a & Ha); [done|].
  exists log1, a. split; [exact Ha|]. ctor_run.
  apply ctor_bind_Ok_ex.
  edestruct (FeedForward_Ok nEmbd residDropout (name +:+ "-mlp"))
    as (log2 & f & Hf).
  exists log2, f. split; [exact Hf|]. by eexists _, _.
Qed.

Lemma GPT_Ok p log :
  js_rem (nEmbd p) (nHead p) = Some 0 ∨ nLayer p = 0 →
  ∃ log' m, GPT p log = (log', Ok m).
Proof.
  intros Hp. unfold GPT.
  set (f := λ i, Block _ _ _ _ _ _ _).
  assert (∀ log, ∃ log' bs, Array_from (nLayer p) f log = (log', Ok bs))
    as Hblocks.
  { intros log0. destruct Hp as [Hrem| ->].
    - apply mapM_ctor_Ok. intros i log1. unfold f. apply Block_Ok. exact Hrem.
    - exists log0, []. reflexivity. }
  ctor_run. apply ctor_bind_Ok_ex.
  edestruct Hblocks as (log1 & bs & Hbs).
  exists log1, bs. split; [exact Hbs|]. ctor_run. by eexists _, _.
Qed.

(** C10 (amended). The attention module throws
    [Cannot calculate head size: nEmbd % nHead !== 0] before it creates any
    layer when [nEmbd] is not divisible by [nHead] ([nHead = 0] included).
    Constructing a model with such sizes throws this error when the model
    has at least one layer and the two embeddings can be created ([nEmbd]
    and [blockSize] are positive; the library refuses a layer of size 0);
    the layers created by then are [wte], [wpe], [drop], [add] and the first
    block's [ln1], none of them a layer of the attention module.  When
    [nEmbd] is divisible by [nHead], or the model has no layer, and the
    sizes handed to the layers of the library are positive ([nEmbd],
    [blockSize] and [vocabSize]), construction succeeds and every block has
    [nHead] heads, each of size [nEmbd / nHead]. *)
Theorem GPT_head_size (p : ModelParams) (log : list tf_layer) :
  (∀ blockSize attnDropout residDropout name log0,
     js_rem (nEmbd p) (nHead p) ≠ Some 0 →
     CausalSelfAttention (nEmbd p) blockSize (nHead p) attnDropout residDropout
       name log0
     = (log0, Err (Error "Cannot calculate head size: nEmbd % nHead !== 0")))
  ∧
  (js_rem (nEmbd p) (nHead p) ≠ Some 0 → 1 ≤ nLayer p →
   1 ≤ nEmbd p → 1 ≤ blockSize p →
   ∃ log',
     GPT p log
     = (log', Err (Error "Cannot calculate head size: nEmbd % nHead !== 0")) ∧
     layer_name <$> log' =
       (layer_name <$> log) ++ ["wte"; "wpe"; "drop"; "add"; "block1-ln1"])
  ∧
  (js_rem (nEmbd p) (nHead p) = Some 0 ∨ nLayer p = 0 →
   1 ≤ nEmbd p → 1 ≤ blockSize p → 1 ≤ vocabSize p →
   ∃ log' m,
     GPT p log = (log', Ok m) ∧
     length (h (transformer m)) = nLayer p ∧
     Forall (λ b,
       length (attn_heads (block_attn b)) = nHead p ∧
       Forall (λ hd,
         head_headSize hd = nEmbd p / nHead p ∧
         dense_units (head_key hd) = nEmbd p / nHead p ∧
         dense_units (head_query hd) = nEmbd p / nHead p ∧
         dense_units (head_value hd) = nEmbd p / nHead p)
         (attn_heads (block_attn b))) (h (transformer m))).
Proof.
  split_and!.
  - intros. by apply CausalSelfAttention_throws.
  - intros Hrem Hn _ _. unfold GPT, Array_from.
    destruct (nLayer p) as [|n]; [lia|]. ctor_run.
    change (seq 0 (S n)) with (0 :: seq 1 n).
    set (f := λ i, Block _ _ _ _ _ _ _).
    change (mapM f (0 :: seq 1 n))
      with (y ← f 0; k ← mapM f (seq 1 n); mret (y :: k)).
    eexists. split.
    + apply ctor_bind_Err, ctor_bind_Err. unfold f, Block. ctor_run.
      apply ctor_bind_Err. by apply CausalSelfAttention_throws.
    + rewrite !fmap_app. rewrite <- !app_assoc. done.
  - intros Hrem _ _ _. destruct (GPT_Ok p log) as (log' & m & Hm); [done|].
    exists log', m. split; [done|].
    apply GPT_ok in Hm as [<- (_ & _ & Hlen & Hblocks & _)].
    split; [done|]. eapply Forall_impl; [exact Hblocks|].
    intros b ((_ & _ & Hheads & Hall & _) & _). split; [done|].
    eapply Forall_impl; [exact Hall|]. by intros hd (? & ? & ? & ? & _).
Qed.

(** ** Tensors left registered by an iteration *)

(** Choose the disjunct that holds. *)
Ltac pick :=
  lazymatch goal with
  | |- _ ∨ _ => first [left; pick | right; pick]
  | |- _ ∧ _ => split; pick
  | |- _ =>
      first
        [ assumption
        | lia
        | intros ?; match goal with H : ¬ _ |- _ => apply H; lia end ]
  end.

(** C8 (amended). At the end of every iteration of [generate] the tensors
    handed to [dispose] ([idxShaped], [logits], the last [lastCharLogits],
    [probs], [sampled], [idxNextSliced], [idxNext] and the previous running
    sequence) are no longer registered and the new running sequence is.  The
    intermediate tensors that have no name of their own when [dispose] is
    called (the slice of [idx], the padding, the slice of the logits, the
    squeezed and the scaled logits when a later assignment replaces them,
    the scalars, the tensors of the top-k filter, the result of [argMax])
    stay registered: the registry after the iteration is the one before it,
    without the old running sequence, with the new one and with those. *)
Theorem generate_step_disposes (doSample : bool) (topK : option nat)
    (idx : nat) (r : registry) :
  registry_ok r → idx ∈ live r →
  let '(t, r') := mem_generate_step doSample topK idx r in
  (t_oldIdx t = idx ∧
   Forall (λ u, u ∉ live r')
     ([t_idxShaped t; t_logits t; t_lastCharLogits t; t_probs t; t_sampled t;
       t_idxNext t; t_oldIdx t] ++ option_list (t_idxNextSliced t))) ∧
  t_newIdx t ∈ live r' ∧
  Forall (λ u, next_id r ≤ u < next_id r' ∧ u ≠ t_newIdx t ∧ u ∈ live r')
    (unnamed topK t) ∧
  live r' =
    (live r ∖ {[ idx ]}) ∪ {[ t_newIdx t ]} ∪ list_to_set (unnamed topK t) ∧
  registry_ok r'.
Proof using Type.
  clear embedding_shape dense_shape dense_wf layerNormalization_shape
    dropout_shape multinomial_shape multinomial_wf exp_pos.
  intros Hok Hidx. unfold mem_generate_step, unnamed.
  destruct (truthy topK) as [k|]; destruct doSample;
    [destruct (String.eqb getBackend "webgpu")| |
     destruct (String.eqb getBackend "webgpu")|].
  all: cbv [mbind mem_bind mret mem_ret new_tensor tidy_apply dispose next_id
            live t_oldIdx t_idxShaped t_logits t_lastCharLogits t_probs
            t_sampled t_idxNext t_idxNextSliced t_newIdx t_kept t_pad t_row
            t_squeezed t_temperature t_scaled t_topk t_argMax omap list_omap
            option_list id app].
  all: destruct r as [n L]; cbv [registry_ok next_id live] in *.
  all: pose proof (Hok idx Hidx) as Hlt.
  all: refine (conj (conj eq_refl _) (conj _ (conj _ (conj _ _)))).
  all: repeat apply Forall_cons_2; try apply Forall_nil_2.
  all: try (apply set_eq; intros u).
  all: try intros u.
  all: set_unfold.
  all: repeat match goal with
         | H : _ ∧ _ |- _ => destruct H
         | |- _ ↔ _ => split; intros
         | |- _ ∧ _ => split
         | |- ¬ _ => intros ?
         | |- ∀ _, _ => intros ?
         end.
  all: try lia.
  all: try (exfalso; match goal with H : ¬ _ |- _ => apply H; lia end).
  all: repeat match goal with
         | H : _ ∨ _ |- _ => destruct H as [H|H]
         | H : _ ∧ _ |- _ => destruct H
         | H : False |- _ => destruct H
         end.
  all: subst.
  all: try match goal with H : ?u ∈ _ |- _ => pose proof (Hok u H) end.
  all: try lia.
  all: try (exfalso; match goal with H : ¬ _ |- _ => apply H; lia end).
  all: pick.
Qed.

(** ** Softmax as a probability distribution *)

Lemma Qsum_scale (es : list Q) (s : Q) :
  ¬ (s == 0)%Q → (Qsum ((λ e, e / s) <$> es) == Qsum es / s)%Q.
Proof.
  intros Hs. induction es as [|e es IH]; simpl.
  - field. exact Hs.
  - rewrite IH. field. exact Hs.
Qed.

Lemma sum_Fin (es : list Q) : foldr num_add (Fin 0) (Fin <$> es) = Fin (Qsum es).
Proof.
  induction es as [|e es IH]; [done|].
  rewrite fmap_cons. cbn [foldr]. by rewrite IH.
Qed.

Lemma Qsum_nonneg (es : list Q) :
  Forall (λ e, (0 <= e)%Q) es → (0 <= Qsum es)%Q.
Proof. induction 1; simpl; lra. Qed.

Lemma Qsum_pos (es : list Q) :
  Forall (λ e, (0 <= e)%Q) es → Exists (λ e, (0 < e)%Q) es → (0 < Qsum es)%Q.
Proof.
  intros Hnn Hex. induction Hex as [e es He|e es _ IH].
  - apply Forall_cons in Hnn as [_ Hnn%Qsum_nonneg]. simpl. lra.
  - apply Forall_cons in Hnn as [He Hnn]. specialize (IH Hnn). simpl. lra.
Qed.

(** The softmax of a row whose entries are finite or -Infinity, one of them
    finite, is a distribution; an entry has weight 0 exactly when it is
    -Infinity. *)
Lemma softmax_row_distribution (l : list num) :
  Forall (λ x, x = NegInf ∨ is_fin x) l → Exists (λ x, is_fin x) l →
  distribution (softmax_row l) ∧
  ∀ j x, l !! j = Some x →
    ∃ pr, softmax_row l !! j = Some (Fin pr) ∧
      (is_fin x → (0 < pr)%Q) ∧ (x = NegInf → (pr == 0)%Q).
Proof.
  intros Hall Hex. unfold softmax_row.
  destruct (max_masked_fin l Hall Hex) as [mm ->].
  set (w := λ x, match x with Fin a => exp (a + - mm) | _ => 0%Q end).
  assert ((λ x, num_exp (num_sub x (Fin mm))) <$> l = Fin <$> (w <$> l)) as ->.
  { rewrite <- list_fmap_compose. apply Forall_fmap_ext.
    eapply Forall_impl; [exact Hall|]. intros x [->|Hx]; [done|].
    by destruct x. }
  rewrite sum_Fin.
  assert (Forall (λ e, (0 <= e)%Q) (w <$> l)) as Hnn.
  { apply Forall_fmap, Forall_true. intros x. unfold w.
    destruct x; simpl; try lra. apply Qlt_le_weak, exp_pos. }
  assert (0 < Qsum (w <$> l))%Q as Hpos.
  { apply Qsum_pos; [done|]. apply Exists_fmap.
    eapply Exists_impl; [exact Hex|]. intros x Hx.
    destruct x as [| | |a]; try done. apply exp_pos. }
  remember (Qsum (w <$> l)) as s eqn:Hs.
  assert (Qeq_bool s 0 = false) as Hs0.
  { apply not_true_iff_false. intros E%Qeq_bool_eq. lra. }
  assert ((λ x, num_div x (Fin s)) <$> (Fin <$> (w <$> l))
          = Fin <$> ((λ e, e / s)%Q <$> (w <$> l))) as ->.
  { rewrite <- !list_fmap_compose. apply list_fmap_ext. intros _ x _. simpl.
    by rewrite Hs0. }
  split.
  - eexists. split; [done|]. split.
    + apply Forall_fmap. eapply Forall_impl; [exact Hnn|]. intros e He. simpl in *.
      apply Qle_shift_div_l; lra.
    + rewrite Qsum_scale by lra. rewrite <- Hs. field. lra.
  - intros j x Hj. rewrite !list_lookup_fmap, Hj. simpl.
    eexists. split; [done|]. split.
    + intros Hx. destruct x as [| | |a]; try done. simpl.
      apply Qlt_shift_div_l; [done|]. pose proof (exp_pos (a + - mm)). lra.
    + intros ->. simpl. field. lra.
Qed.

(** ** The row of the logits an iteration reads *)

Lemma lastCharLogits_data blockSize i logits last :
  wf3 logits → lastCharLogits blockSize i logits = Ok last →
  1 ≤ blockSize ∧ i `min` (blockSize - 1) < (shape3 logits).1.2 ∧
  shape2 last = ((shape3 logits).1.1, (shape3 logits).2) ∧
  data2 last =
    (λ mat, default [] (mat !! (i `min` (blockSize - 1)))) <$> data3 logits.
Proof.
  intros [Hlen Hmats] Hlast. unfold lastCharLogits in Hlast.
  apply bind_Ok in Hlast as (row & Hrow & Hsq).
  unfold slice3 in Hrow. simpl in Hrow. rewrite !slice_axis_rest in Hrow.
  simpl in Hrow. apply bind_Ok in Hrow as ([o n] & Hax & [= <-]).
  unfold squeeze1 in Hsq. simpl in Hsq.
  destruct (Nat.eqb_spec n 1) as [->|]; [|done]. injection Hsq as <-.
  assert (1 ≤ blockSize ∧ o = i `min` (blockSize - 1)) as [Hbs ->].
  { destruct (slice_axis_Ok_inv _ _ _ _ _ Hax) as [-> _]; [done|].
    unfold slice_axis in Hax.
    destruct (Nat.ltb_spec i blockSize); [lia|].
    destruct (Z.ltb_spec (Z.of_nat blockSize - 1) 0); [done|lia]. }
  apply slice_axis_bound in Hax. simpl.
  split_and!; [done|lia|done|].
  rewrite cut_all by done. rewrite <- !list_fmap_compose.
  apply Forall_fmap_ext. eapply Forall_impl; [exact Hmats|].
  intros mat [Hmat Hrows]. simpl.
  destruct (lookup_lt_is_Some_2 mat (i `min` (blockSize - 1))) as [r Hr];
    [lia|].
  rewrite Hr. simpl. unfold cut at 2. simpl.
  rewrite (drop_S _ _ _ Hr). simpl. rewrite app_nil_r. apply cut_all.
  rewrite Forall_forall in Hrows. apply Hrows.
  by eapply list_elem_of_lookup_2.
Qed.

(** The shapes of the logits of an iteration on a model built by [GPT]. *)
Lemma generate_step_logits m temperature doSample topK i idx g it g1 :
  model_ok m →
  generate_step m temperature doSample topK i idx g = Ok (it, g1) →
  wf3 (it_logits it) ∧
  shape3 (it_logits it)
    = ((shape2 idx).1, blockSize (params m), vocabSize (params m)) ∧
  wf2 (it_lastCharLogits it) ∧
  shape2 (it_lastCharLogits it) = ((shape2 idx).1, vocabSize (params m)).
Proof.
  intros Hok Hit.
  pose proof (generate_step_wf _ _ _ _ _ _ _ _ _ Hit) as (Hwfl & _).
  apply generate_step_inv in Hit
    as (_ & _ & Hshaped & Hlogits & Hlast & _).
  destruct (idxShaped_shape (blockSize (params m)) idx)
    as (shaped & Hshaped' & Hshape & _).
  rewrite Hshaped in Hshaped'. injection Hshaped' as <-.
  destruct (GPT_apply_shape m _ _ Hok Hshape) as (logits & Hl & Hwf & Hs).
  rewrite Hlogits in Hl. injection Hl as <-.
  apply lastCharLogits_data in Hlast as (_ & _ & Hsl & _); [|done].
  rewrite Hs in Hsl. by split_and!.
Qed.

(** ** Temperature 0 *)

Lemma num_div_zero (x : num) (t : Q) :
  (t == 0)%Q → is_fin (num_div x (Fin t)) = false.
Proof.
  intros Ht. destruct x as [| | |a]; simpl; try done.
  - by destruct (Qle_bool 0 t).
  - by destruct (Qle_bool 0 t).
  - rewrite (proj2 (Qeq_bool_iff t 0) Ht). by destruct (a ?= 0)%Q.
Qed.

Lemma sum_NaN (e : list num) :
  Exists (λ y, y = NaN) e → foldr num_add (Fin 0) e = NaN.
Proof.
  induction 1 as [y e ->|y e _ IH]; simpl; [done|].
  rewrite IH. by destruct y.
Qed.

Lemma max_nonfinite (l : list num) :
  Forall (λ x, is_fin x = false) l →
  let mx := foldr num_max NegInf l in
  mx = NaN ∨ (mx = PosInf ∧ PosInf ∈ l) ∨ (mx = NegInf ∧ Forall (λ x, x = NegInf) l).
Proof.
  induction 1 as [|x l Hx _ IH]; simpl in *.
  { right. right. by split. }
  destruct x as [| | |a]; try done.
  - by left.
  - destruct IH as [->|[[-> Hin]|[-> Hall]]].
    + by left.
    + right. left. split; [done|by right].
    + right. right. split; [done|by constructor].
  - destruct IH as [->|[[-> Hin]|[-> Hall]]].
    + by left.
    + right. left. split; [done|left].
    + right. left. split; [done|left].
Qed.

(** The softmax of a row without a finite entry is NaN throughout. *)
Lemma softmax_row_nonfinite (l : list num) :
  Forall (λ x, is_fin x = false) l → Forall (λ y, y = NaN) (softmax_row l).
Proof.
  intros Hall. destruct (decide (l = [])) as [->|Hne]; [constructor|].
  unfold softmax_row. pose proof (max_nonfinite l Hall) as Hmx. simpl in Hmx.
  remember (foldr num_max NegInf l) as mx eqn:Emx. clear Emx.
  rewrite sum_NaN.
  { apply Forall_fmap, Forall_fmap, Forall_true. intros x. simpl.
    by destruct (num_exp _). }
  apply Exists_fmap. destruct Hmx as [->|[[-> Hin]|[-> Hneg]]].
  - destruct l as [|x l]; [done|]. left. by destruct x.
  - apply Exists_exists. by exists PosInf.
  - destruct l as [|x l]; [done|]. apply Forall_cons in Hneg as [-> _].
    by left.
Qed.

(** X4. A run of [generate] with temperature 0 has [maxNewTokens]
    iterations, and at every one of them the division of the logits leaves
    no finite entry and the softmax is NaN in every entry, with or without
    the top-k filter. *)
Theorem generate_temperature_zero (m : Model) (p : GenerateParams) (g : rng)
    (out : tensor2 Z) (trace : list Iteration) (g' : rng) (t : Q) :
  temperature p = Some (Fin t) → (t == 0)%Q →
  generate_trace m p g = Ok (out, trace, g') →
  length trace = maxNewTokens p ∧
  Forall (λ it,
    Forall (Forall (λ x, is_fin x = false)) (data2 (it_scaled it)) ∧
    Forall (Forall (λ pr, pr = NaN)) (data2 (it_probs it))) trace.
Proof.
  intros Htemp Ht [Hlen Hsteps]%generate_trace_steps.
  split; [exact Hlen|].
  rewrite Htemp in Hsteps. simpl in Hsteps.
  eapply steps_Forall; [|exact Hsteps].
  intros i idx0 g0 it g1 Hit.
  pose proof (generate_step_wf _ _ _ _ _ _ _ _ _ Hit) as (_ & Hwfs & _).
  apply generate_step_inv in Hit
    as (_ & _ & _ & _ & _ & Hscaled & Hfiltered & -> & _).
  assert (Forall (Forall (λ x, is_fin x = false)) (data2 (it_scaled it)))
    as Hs.
  { rewrite Hscaled. simpl. apply Forall_fmap, Forall_true. intros row.
    apply Forall_fmap, Forall_true. intros x. by apply num_div_zero. }
  split; [done|]. simpl. apply Forall_fmap.
  assert (Forall (Forall (λ x, is_fin x = false)) (data2 (it_filtered it)))
    as Hf.
  { destruct (truthy (topK p)) as [k|].
    - apply topK_filter_data in Hfiltered as (_ & _ & _ & Hrel); [|done].
      apply Forall_forall. intros frow Hfrow.
      apply list_elem_of_lookup_1 in Hfrow as [b Hb].
      destruct (Forall2_lookup_r _ _ _ _ _ Hrel Hb)
        as (row & Hrow & kth & Hkth & ->).
      apply list_elem_of_lookup_2 in Hrow. rewrite Forall_forall in Hs.
      apply Forall_fmap. eapply Forall_impl; [exact (Hs _ Hrow)|].
      intros x Hx. simpl. by destruct (num_ge x kth).
    - by injection Hfiltered as <-. }
  eapply Forall_impl; [exact Hf|]. intros row Hrow.
  by apply softmax_row_nonfinite.
Qed.

(** ** A top-k filter that covers the vocabulary *)

Lemma filter_length_all {A} (P : A → Prop) `{∀ x, Decision (P x)} (l : list A) :
  length l ≤ length (filter P l) → Forall P l.
Proof.
  induction l as [|x l IH]; [constructor|].
  pose proof (length_filter P l) as Hle.
  rewrite filter_cons. destruct (decide (P x)) as [HP|HP]; simpl.
  - intros Hlen. constructor; [done|]. apply IH. lia.
  - lia.
Qed.

Lemma Forall2_eq_from {A} (P : A → A → Prop) (Q : A → Prop) (l k : list A) :
  Forall2 P l k → Forall Q l → (∀ x y, Q x → P x y → y = x) → k = l.
Proof.
  intros HP HQ Heq. induction HP as [|x y l k Hxy _ IH]; [done|].
  apply Forall_cons in HQ as [Hx HQ]. f_equal; auto.
Qed.

(** X5. The top-k filter does nothing when [topK] is 0 or missing, and
    nothing either when [topK] is at least [vocabSize] and the scaled logits
    hold no NaN: the logits that enter the softmax are the scaled logits. *)
Theorem generate_topK_whole_vocabulary (m : Model) (p : GenerateParams)
    (g : rng) (out : tensor2 Z) (trace : list Iteration) (g' : rng) :
  model_ok m →
  generate_trace m p g = Ok (out, trace, g') →
  Forall (λ it,
    ((topK p = None ∨ topK p = Some 0) → it_filtered it = it_scaled it) ∧
    (∀ k, topK p = Some k → vocabSize (params m) ≤ k →
       Forall (Forall (λ x, x ≠ NaN)) (data2 (it_scaled it)) →
       it_filtered it = it_scaled it)) trace.
Proof.
  intros Hok [_ Hsteps]%generate_trace_steps.
  eapply steps_Forall; [|exact Hsteps].
  intros i idx0 g0 it g1 Hit.
  destruct (generate_step_logits _ _ _ _ _ _ _ _ _ Hok Hit)
    as (_ & _ & _ & Hshape).
  pose proof (generate_step_wf _ _ _ _ _ _ _ _ _ Hit) as (_ & Hwfs & _).
  apply generate_step_inv in Hit
    as (_ & _ & _ & _ & _ & Hscaled & Hfiltered & _).
  split.
  { intros [Hk|Hk]; rewrite Hk in Hfiltered; simpl in Hfiltered; congruence. }
  intros k Hk HV Hnan. rewrite Hk in Hfiltered.
  destruct k as [|k]; simpl in Hfiltered; [congruence|].
  apply topK_filter_data in Hfiltered as (Hk1 & _ & Hsh & Hrel); [|done].
  assert (shape2 (it_scaled it) = ((shape2 idx0).1, vocabSize (params m)))
    as Hshs by (by rewrite Hscaled).
  assert (data2 (it_filtered it) = data2 (it_scaled it)) as Hdata.
  { eapply (Forall2_eq_from _
              (λ row, length row = vocabSize (params m) ∧
                      Forall (λ x, x ≠ NaN) row)); [exact Hrel| |].
    - destruct Hwfs as [_ Hrows]. rewrite Hshs in Hrows. simpl in Hrows.
      rewrite Forall_forall in Hrows, Hnan. apply Forall_forall.
      intros row Hrow. split; auto.
    - intros row frow [Hlen Hrnan] (kth & Hkth & ->).
      rewrite Nat.min_r in Hkth, Hk1 by done.
      destruct (kth_largest_spec _ _ _ Hk1 Hkth) as (Hin & Hge & _).
      rewrite <- Hlen in Hge. apply filter_length_all in Hge.
      rewrite Forall_forall in Hrnan. specialize (Hrnan _ Hin).
      rewrite <- (list_fmap_id row) at 2. apply Forall_fmap_ext.
      eapply Forall_impl; [exact Hge|]. intros x Hx. simpl.
      rewrite num_ge_rank by done. unfold num_desc in Hx.
      by apply Is_true_true in Hx as ->. }
  destruct (it_filtered it), (it_scaled it). simpl in *. congruence.
Qed.


(** ** Greedy decoding *)

Lemma num_gt_irrefl (x : num) : num_gt x x = false.
Proof.
  destruct x as [| | |a]; try done. simpl.
  apply negb_false_iff, Qle_bool_iff. lra.
Qed.

Lemma num_gt_trans (x y z : num) :
  num_gt x y = true → num_gt y z = true → num_gt x z = true.
Proof.
  destruct x as [| | |a], y as [| | |b], z as [| | |c]; simpl; try done.
  rewrite !negb_true_iff, <- !not_true_iff_false, !Qle_bool_iff. lra.
Qed.

(** The scan for the largest entry: the position returned holds an entry
    that no entry of the row exceeds. *)
Lemma argmax_from_spec (pre l : list num) (best : num) (besti : nat) :
  pre !! besti = Some best →
  Forall (λ y, num_gt y best = false) pre →
  ∃ top, (pre ++ l) !! argmax_from best besti (length pre) l = Some top ∧
         Forall (λ y, num_gt y top = false) (pre ++ l).
Proof.
  revert pre best besti. induction l as [|x l IH]; intros pre best besti Hb Hpre.
  - exists best. rewrite app_nil_r. by split.
  - simpl. replace (pre ++ x :: l) with ((pre ++ [x]) ++ l)
      by (by rewrite <- app_assoc).
    replace (S (length pre)) with (length (pre ++ [x]))
      by (rewrite length_app; simpl; lia).
    destruct (num_gt x best) eqn:Hx.
    + apply IH.
      * rewrite lookup_app_r by lia. by rewrite Nat.sub_diag.
      * apply Forall_app. split.
        -- eapply Forall_impl; [exact Hpre|]. intros y Hy. simpl in Hy.
           destruct (num_gt y x) eqn:Hyx; [|done].
           by rewrite (num_gt_trans _ _ _ Hyx Hx) in Hy.
        -- constructor; [apply num_gt_irrefl|constructor].
    + apply IH.
      * by apply lookup_app_l_Some.
      * apply Forall_app. split; [done|]. by repeat constructor.
Qed.

Lemma argmax_row_spec (row : list num) :
  row ≠ [] →
  ∃ top, row !! argmax_row row = Some top ∧
         Forall (λ y, num_gt y top = false) row.
Proof.
  destruct row as [|x l]; [done|]. intros _. unfold argmax_row.
  apply (argmax_from_spec [x] l x 0); [done|].
  constructor; [apply num_gt_irrefl|constructor].
Qed.

Lemma steps_rng_fixed m temperature doSample topK i idx g its out g' :
  (∀ i idx g it g1,
     generate_step m temperature doSample topK i idx g = Ok (it, g1) →
     g1 = g) →
  steps m temperature doSample topK i idx g its out g' → g' = g.
Proof.
  intros Hstep. induction 1 as [|???????? Hit _ IH]; [done|].
  apply Hstep in Hit. congruence.
Qed.

(** X6. Without [doSample], [generate] on a model built by [GPT] over at
    least one token is greedy and draws nothing: a run has [maxNewTokens]
    iterations, the state of the random
    generator is returned as it was, and at every iteration the token
    appended to a row is the position of an entry of that row of [probs]
    which no entry of the row exceeds; this token lies in
    [0 .. vocabSize - 1]. *)
Theorem generate_greedy (m : Model) (p : GenerateParams) (g : rng)
    (out : tensor2 Z) (trace : list Iteration) (g' : rng) :
  model_ok m → 1 ≤ vocabSize (params m) →
  doSample p ≠ Some true →
  generate_trace m p g = Ok (out, trace, g') →
  length trace = maxNewTokens p ∧
  g' = g ∧
  Forall (λ it,
    it_idxNext it = expandDims_last (argMax_last (it_probs it)) ∧
    Forall2 (λ row next, ∃ a top,
               next = [Z.of_nat a] ∧ a < vocabSize (params m) ∧
               row !! a = Some top ∧
               Forall (λ y, num_gt y top = false) row)
      (data2 (it_probs it)) (data2 (it_idxNext it))) trace.
Proof.
  intros Hok HV Hds [Hlen Hsteps]%generate_trace_steps.
  split; [exact Hlen|].
  assert (default false (doSample p) = false) as Hgreedy.
  { destruct (doSample p) as [[]|]; done. }
  rewrite Hgreedy in Hsteps. split.
  { eapply steps_rng_fixed; [|exact Hsteps].
    intros i idx0 g0 it g1 Hit.
    apply generate_step_inv in Hit as (_ & _ & _ & _ & _ & _ & _ & _ & Hn & _).
    unfold next_token in Hn. congruence. }
  eapply steps_Forall; [|exact Hsteps].
  intros i idx0 g0 it g1 Hit.
  destruct (generate_step_logits _ _ _ _ _ _ _ _ _ Hok Hit)
    as (_ & _ & _ & Hshape).
  pose proof (generate_step_wf _ _ _ _ _ _ _ _ _ Hit)
    as (_ & Hwfs & Hwff & [_ Hrows] & _).
  apply generate_step_inv in Hit
    as (_ & _ & _ & _ & _ & Hscaled & Hfiltered & Hprobs & Hn & _).
  unfold next_token in Hn. injection Hn as _ Hnext.
  split; [done|]. rewrite <- Hnext. simpl. rewrite <- list_fmap_compose.
  apply Forall2_fmap_r, Forall_Forall2_diag.
  assert ((shape2 (it_probs it)).2 = vocabSize (params m)) as Hcols.
  { rewrite Hprobs. simpl. destruct (truthy (topK p)) as [k|].
    - apply topK_filter_data in Hfiltered as (_ & _ & -> & _); [|done].
      rewrite Hscaled. simpl. by rewrite Hshape.
    - injection Hfiltered as <-. rewrite Hscaled. simpl. by rewrite Hshape. }
  rewrite Hcols in Hrows. eapply Forall_impl; [exact Hrows|].
  intros row Hrow. simpl in Hrow.
  destruct (argmax_row_spec row) as (top & Htop & Hmax).
  { destruct row; [simpl in Hrow; lia|done]. }
  exists (argmax_row row), top. split_and!; [done| |done|done].
  apply lookup_lt_Some in Htop. lia.
Qed.

(** ** The running sequence *)

Lemma next_token_cols doSample probs logits g sampled idxNext g' :
  next_token doSample probs logits g = Ok (sampled, idxNext, g') →
  (shape2 idxNext).2 = 1.
Proof.
  unfold next_token. destruct doSample.
  - destruct (String.eqb_spec getBackend "webgpu") as [_|_].
    + destruct (multinomial probs 2 true g) as [s g1].
      intros (sl & Hsl & [= _ <- _])%bind_Ok. unfold slice2 in Hsl.
      apply bind_Ok in Hsl as ([o1 n1] & _ & Hsl).
      apply bind_Ok in Hsl as ([o2 n2] & Hax & [= <-]). simpl in *.
      by apply slice_axis_Ok_inv in Hax as [_ ->].
    + destruct (String.eqb_spec getBackend "tensorflow") as [_|_].
      * pose proof (multinomial_shape logits 1 false g) as Hs.
        destruct (multinomial logits 1 false g) as [s g1]. simpl in Hs.
        intros [= _ <- _]. by rewrite Hs.
      * pose proof (multinomial_shape probs 1 true g) as Hs.
        destruct (multinomial probs 1 true g) as [s g1]. simpl in Hs.
        intros [= _ <- _]. by rewrite Hs.
  - by intros [= _ <- _].
Qed.

(** One iteration appends one token to every row of the running sequence
    and leaves the tokens that were there as they are. *)
Lemma generate_step_appends m temperature doSample topK i idx g it g1 :
  wf2 idx →
  generate_step m temperature doSample topK i idx g = Ok (it, g1) →
  wf2 (it_newIdx it) ∧
  shape2 (it_newIdx it) = ((shape2 idx).1, S (shape2 idx).2) ∧
  ∀ b row, data2 idx !! b = Some row →
    ∃ tok, data2 (it_idxNext it) !! b = Some [tok] ∧
           data2 (it_newIdx it) !! b = Some (row ++ [tok]).
Proof.
  intros Hwf Hit.
  pose proof (generate_step_wf _ _ _ _ _ _ _ _ _ Hit)
    as (_ & _ & _ & _ & [Hnlen Hnrows] & Hwfn).
  apply generate_step_inv in Hit
    as (_ & _ & _ & _ & _ & _ & _ & _ & Hnext & Hnew).
  apply next_token_cols in Hnext. rewrite Hnext in Hnrows.
  unfold concat2 in Hnew.
  destruct (Nat.eqb_spec (shape2 idx).1 (shape2 (it_idxNext it)).1)
    as [HB|]; [|done].
  injection Hnew as Hnew. split; [auto|]. rewrite <- Hnew. simpl.
  split; [by rewrite Hnext, Nat.add_1_r|].
  intros b row Hrow. destruct Hwf as [Hlen _].
  destruct (lookup_lt_is_Some_2 (data2 (it_idxNext it)) b) as [r Hr].
  { apply lookup_lt_Some in Hrow. lia. }
  rewrite Forall_forall in Hnrows.
  pose proof (Hnrows r (list_elem_of_lookup_2 _ _ _ Hr)) as Hr1.
  destruct r as [|tok [|]]; try done.
  exists tok. split; [done|]. by rewrite lookup_zip_with, Hrow, Hr.
Qed.

(** The iteration of a run at position [j]: it starts from a running
    sequence that is [j] tokens longer than the first one. *)
Lemma steps_lookup m temperature doSample topK i idx g its out g' j it :
  wf2 idx →
  steps m temperature doSample topK i idx g its out g' →
  its !! j = Some it →
  ∃ g0 g1,
    generate_step m temperature doSample topK (i + j) (it_idx it) g0
      = Ok (it, g1) ∧
    wf2 (it_idx it) ∧
    shape2 (it_idx it) = ((shape2 idx).1, (shape2 idx).2 + j).
Proof.
  intros Hwf Hsteps. revert j.
  induction Hsteps as [|i sq g it0 g1 its out g' Hit _ IH]; intros j Hj;
    [done|].
  pose proof (generate_step_inv _ _ _ _ _ _ _ _ _ Hit) as (_ & Hidx & _).
  destruct (generate_step_appends _ _ _ _ _ _ _ _ _ Hwf Hit)
    as (Hwfn & Hshape & _).
  destruct j as [|j]; simpl in Hj.
  - injection Hj as <-. exists g, g1. rewrite Hidx, !Nat.add_0_r.
    split_and!; [done|done|by destruct (shape2 sq)].
  - destruct (IH Hwfn _ Hj) as (g0 & g2 & Hstep & Hwfj & Hsj).
    exists g0, g2. rewrite Hshape in Hsj. simpl in Hsj.
    replace (i + S j) with (S i + j) by lia.
    split_and!; [done|done|]. rewrite Hsj. f_equal. lia.
Qed.

Lemma steps_appends m temperature doSample topK i idx g its out g' :
  wf2 idx →
  steps m temperature doSample topK i idx g its out g' →
  wf2 out ∧
  shape2 out = ((shape2 idx).1, (shape2 idx).2 + length its) ∧
  ∀ b row, data2 idx !! b = Some row →
    ∃ toks, data2 out !! b = Some (row ++ toks) ∧
      Forall2 (λ it tok, data2 (it_idxNext it) !! b = Some [tok]) its toks.
Proof.
  intros Hwf Hsteps.
  induction Hsteps as [i sq g|i sq g it g1 its out g' Hit _ IH].
  - split; [done|]. split; [rewrite Nat.add_0_r; by destruct (shape2 sq)|].
    intros b row Hrow. exists []. rewrite app_nil_r. by split.
  - destruct (generate_step_appends _ _ _ _ _ _ _ _ _ Hwf Hit)
      as (Hwfn & Hshape & Hrows).
    destruct (IH Hwfn) as (Hwfo & Hso & Hout). split; [done|].
    split.
    { rewrite Hso, Hshape. simpl. f_equal. lia. }
    intros b row Hrow. destruct (Hrows _ _ Hrow) as (tok & Htok & Hnew).
    destruct (Hout _ _ Hnew) as (toks & Ho & Hall).
    exists (tok :: toks). rewrite <- app_assoc in Ho. split; [done|].
    by constructor.
Qed.

(** X7. [generate] never changes the tokens it is given: in the result
    every row is the row of the prompt followed by [maxNewTokens] tokens,
    the tokens the iterations chose for that row, in order; the result has
    [maxNewTokens] columns more than the prompt and as many rows. *)
Theorem generate_appends (m : Model) (p : GenerateParams) (g : rng)
    (out : tensor2 Z) (trace : list Iteration) (g' : rng) :
  wf2 (idx p) →
  generate_trace m p g = Ok (out, trace, g') →
  wf2 out ∧
  shape2 out = ((shape2 (idx p)).1, (shape2 (idx p)).2 + maxNewTokens p) ∧
  ∀ b row, data2 (idx p) !! b = Some row →
    ∃ toks, data2 out !! b = Some (row ++ toks) ∧
      length toks = maxNewTokens p ∧
      Forall2 (λ it tok, data2 (it_idxNext it) !! b = Some [tok]) trace toks.
Proof.
  intros Hwf [Hlen Hsteps]%generate_trace_steps.
  destruct (steps_appends _ _ _ _ _ _ _ _ _ _ Hwf Hsteps)
    as (Hwfo & Hshape & Hrows).
  rewrite Hlen in Hshape. split_and!; [done..|].
  intros b row Hrow. destruct (Hrows _ _ Hrow) as (toks & Ho & Hall).
  exists toks. split_and!; [done| |done].
  apply Forall2_length in Hall. lia.
Qed.

(** X8. At iteration [j] the logits [generate] works on are those of row
    [min j (blockSize - 1)] of the model output, [j] being the loop counter;
    in the model input the last token of the running sequence sits at
    position [min T blockSize - 1], [T = T0 + j] being the length of the
    running sequence, and the positions after it are padding.  For a prompt
    of [T0 >= 1] tokens the row read is the row of the last token exactly
    when [T0 = 1] or [j >= blockSize - 1]. *)
Theorem generate_logits_row (m : Model) (p : GenerateParams) (g : rng)
    (out : tensor2 Z) (trace : list Iteration) (g' : rng) :
  wf2 (idx p) →
  generate_trace m p g = Ok (out, trace, g') →
  ∀ j it, trace !! j = Some it →
    let bs := blockSize (params m) in
    let T := (shape2 (idx p)).2 + j in
    let pos := j `min` (bs - 1) in
    (shape2 (it_idx it)).2 = T ∧
    data2 (it_lastCharLogits it) =
      (λ mat, default [] (mat !! pos)) <$> data3 (it_logits it) ∧
    (∀ b row w,
       data2 (it_idx it) !! b = Some row →
       data2 (it_idxShaped it) !! b = Some w →
       length w = bs ∧
       (1 ≤ T → w !! (T `min` bs - 1) = last row) ∧
       (∀ k, T `min` bs ≤ k < bs → w !! k = Some 0%Z)) ∧
    (1 ≤ (shape2 (idx p)).2 →
     pos = T `min` bs - 1 ↔ (shape2 (idx p)).2 = 1 ∨ bs - 1 ≤ j).
Proof.
  intros Hwf [_ Hsteps]%generate_trace_steps j it Hj.
  destruct (steps_lookup _ _ _ _ _ _ _ _ _ _ _ _ Hwf Hsteps Hj)
    as (g0 & g1 & Hit & Hwfj & Hsj).
  simpl in Hit.
  pose proof (generate_step_inv _ _ _ _ _ _ _ _ _ Hit)
    as (_ & _ & Hshaped & Hlogits & Hlast & _).
  apply lastCharLogits_data in Hlast as (Hbs & _ & _ & Hdata);
    [|by eapply GPT_apply_wf].
  pose proof (idxShaped_data _ _ _ Hwfj Hshaped) as Hw.
  rewrite Hsj in Hw. simpl in Hw |- *. rewrite Hsj. simpl.
  split_and!; [done|done| |lia].
  intros b row w Hrow Hb. rewrite Hw, list_lookup_fmap, Hrow in Hb.
  injection Hb as <-.
  assert (length row = (shape2 (idx p)).2 + j) as Hlen.
  { destruct Hwfj as [_ Hrows]. rewrite Hsj in Hrows.
    rewrite Forall_forall in Hrows.
    apply (Hrows row), (list_elem_of_lookup_2 _ _ _ Hrow). }
  set (T := (shape2 (idx p)).2 + j) in *.
  set (bs := blockSize (params m)) in *.
  split_and!.
  - rewrite length_app, length_drop, length_replicate. lia.
  - intros HT. rewrite last_lookup, lookup_app_l.
    + rewrite lookup_drop. f_equal. lia.
    + rewrite length_drop. lia.
  - intros k Hk. rewrite lookup_app_r by (rewrite length_drop; lia).
    apply lookup_replicate_2. rewrite length_drop. lia.
Qed.

(** ** The attention weights of a head *)

(** Row [i] of the mask cut out of [tril]. *)
Lemma tril_mask_row blockSize T i :
  T ≤ blockSize → i < T →
  (fmap (M:=list) (λ x, num_eqb x (Fin 0)) <$>
     (cut (0, T) <$>
        cut (0, T) (data2 (bandPart (ones2 blockSize blockSize) (-1) 0))))
    !! i = Some ((λ j, i <? j) <$> seq 0 T).
Proof.
  intros HT Hi.
  pose proof (λ j, tril_mask_lookup blockSize T i j HT Hi) as Hlook.
  destruct (_ !! i) as [crow|] eqn:Hcrow.
  2:{ specialize (Hlook 0). simpl in Hlook. by specialize (Hlook ltac:(lia)). }
  simpl in Hlook. f_equal.
  assert (length crow = T) as Hlen.
  { rewrite !list_lookup_fmap in Hcrow. unfold cut in Hcrow. simpl in Hcrow.
    rewrite drop_0, lookup_take_lt in Hcrow by done.
    rewrite list_lookup_imap, lookup_replicate_2 in Hcrow by lia.
    simpl in Hcrow. injection Hcrow as <-.
    rewrite length_fmap, drop_0, length_take, length_imap, length_replicate.
    lia. }
  apply (list_eq_same_length _ _ T); [by rewrite length_fmap, length_seq|done|].
  intros j c c' Hj Hc Hc'. rewrite Hlook in Hc by done.
  rewrite list_lookup_fmap, lookup_seq_lt in Hc' by done. simpl in Hc'.
  congruence.
Qed.

Lemma zip_with_mask_imap {A} (f : bool → A → A) (i : nat) (row : list A) :
  zip_with f ((λ j, i <? j) <$> seq 0 (length row)) row
  = imap (λ j s, f (i <? j) s) row.
Proof.
  apply list_eq. intros j. rewrite lookup_zip_with, list_lookup_imap.
  rewrite list_lookup_fmap.
  destruct (row !! j) as [s|] eqn:Hs; simpl.
  - rewrite lookup_seq_lt by (by eapply lookup_lt_Some). done.
  - by destruct (seq 0 (length row) !! j).
Qed.

(** On an input longer than [blockSize], cutting the mask out of [tril]
    throws. *)
Lemma Head_apply_too_long (hd : HeadLayer) (x : tensor3 num)
    (B T C blockSize headSize : nat) :
  head_ok blockSize headSize hd → shape3 x = (B, T, C) → blockSize < T →
  Head_apply hd x = Err (TfError "slice").
Proof.
  intros Hhd Hx HT.
  destruct (Head_scores_shape hd x B T C _ _ Hhd Hx)
    as (scores & Hscores & Hshape).
  destruct Hhd as (_ & _ & _ & _ & Htril).
  unfold Head_apply, Head_weights, Head_masked.
  rewrite Hscores, Hx, Htril. simpl.
  unfold slice2. simpl. unfold slice_axis. simpl.
  destruct (Z.eqb_spec (Z.of_nat T) (-1)); [lia|].
  destruct (Z.ltb_spec (Z.of_nat T) 0); [lia|]. simpl.
  by destruct (Z.ltb_spec (Z.of_nat blockSize) (0 + Z.of_nat T)); [|lia].
Qed.

(** X10. The layers of the model cannot look over more than [blockSize]
    positions: on an input longer than that, a head as built by [Head], and
    with it a block as built by [Block], throws when the mask is cut out of
    [tril]. *)
Theorem Block_apply_too_long (b : BlockLayer) (x : tensor3 num)
    (B T nEmbd blockSize nHead : nat) :
  block_ok nEmbd blockSize nHead b → shape3 x = (B, T, nEmbd) →
  blockSize < T →
  Forall (λ hd, ∀ y C, shape3 y = (B, T, C) →
                  Head_apply hd y = Err (TfError "slice"))
    (attn_heads (block_attn b)) ∧
  CausalSelfAttention_apply (block_attn b)
    (layerNormalization_apply (block_ln1 b) x) = Err (TfError "slice") ∧
  Block_apply b x = Err (TfError "slice").
Proof.
  intros ((Hn & _ & Hlen & Hheads & _) & _) Hx HT.
  assert (Forall (λ hd, ∀ y C, shape3 y = (B, T, C) →
                          Head_apply hd y = Err (TfError "slice"))
            (attn_heads (block_attn b))) as Hall.
  { eapply Forall_impl; [exact Hheads|]. intros hd Hhd y C Hy.
    by eapply Head_apply_too_long. }
  assert (CausalSelfAttention_apply (block_attn b)
            (layerNormalization_apply (block_ln1 b) x)
          = Err (TfError "slice")) as Hattn.
  { unfold CausalSelfAttention_apply.
    destruct (attn_heads (block_attn b)) as [|hd hds]; [simpl in Hlen; lia|].
    apply Forall_cons in Hall as [Hhd _].
    change (mapM ?f (hd :: hds)) with (y ← f hd; k ← mapM f hds; mret (y :: k)).
    cbv beta. rewrite (Hhd _ nEmbd); [done|].
    by rewrite layerNormalization_shape. }
  split_and!; [done|done|]. unfold Block_apply. by rewrite Hattn.
Qed.

(** ** The callback of [generate] *)

Lemma generate_loop_observed_steps m temperature doSample topK i idx g its
    out g' calls toks :
  steps m temperature doSample topK i idx g its out g' →
  Forall2 (λ it tok, data2 (it_idxNext it) !! 0 = Some [tok]) its toks →
  generate_loop_observed m temperature doSample topK (length its) i idx g
    calls = (calls ++ (Number <$> toks), inr out).
Proof.
  intros Hsteps. revert toks calls.
  induction Hsteps as [i sq g|i sq g it g1 its out g' Hit _ IH];
    intros toks calls Hall.
  - apply Forall2_nil_inv_l in Hall as ->. simpl. by rewrite app_nil_r.
  - apply Forall2_cons_inv_l in Hall as (tok & toks' & Htok & Hall & ->).
    simpl. rewrite Hit. unfold first_entry.
    destruct (data2 (it_idxNext it)) as [|r rs]; [done|].
    simpl in Htok. injection Htok as ->.
    rewrite (IH _ _ Hall). by rewrite <- app_assoc.
Qed.

Lemma generate_loop_observed_Err m temperature doSample topK n i sq g past
    calls e :
  wf2 sq → 1 ≤ (shape2 sq).1 →
  generate_loop m temperature doSample topK n i sq g past = Err e →
  ∃ calls', generate_loop_observed m temperature doSample topK n i sq g calls
              = (calls ++ calls', inl (Thrown e)) ∧
            length calls' < n.
Proof.
  revert i sq g past calls.
  induction n as [|n IH]; intros i sq g past calls Hwf HB; simpl; [done|].
  destruct (generate_step m temperature doSample topK i sq g)
    as [[it g1]|e'] eqn:Hit; simpl.
  - intros Hloop.
    destruct (generate_step_appends _ _ _ _ _ _ _ _ _ Hwf Hit)
      as (Hwfn & Hshape & Hrows).
    destruct (lookup_lt_is_Some_2 (data2 sq) 0) as [row Hrow].
    { destruct Hwf as [-> _]. lia. }
    destruct (Hrows _ _ Hrow) as (tok & Htok & _).
    unfold first_entry.
    destruct (data2 (it_idxNext it)) as [|r rs]; [done|].
    simpl in Htok. injection Htok as ->.
    destruct (IH (S i) (it_newIdx it) g1 (past ++ [it])
                (calls ++ [Number tok])) as (calls' & -> & Hlen);
      [done|by rewrite Hshape|done|].
    exists (Number tok :: calls'). rewrite <- app_assoc.
    split; [done|]. simpl. lia.
  - intros [= ->]. exists []. rewrite app_nil_r. split; [done|]. simpl. lia.
Qed.

(** X11. When [generate] is given a callback and a prompt of at least one
    row, a run that returns has called [onGenerateChar] once per iteration,
    [maxNewTokens] times in all, with the tokens appended to the first row
    of the sequence, in order: the first row of the result is the first row
    of the prompt followed by the tokens reported; the tokens of the other
    rows are not reported.  A run that throws, throws the same exception
    with the callback as without it, after fewer than [maxNewTokens]
    calls. *)
Theorem generate_callback (m : Model) (p : GenerateParams) (g : rng) :
  wf2 (idx p) → 1 ≤ (shape2 (idx p)).1 →
  match generate m p g with
  | Ok out =>
      ∃ row toks,
        generate_observed m p g = (Number <$> toks, inr out) ∧
        length toks = maxNewTokens p ∧
        data2 (idx p) !! 0 = Some row ∧
        data2 out !! 0 = Some (row ++ toks)
  | Err e =>
      ∃ calls,
        generate_observed m p g = (calls, inl (Thrown e)) ∧
        length calls < maxNewTokens p
  end.
Proof.
  intros Hwf HB. unfold generate.
  destruct (generate_trace m p g) as [[[out trace] g']|e] eqn:Htrace; simpl.
  - apply generate_trace_steps in Htrace as [Hlen Hsteps].
    destruct (steps_appends _ _ _ _ _ _ _ _ _ _ Hwf Hsteps)
      as (_ & _ & Hrows).
    destruct (lookup_lt_is_Some_2 (data2 (idx p)) 0) as [row Hrow].
    { destruct Hwf as [-> _]. lia. }
    destruct (Hrows _ _ Hrow) as (toks & Ho & Hall).
    exists row, toks.
    split_and!; [|by apply Forall2_length in Hall; lia|done..].
    unfold generate_observed. rewrite <- Hlen.
    by rewrite (generate_loop_observed_steps _ _ _ _ _ _ _ _ _ _ [] toks
                  Hsteps Hall).
  - unfold generate_trace in Htrace. unfold generate_observed.
    by destruct (generate_loop_observed_Err _ _ _ _ _ _ _ _ _ [] _ Hwf HB
                   Htrace) as (calls & -> & Hlen); exists calls.
Qed.

(** ** [model.loss] *)

Section Loss_properties.

Variable ln : Q → Q.

Lemma chunks_concat {A} (c : nat) (rows : list (list A)) :
  Forall (λ r, length r = c) rows →
  chunks c (length rows) (concat rows) = rows.
Proof.
  induction 1 as [|r rows Hr _ IH]; simpl; [done|].
  rewrite take_app_length', drop_app_length' by done. by rewrite IH.
Qed.

Lemma length_concat_uniform {A} (n : nat) (l : list (list A)) :
  Forall (λ r, length r = n) l → length (concat l) = length l * n.
Proof.
  induction 1 as [|r l Hr _ IH]; simpl; [done|].
  rewrite length_app, IH. lia.
Qed.

(** The rows of a well-formed rank 3 tensor, one after the other. *)
Lemma concat_wf3 {A} (t : tensor3 A) :
  wf3 t →
  length (concat (data3 t)) = (shape3 t).1.1 * (shape3 t).1.2 ∧
  Forall (λ r, length r = (shape3 t).2) (concat (data3 t)).
Proof.
  intros [Hlen Hmats]. split.
  - rewrite (length_concat_uniform (shape3 t).1.2), Hlen; [done|].
    eapply Forall_impl; [exact Hmats|]. by intros mat [? _].
  - apply Forall_concat. eapply Forall_impl; [exact Hmats|].
    by intros mat [_ ?].
Qed.

Lemma reshape3_2_rows {A} (t : tensor3 A) :
  wf3 t →
  reshape3_2 t ((shape3 t).1.1 * (shape3 t).1.2) (shape3 t).2
  = Ok (Tensor2 ((shape3 t).1.1 * (shape3 t).1.2, (shape3 t).2)
          (concat (data3 t))).
Proof.
  intros Hwf. destruct (concat_wf3 t Hwf) as [Hlen Hrows].
  unfold reshape3_2. rewrite Nat.eqb_refl. do 2 f_equal.
  rewrite <- Hlen. by apply chunks_concat.
Qed.

(** What [loss] computes once the shapes agree. *)
Lemma loss_unfold m idx targets B :
  model_ok m → shape2 idx = (B, blockSize (params m)) →
  ∃ logits,
    GPT_apply m idx = Ok logits ∧ wf3 logits ∧
    shape3 logits = (B, blockSize (params m), vocabSize (params m)) ∧
    loss ln m idx targets =
      (flattenTargets ← reshape2_1 targets (B * blockSize (params m));
       targetsOneHot ← oneHot flattenTargets (vocabSize (params m));
       softmaxCrossEntropy ln targetsOneHot
         (Tensor2 (B * blockSize (params m), vocabSize (params m))
            (concat (data3 logits)))).
Proof.
  intros Hok Hidx.
  destruct (GPT_apply_shape m idx B Hok Hidx) as (logits & Hl & Hwf & Hs).
  exists logits. split_and!; [done..|].
  unfold loss. rewrite Hl. simpl. rewrite Hs.
  pose proof (reshape3_2_rows logits Hwf) as Hr. rewrite Hs in Hr.
  simpl in Hr. by rewrite Hr.
Qed.

(** X12. How [loss] ends on a model built by [GPT]: on an input whose time
    length is not [blockSize] it throws the error of [apply]; otherwise, on
    an input whose tokens lie in [0 .. vocabSize] (the rows of the token
    embedding), it throws in [reshape] when [targets] does not hold one
    entry per position of the input, and in [oneHot] when the vocabulary
    has fewer than two tokens; in every other case it returns a number. *)
Theorem loss_outcome (p0 : ModelParams) (log log' : list tf_layer)
    (m : Model) (idx targets : tensor2 Z) :
  GPT p0 log = (log', Ok m) →
  let B := (shape2 idx).1 in
  let T := (shape2 idx).2 in
  let n := (shape2 targets).1 * (shape2 targets).2 in
  let in_range :=
    Forall (Forall (λ tok, (0 ≤ tok ≤ Z.of_nat (vocabSize (params m)))%Z))
      (data2 idx) in
  (T ≠ blockSize (params m) →
   loss ln m idx targets =
     Err (Error ("Sequence must be of size " +:+ dec (blockSize (params m))
                 +:+ ", got " +:+ dec T))) ∧
  (T = blockSize (params m) → in_range → n ≠ B * T →
   loss ln m idx targets = Err (TfError "reshape")) ∧
  (T = blockSize (params m) → in_range → n = B * T →
   vocabSize (params m) < 2 →
   loss ln m idx targets = Err (TfError "oneHot")) ∧
  (T = blockSize (params m) → in_range → n = B * T →
   2 ≤ vocabSize (params m) →
   ∃ v, loss ln m idx targets = Ok v).
Proof.
  intros [_ Hok]%GPT_ok B T n in_range. split.
  { intros HT. unfold loss. by rewrite GPT_apply_mismatch. }
  assert (T = blockSize (params m) →
          loss ln m idx targets =
            (flattenTargets ← reshape2_1 targets (B * blockSize (params m));
             targetsOneHot ← oneHot flattenTargets (vocabSize (params m));
             Ok (num_div
                   (foldr num_add (Fin 0)
                      (zip_with (softmaxCrossEntropyWithLogits_row ln)
                         (data2 targetsOneHot)
                         (match GPT_apply m idx with
                          | Ok logits => concat (data3 logits)
                          | Err _ => []
                          end)))
                   (Fin (inject_Z (Z.of_nat (B * blockSize (params m))))))))
    as Hloss.
  { intros HT.
    destruct (loss_unfold m idx targets B Hok) as (logits & -> & _ & _ & ->).
    { subst B T. rewrite <- HT. by destruct (shape2 idx). }
    unfold reshape2_1. case_match; [|done]. simpl.
    unfold oneHot. destruct (vocabSize (params m) <? 2); [done|]. simpl.
    unfold softmaxCrossEntropy. simpl. by case_decide. }
  split_and!.
  - intros HT _ Hn. rewrite (Hloss HT). unfold reshape2_1. fold n.
    rewrite <- HT. by destruct (Nat.eqb_spec n (B * T)).
  - intros HT _ Hn HV. rewrite (Hloss HT). unfold reshape2_1. fold n.
    rewrite <- HT, Hn, Nat.eqb_refl. simpl. unfold oneHot.
    by destruct (Nat.ltb_spec (vocabSize (params m)) 2); [|lia].
  - intros HT _ Hn HV. rewrite (Hloss HT). unfold reshape2_1. fold n.
    rewrite <- HT, Hn, Nat.eqb_refl. simpl. unfold oneHot.
    destruct (Nat.ltb_spec (vocabSize (params m)) 2); [lia|]. simpl.
    by eexists.
Qed.

Lemma fin_list (row : list num) :
  Forall (λ x, is_fin x) row → ∃ xs, row = Fin <$> xs.
Proof.
  induction 1 as [|x row Hx _ [xs ->]]; [by exists []|].
  destruct x as [| | |a]; try done. by exists (a :: xs).
Qed.

Lemma logSumExp_row_fin (xs : list Q) :
  xs ≠ [] →
  ∃ mm s, (0 < s)%Q ∧ logSumExp_row ln (Fin <$> xs) = Fin (mm + ln s).
Proof.
  intros Hne.
  destruct (max_masked_fin (Fin <$> xs)) as [mm Hmax].
  { apply Forall_fmap, Forall_true. intros a. by right. }
  { destruct xs as [|a xs]; [done|]. by left. }
  exists mm, (Qsum ((λ a, exp (a + - mm)) <$> xs)).
  assert (0 < Qsum ((λ a, exp (a + - mm)) <$> xs))%Q as Hpos.
  { apply Qsum_pos.
    - apply Forall_fmap, Forall_true. intros a. apply Qlt_le_weak, exp_pos.
    - destruct xs as [|a xs]; [done|]. left. apply exp_pos. }
  split; [done|]. unfold logSumExp_row. rewrite Hmax.
  assert ((λ x, num_exp (num_sub x (Fin mm))) <$> (Fin <$> xs)
          = Fin <$> ((λ a, exp (a + - mm)) <$> xs)) as ->.
  { by rewrite <- !list_fmap_compose. }
  rewrite sum_Fin. simpl. apply Qgt_alt in Hpos. by rewrite Hpos.
Qed.

(** The sum over a row of [-(x - lse) * label] for the labels of
    [oneHot]: [lse - x] at the position of the index, if there is one. *)
Lemma cross_entropy_sum (lse : Q) (c : Z) (xs : list Q) (off : nat) :
  ∃ q,
    foldr num_add (Fin 0)
      (zip_with (λ x l, num_neg (num_mul (num_sub x (Fin lse)) l))
         (Fin <$> xs)
         ((λ j, if (c =? Z.of_nat j)%Z then Fin 1 else Fin 0)
            <$> seq off (length xs))) = Fin q ∧
    ((Z.of_nat off ≤ c < Z.of_nat (off + length xs))%Z →
     ∃ x, xs !! (Z.to_nat c - off) = Some x ∧ (q == lse - x)%Q) ∧
    (¬ (Z.of_nat off ≤ c < Z.of_nat (off + length xs))%Z → (q == 0)%Q).
Proof.
  revert off. induction xs as [|x xs IH]; intros off.
  - exists 0%Q. split; [done|]. simpl. split; [lia|done].
  - destruct (IH (S off)) as (q' & Hsum & Hin & Hout).
    rewrite fmap_cons. cbn [length seq]. rewrite fmap_cons.
    cbn [zip_with foldr]. rewrite Hsum.
    destruct (Z.eqb_spec c (Z.of_nat off)) as [->|Hc].
    + eexists. split; [reflexivity|]. split; [|simpl; lia].
      intros _. exists x. rewrite Nat2Z.id, Nat.sub_diag. split; [done|].
      rewrite Hout by lia. ring.
    + eexists. split; [reflexivity|]. split.
      * intros Hr. destruct Hin as (x' & Hx' & Hq'); [simpl in *; lia|].
        exists x'. split; [|rewrite Hq'; ring].
        replace (Z.to_nat c - off) with (S (Z.to_nat c - S off))
          by (simpl in *; lia).
        done.
      * intros Hr. rewrite Hout by (simpl in *; lia). ring.
Qed.

(** The cross entropy of one position with finite logits. *)
Lemma cross_entropy_row (V : nat) (c : Z) (row : list num) :
  length row = V → 1 ≤ V → Forall (λ x, is_fin x) row →
  ∃ q lse,
    softmaxCrossEntropyWithLogits_row ln (oneHot_row V c) row = Fin q ∧
    logSumExp_row ln row = Fin lse ∧
    ((0 ≤ c < Z.of_nat V)%Z →
     ∃ x, row !! Z.to_nat c = Some (Fin x) ∧ (q == lse - x)%Q) ∧
    (¬ (0 ≤ c < Z.of_nat V)%Z → (q == 0)%Q).
Proof.
  intros Hlen HV [xs ->]%fin_list. rewrite length_fmap in Hlen.
  destruct (logSumExp_row_fin xs) as (mm & s & _ & Hlse).
  { destruct xs; [simpl in Hlen; lia|done]. }
  destruct (cross_entropy_sum (mm + ln s) c xs 0) as (q & Hq & Hin & Hout).
  exists q, (mm + ln s)%Q. unfold softmaxCrossEntropyWithLogits_row.
  rewrite Hlse. unfold oneHot_row. rewrite <- Hlen.
  split_and!; [done|done| |].
  - intros Hc. destruct Hin as (x & Hx & Hqx); [simpl; lia|].
    exists x. rewrite Nat.sub_0_r in Hx.
    by rewrite list_lookup_fmap, Hx.
  - intros Hc. apply Hout. simpl. lia.
Qed.

(** X13. The value of [loss] on a model built by [GPT], for an input of time
    length [blockSize] whose tokens lie in [0 .. vocabSize] (the rows of
    the token embedding), targets with one entry per position, and a
    vocabulary of at least two tokens: the sum over all positions, rows of
    the batch one after the other, of the cross entropy of the logits of
    the position with the one-hot row of its target, divided by the number
    [B * blockSize] of positions.  Where the logits of a position are
    finite, its cross entropy is [logSumExp(logits) - logits[target]] for a
    target in [0 .. vocabSize - 1], and 0 for any other target: such a
    position adds nothing to the sum and still counts in the divisor. *)
Theorem loss_value (p0 : ModelParams) (log log' : list tf_layer)
    (m : Model) (idx targets : tensor2 Z) (B : nat) :
  GPT p0 log = (log', Ok m) → shape2 idx = (B, blockSize (params m)) →
  Forall (Forall (λ tok, (0 ≤ tok ≤ Z.of_nat (vocabSize (params m)))%Z))
    (data2 idx) →
  wf2 targets →
  (shape2 targets).1 * (shape2 targets).2 = B * blockSize (params m) →
  2 ≤ vocabSize (params m) →
  let V := vocabSize (params m) in
  ∃ logits,
    GPT_apply m idx = Ok logits ∧
    length (concat (data3 logits)) = B * blockSize (params m) ∧
    length (concat (data2 targets)) = B * blockSize (params m) ∧
    loss ln m idx targets =
      Ok (num_div
            (foldr num_add (Fin 0)
               (zip_with
                  (λ c row,
                     softmaxCrossEntropyWithLogits_row ln (oneHot_row V c) row)
                  (concat (data2 targets)) (concat (data3 logits))))
            (Fin (inject_Z (Z.of_nat (B * blockSize (params m)))))) ∧
    ∀ c row, row ∈ concat (data3 logits) → Forall (λ x, is_fin x) row →
      ∃ q lse,
        softmaxCrossEntropyWithLogits_row ln (oneHot_row V c) row = Fin q ∧
        logSumExp_row ln row = Fin lse ∧
        ((0 ≤ c < Z.of_nat V)%Z →
         ∃ x, row !! Z.to_nat c = Some (Fin x) ∧ (q == lse - x)%Q) ∧
        (¬ (0 ≤ c < Z.of_nat V)%Z → (q == 0)%Q).
Proof.
  intros [_ Hok]%GPT_ok Hidx _ [Htlen Htrows] Hn HV V.
  destruct (loss_unfold m idx targets B Hok Hidx)
    as (logits & Hl & Hwf & Hs & Hloss).
  destruct (concat_wf3 logits Hwf) as [Hlen Hrows].
  rewrite Hs in Hlen, Hrows. simpl in Hlen, Hrows.
  exists logits. split_and!; [done|done| | |].
  - rewrite (length_concat_uniform (shape2 targets).2), Htlen; done.
  - rewrite Hloss. unfold reshape2_1. rewrite Hn, Nat.eqb_refl. simpl.
    unfold oneHot. destruct (Nat.ltb_spec (vocabSize (params m)) 2); [lia|].
    simpl. unfold softmaxCrossEntropy. simpl. case_decide; [|done].
    by rewrite zip_with_fmap_l.
  - intros c row Hrow Hfin. rewrite Forall_forall in Hrows.
    apply cross_entropy_row; [by apply Hrows|lia|done].
Qed.

End Loss_properties.

(** ** The layers [GPT] creates *)

Lemma string_app_cons (x : Ascii.ascii) (a s : string) :
  String x a +:+ s = String x (a +:+ s).
Proof. done. Qed.

Lemma string_app_nil (s : string) : EmptyString +:+ s = s.
Proof. done. Qed.

Lemma string_app_assoc (a b c : string) : (a +:+ b) +:+ c = a +:+ (b +:+ c).
Proof.
  induction a as [|x a IH]; [done|]. rewrite !string_app_cons. by rewrite IH.
Qed.

Lemma string_app_inj_l (a s1 s2 : string) : a +:+ s1 = a +:+ s2 → s1 = s2.
Proof.
  induction a as [|x a IH]; [done|]. rewrite !string_app_cons.
  intros [= H]. auto.
Qed.

Lemma dash_split (d1 d2 s1 s2 : string) :
  no_dash d1 → no_dash d2 →
  d1 +:+ String dash s1 = d2 +:+ String dash s2 → d1 = d2 ∧ s1 = s2.
Proof.
  revert d2. induction d1 as [|c d1 IH]; intros [|c' d2];
    rewrite ?string_app_cons, ?string_app_nil; cbn [no_dash].
  - by intros _ _ [= ->].
  - intros _ [Hc _] [= <- _]. done.
  - intros [Hc _] _ [= -> _]. done.
  - intros [_ H1] [_ H2] [= -> H]. destruct (IH _ H1 H2 H) as [-> ->]. done.
Qed.

Lemma no_dash_dec (n : nat) : no_dash (dec n).
Proof.
  unfold dec. generalize (Nat.to_uint n). intros d.
  assert (no_dash (NilEmpty.string_of_uint d)) as H.
  { induction d; simpl; (split; [by vm_compute|assumption]) || exact I. }
  by destruct d.
Qed.

Lemma dec_inj (n n' : nat) : dec n = dec n' → n = n'.
Proof.
  assert (∀ k, Nat.to_uint k ≠ Decimal.Nil) as Hnn.
  { intros k. rewrite <- (DecimalNat.Unsigned.of_to k) at 1.
    rewrite DecimalNat.Unsigned.to_of. apply DecimalFacts.unorm_nonnil. }
  unfold dec. intros H%(f_equal NilZero.uint_of_string).
  rewrite !NilZero.usu in H by apply Hnn.
  apply DecimalNat.Unsigned.to_uint_inj. congruence.
Qed.

Lemma creates_bind {A B} (c : ctor A) (f : A → ctor B) n1 n2 names :
  creates c n1 → (∀ a, creates (f a) n2) → names = n1 ++ n2 →
  creates (c ≫= f) names.
Proof.
  intros Hc Hf -> log log' b (log1 & a & Ha & Hb)%ctor_bind_Ok.
  destruct (Hc _ _ _ Ha) as (new1 & -> & <-).
  destruct (Hf _ _ _ _ Hb) as (new2 & -> & <-).
  exists (new1 ++ new2). by rewrite app_assoc, fmap_app.
Qed.

Lemma creates_ret {A} (a : A) : creates (mret a) [].
Proof. intros log log' b [= <- <-]. exists []. by rewrite app_nil_r. Qed.

Lemma creates_throw {A} (e : error) names : creates (@throw A e) names.
Proof. by intros log log' b. Qed.

Lemma creates_embedding a : creates (tf_layers_embedding a) [emb_name a].
Proof. intros log log' b [= <- <-]. by exists [L_embedding a]. Qed.
Lemma creates_dense a : creates (tf_layers_dense a) [dense_name a].
Proof. intros log log' b [= <- <-]. by exists [L_dense a]. Qed.
Lemma creates_dropout a : creates (tf_layers_dropout a) [drop_name a].
Proof. intros log log' b [= <- <-]. by exists [L_dropout a]. Qed.
Lemma creates_layerNormalization a :
  creates (tf_layers_layerNormalization a) [ln_name a].
Proof. intros log log' b [= <- <-]. by exists [L_layerNormalization a]. Qed.
Lemma creates_add a : creates (tf_layers_add a) [add_name a].
Proof. intros log log' b [= <- <-]. by exists [L_add a]. Qed.

Lemma creates_mapM {A B} (f : A → ctor B) (N : A → list string) (l : list A) :
  (∀ a, creates (f a) (N a)) → creates (mapM f l) (l ≫= N).
Proof.
  intros Hf. induction l as [|a l IH].
  - apply creates_ret.
  - change (mapM f (a :: l)) with (y ← f a; k ← mapM f l; mret (y :: k)).
    eapply creates_bind; [apply Hf| |reflexivity]. intros y.
    eapply creates_bind; [apply IH| |]; [intros k; apply creates_ret|].
    by rewrite app_nil_r.
Qed.

Lemma creates_Head nEmbd headSize blockSize attnDropout name :
  creates (Head nEmbd headSize blockSize attnDropout name) (Head_names name).
Proof.
  unfold Head.
  eapply creates_bind; [apply creates_dense|intros key|].
  { eapply creates_bind; [apply creates_dense|intros query|].
    { eapply creates_bind; [apply creates_dense|intros value|].
      { eapply creates_bind; [apply creates_dropout|intros drop0|].
        { cbv zeta. apply creates_ret. }
        reflexivity. }
      reflexivity. }
    reflexivity. }
  reflexivity.
Qed.

Lemma creates_CausalSelfAttention nEmbd blockSize nHead attnDropout
    residDropout name :
  creates
    (CausalSelfAttention nEmbd blockSize nHead attnDropout residDropout name)
    (CausalSelfAttention_names nHead name).
Proof.
  unfold CausalSelfAttention. case_decide; [apply creates_throw|].
  eapply creates_bind.
  - apply (creates_mapM _ (λ i, Head_names (name +:+ "-head" +:+ dec i))).
    intros i. apply creates_Head.
  - intros heads.
    eapply creates_bind; [apply creates_dense|intros proj|].
    { eapply creates_bind; [apply creates_dropout|intros drop0|].
      { apply creates_ret. }
      reflexivity. }
    reflexivity.
  - reflexivity.
Qed.

Lemma creates_FeedForward nEmbd residDropout name :
  creates (FeedForward nEmbd residDropout name) (FeedForward_names name).
Proof.
  unfold FeedForward.
  eapply creates_bind; [apply creates_dense|intros cFc|].
  { eapply creates_bind; [apply creates_dense|intros cProj|].
    { eapply creates_bind; [apply creates_dropout|intros drop0|].
      { apply creates_ret. }
      reflexivity. }
    reflexivity. }
  reflexivity.
Qed.

Lemma creates_Block nEmbd nHead blockSize residDropout attnDropout nLayer
    name :
  creates (Block nEmbd nHead blockSize residDropout attnDropout nLayer name)
    (Block_names nHead name).
Proof.
  unfold Block.
  eapply creates_bind; [apply creates_layerNormalization|intros ln1|].
  { eapply creates_bind; [apply creates_CausalSelfAttention|intros attn|].
    { eapply creates_bind; [apply creates_layerNormalization|intros ln2|].
      { eapply creates_bind; [apply creates_FeedForward|intros mlp|].
        { apply creates_ret. }
        reflexivity. }
      reflexivity. }
    reflexivity. }
  unfold Block_names. by rewrite app_nil_r.
Qed.

Lemma creates_GPT p : creates (GPT p) (GPT_names p).
Proof.
  unfold GPT. cbv zeta.
  eapply creates_bind; [apply creates_embedding|intros wte0|].
  { eapply creates_bind; [apply creates_embedding|intros wpe0|].
    { eapply creates_bind; [apply creates_dropout|intros drop0|].
      { eapply creates_bind; [apply creates_add|intros add0|].
        { eapply creates_bind.
          - apply (creates_mapM _
                     (λ i, Block_names (nHead p) ("block" +:+ dec (i + 1)))).
            intros i. apply creates_Block.
          - intros blocks.
            eapply creates_bind;
              [apply creates_layerNormalization|intros lnF0|].
            { eapply creates_bind; [apply creates_dense|intros lmHead0|].
              { apply creates_ret. }
              reflexivity. }
            reflexivity.
          - reflexivity. }
        reflexivity. }
      reflexivity. }
    reflexivity. }
  reflexivity.
Qed.

Lemma length_bind_const {A B} (f : A → list B) (k : nat) (l : list A) :
  (∀ x, length (f x) = k) → length (l ≫= f) = length l * k.
Proof.
  intros Hf. induction l as [|x l IH]; [done|].
  rewrite bind_cons, length_app, Hf, IH. simpl. lia.
Qed.

Lemma length_Block_names nHead name :
  length (Block_names nHead name) = 4 * nHead + 7.
Proof.
  unfold Block_names, CausalSelfAttention_names.
  rewrite !length_app, (length_bind_const _ 4), length_seq by done.
  simpl. lia.
Qed.

Lemma length_GPT_names p :
  length (GPT_names p) = 6 + nLayer p * (4 * nHead p + 7).
Proof.
  unfold GPT_names.
  rewrite !length_app, (length_bind_const _ (4 * nHead p + 7)), length_seq.
  - simpl. lia.
  - intros i. apply length_Block_names.
Qed.

Lemma fmap_bind_list {A B C} (f : B → C) (g : A → list B) (l : list A) :
  f <$> (l ≫= g) = l ≫= (λ x, f <$> g x).
Proof.
  induction l as [|x l IH]; [done|]. by rewrite !bind_cons, fmap_app, IH.
Qed.

(** The names of the layers of a block: the name of the block, a dash, and
    a suffix that does not depend on the block. *)
Lemma Block_names_canon nHead d :
  Block_names nHead ("block" +:+ d)
  = (λ r, "block" +:+ d +:+ "-" +:+ r) <$> block_suffixes nHead.
Proof.
  unfold Block_names, CausalSelfAttention_names, FeedForward_names,
    block_suffixes.
  rewrite !fmap_app, fmap_bind_list, <- !app_assoc.
  f_equal. f_equal.
  - apply list_bind_ext; [|done]. intros j. unfold Head_names.
    rewrite <- list_fmap_compose. cbn [fmap list_fmap compose].
    by rewrite !string_app_assoc.
  - cbn [fmap list_fmap app]. by rewrite !string_app_assoc.
Qed.

(** Two strings that differ in a character of their constant prefixes. *)
Ltac string_discriminate H :=
  rewrite ?string_app_cons, ?string_app_nil in H; discriminate H.

(** [H : x ∈ [c1; ...; cn]], one case for every element. *)
Ltac elem_of_consts H :=
  repeat (apply elem_of_cons in H as [H|H]);
  [..|by apply elem_of_nil in H].

Lemma NoDup_block_suffixes nHead : NoDup (block_suffixes nHead).
Proof.
  unfold block_suffixes. apply NoDup_app. split_and!.
  - apply NoDup_singleton.
  - intros x ->%list_elem_of_singleton [Hin|Hin]%elem_of_app.
    + apply list_elem_of_bind in Hin as (j & Hin & _).
      apply list_elem_of_fmap in Hin as (k & Hk & _).
      string_discriminate Hk.
    + elem_of_consts Hin; discriminate Hin.
  - apply NoDup_app. split_and!.
    + apply NoDup_bind; [| |apply NoDup_seq].
      * intros j1 j2 y _ _ (k1 & -> & _)%list_elem_of_fmap
          (k2 & Heq & _)%list_elem_of_fmap.
        apply string_app_inj_l in Heq.
        apply (dash_split (dec j1) (dec j2) k1 k2) in Heq as [Hd _];
          [|apply no_dash_dec..].
        by apply dec_inj.
      * intros j _. apply NoDup_fmap_2_strong; [|compute_done].
        intros k1 k2 _ _ Heq. by do 3 apply string_app_inj_l in Heq.
    + intros x (j & Hin & _)%list_elem_of_bind Hc.
      apply list_elem_of_fmap in Hin as (k & -> & _).
      elem_of_consts Hc; string_discriminate Hc.
    + compute_done.
Qed.

Lemma NoDup_Block_names nHead d : NoDup (Block_names nHead ("block" +:+ d)).
Proof.
  rewrite Block_names_canon.
  apply NoDup_fmap_2_strong; [|apply NoDup_block_suffixes].
  intros r1 r2 _ _ Heq. by do 3 apply string_app_inj_l in Heq.
Qed.

Lemma NoDup_GPT_names p : NoDup (GPT_names p).
Proof.
  unfold GPT_names. apply NoDup_app. split_and!.
  - compute_done.
  - intros x Hx [Hin|Hin]%elem_of_app.
    + apply list_elem_of_bind in Hin as (i & Hin & _).
      rewrite Block_names_canon in Hin.
      apply list_elem_of_fmap in Hin as (r & -> & _).
      elem_of_consts Hx; string_discriminate Hx.
    + elem_of_consts Hx; subst x; elem_of_consts Hin; discriminate Hin.
  - apply NoDup_app. split_and!.
    + apply NoDup_bind; [| |apply NoDup_seq].
      * intros i1 i2 y _ _ Hy1 Hy2. rewrite Block_names_canon in Hy1, Hy2.
        apply list_elem_of_fmap in Hy1 as (r1 & -> & _).
        apply list_elem_of_fmap in Hy2 as (r2 & Heq & _).
        apply string_app_inj_l in Heq.
        apply (dash_split (dec (i1 + 1)) (dec (i2 + 1)) r1 r2) in Heq
          as [Hd _]; [|apply no_dash_dec..].
        apply dec_inj in Hd. lia.
      * intros i _. apply NoDup_Block_names.
    + intros x (i & Hin & _)%list_elem_of_bind Hc.
      rewrite Block_names_canon in Hin.
      apply list_elem_of_fmap in Hin as (r & -> & _).
      elem_of_consts Hc; string_discriminate Hc.
    + compute_done.
Qed.

(** X14. A model that [GPT] constructs is made of
    [6 + nLayer * (4 * nHead + 7)] layers of the library, created after the
    layers that existed before, and no two of them have the same name. *)
Theorem GPT_layers (p : ModelParams) (log log' : list tf_layer) (m : Model) :
  GPT p log = (log', Ok m) →
  ∃ new,
    log' = log ++ new ∧
    length new = 6 + nLayer p * (4 * nHead p + 7) ∧
    NoDup (layer_name <$> new).
Proof.
  intros Hm. destruct (creates_GPT p _ _ _ Hm) as (new & -> & Hnames).
  exists new. split; [done|]. rewrite Hnames. split.
  - rewrite <- (length_fmap layer_name), Hnames. apply length_GPT_names.
  - apply NoDup_GPT_names.
Qed.

(** ** [model.build] *)

(** X15. [build] runs the model once, on [tf.zeros([1, blockSize])], unless
    the model is warm already: a warm model is left alone, whatever its
    layers would do; the test input has the length [apply] asks for, so
    [build] never throws the error of [apply] about the length of the
    sequence; a [build] that throws leaves [modelIsWarm] as it was; and on
    a model built by [GPT] it returns and leaves the model warm. *)
Theorem build_warm (m : Model) (modelIsWarm : bool) :
  build m true = (Ok tt, true) ∧
  tf_only (build m modelIsWarm).1 ∧
  ((build m modelIsWarm).1 ≠ Ok tt →
   (build m modelIsWarm).2 = modelIsWarm) ∧
  (model_ok m → build m modelIsWarm = (Ok tt, true)).
Proof.
  split; [done|]. unfold build. destruct modelIsWarm.
  { split_and!; [apply tf_only_Ok|done|done]. }
  pose proof (tf_only_GPT_apply m (zeros2 1 (blockSize (params m))) eq_refl)
    as Htf.
  split_and!.
  - destruct (GPT_apply m _) as [logits|e]; [apply tf_only_Ok|].
    intros msg [= ->]. by apply (Htf msg).
  - by destruct (GPT_apply m _).
  - intros Hok.
    destruct (GPT_apply_shape m (zeros2 1 (blockSize (params m))) 1 Hok
                eq_refl) as (logits & -> & _). done.
Qed.

(** ** The dropout rates *)

(** X16. The dropout rates reach the layers they are meant for: [drop]
    takes [embdDropout], the dropout layer of every head [attnDropout], the
    dropout layers that close the attention module and the feed-forward
    module of every block [residDropout]; a rate the caller leaves out
    is 0.1. *)
Theorem GPT_dropout_rates (p : ModelParams) (log log' : list tf_layer)
    (m : Model) :
  GPT p log = (log', Ok m) →
  drop_rate (drop (transformer m)) = default (Fin (1 # 10)) (embdDropout p) ∧
  Forall (λ b,
    drop_rate (attn_drop (block_attn b))
      = default (Fin (1 # 10)) (residDropout p) ∧
    drop_rate (ffwd_drop (block_mlp b))
      = default (Fin (1 # 10)) (residDropout p) ∧
    Forall (λ hd, drop_rate (head_drop hd)
                  = default (Fin (1 # 10)) (attnDropout p))
      (attn_heads (block_attn b))) (h (transformer m)).
Proof.
  unfold GPT.
  intros (log1 & wte0 & [= <- <-] & Hrest)%ctor_bind_Ok.
  apply ctor_bind_Ok in Hrest as (log2 & wpe0 & [= <- <-] & Hrest).
  apply ctor_bind_Ok in Hrest as (log3 & drop0 & [= <- <-] & Hrest).
  apply ctor_bind_Ok in Hrest as (log4 & add0 & [= <- <-] & Hrest).
  apply ctor_bind_Ok in Hrest as (log5 & blocks & Hblocks & Hrest).
  injection Hrest as <- <-. split; [done|]. simpl.
  eapply mapM_ctor_Forall in Hblocks as [Hall _]; [exact Hall|].
  intros i loga logb b. unfold Block.
  intros (log6 & ln1 & _ & Hb)%ctor_bind_Ok.
  apply ctor_bind_Ok in Hb as (log7 & attn & Hattn & Hb).
  injection Hb as <- <-. simpl.
  unfold CausalSelfAttention in Hattn. case_decide; [done|].
  apply ctor_bind_Ok in Hattn as (log8 & heads & Hheads & Hattn).
  injection Hattn as <- <-. simpl. split_and!; [done..|].
  eapply mapM_ctor_Forall in Hheads as [Hall _]; [exact Hall|].
  intros j logc logd hd [= <- <-]. done.
Qed.

(** ** The tokens [generate] produces *)

(** What the library promises about the sampler: a sample is the index of
    an outcome. *)
Hypothesis multinomial_range : ∀ p n b g,
  1 ≤ (shape2 p).2 →
  Forall (Forall (λ tok, (0 ≤ tok < Z.of_nat (shape2 p).2)%Z))
    (data2 (multinomial p n b g).1).

Lemma slice2_Forall {A} (P : A → Prop) (t t' : tensor2 A) b s :
  Forall (Forall P) (data2 t) → slice2 t b s = Ok t' →
  Forall (Forall P) (data2 t').
Proof.
  intros Hall Ht. unfold slice2 in Ht.
  apply bind_Ok in Ht as (r & _ & Ht).
  apply bind_Ok in Ht as (c & _ & [= <-]). simpl.
  apply Forall_fmap. unfold cut.
  eapply Forall_impl; [apply Forall_take, Forall_drop, Hall|].
  intros row Hrow. by apply Forall_take, Forall_drop.
Qed.

Lemma next_token_range doSample probs logits g sampled idxNext g' B V :
  wf2 probs → shape2 probs = (B, V) → shape2 logits = (B, V) → 1 ≤ V →
  next_token doSample probs logits g = Ok (sampled, idxNext, g') →
  Forall (Forall (λ tok, (0 ≤ tok < Z.of_nat V)%Z)) (data2 idxNext).
Proof.
  intros [_ Hrows] Hp Hl HV. unfold next_token. destruct doSample.
  - destruct (String.eqb_spec getBackend "webgpu") as [_|_].
    + pose proof (multinomial_range probs 2 true g) as Hs.
      destruct (multinomial probs 2 true g) as [s g1]. simpl in Hs.
      rewrite Hp in Hs. specialize (Hs HV).
      intros (sl & Hsl & [= _ <- _])%bind_Ok. by eapply slice2_Forall.
    + destruct (String.eqb_spec getBackend "tensorflow") as [_|_].
      * pose proof (multinomial_range logits 1 false g) as Hs.
        destruct (multinomial logits 1 false g) as [s g1]. simpl in Hs.
        rewrite Hl in Hs. specialize (Hs HV). by intros [= _ <- _].
      * pose proof (multinomial_range probs 1 true g) as Hs.
        destruct (multinomial probs 1 true g) as [s g1]. simpl in Hs.
        rewrite Hp in Hs. specialize (Hs HV). by intros [= _ <- _].
  - intros [= _ <- _]. simpl. rewrite <- list_fmap_compose.
    apply Forall_fmap. rewrite Hp in Hrows. simpl in Hrows.
    eapply Forall_impl; [exact Hrows|]. intros row Hrow. simpl in Hrow |- *.
    destruct (argmax_row_spec row) as (top & Htop & _).
    { destruct row; [simpl in Hrow; lia|done]. }
    apply lookup_lt_Some in Htop. constructor; [lia|constructor].
Qed.

Lemma GPT_wte_inputDim p log log' m :
  GPT p log = (log', Ok m) →
  emb_inputDim (wte (transformer m)) = vocabSize p + 1.
Proof.
  unfold GPT.
  intros (log1 & wte0 & [= <- <-] & Hrest)%ctor_bind_Ok.
  apply ctor_bind_Ok in Hrest as (log2 & wpe0 & [= <- <-] & Hrest).
  apply ctor_bind_Ok in Hrest as (log3 & drop0 & [= <- <-] & Hrest).
  apply ctor_bind_Ok in Hrest as (log4 & add0 & [= <- <-] & Hrest).
  apply ctor_bind_Ok in Hrest as (log5 & blocks & Hblocks & Hrest).
  by injection Hrest as <- <-.
Qed.

(** One iteration keeps the tokens of the running sequence in
    [0 .. vocabSize]: the token it appends is a position of the logits. *)
Lemma generate_step_tokens m temperature doSample topK i sq g0 it g1 :
  model_ok m → 1 ≤ vocabSize (params m) → wf2 sq →
  Forall (Forall (λ tok, (0 ≤ tok ≤ Z.of_nat (vocabSize (params m)))%Z))
    (data2 sq) →
  generate_step m temperature doSample topK i sq g0 = Ok (it, g1) →
  Forall (Forall (λ tok, (0 ≤ tok < Z.of_nat (vocabSize (params m)))%Z))
    (data2 (it_idxNext it)) ∧
  Forall (Forall (λ tok, (0 ≤ tok ≤ Z.of_nat (vocabSize (params m)))%Z))
    (data2 (it_idxShaped it)) ∧
  wf2 (it_newIdx it) ∧
  Forall (Forall (λ tok, (0 ≤ tok ≤ Z.of_nat (vocabSize (params m)))%Z))
    (data2 (it_newIdx it)).
Proof.
  intros Hok HV Hwfs Hsq Hit.
  destruct (generate_step_logits _ _ _ _ _ _ _ _ _ Hok Hit)
    as (_ & _ & _ & Hshape).
  pose proof (generate_step_wf _ _ _ _ _ _ _ _ _ Hit)
    as (_ & Hwfsc & Hwff & Hwfp & _ & Hwfn).
  apply generate_step_inv in Hit
    as (_ & _ & Hshaped & _ & _ & Hscaled & Hfiltered & Hprobs & Hnext
        & Hnew).
  assert (shape2 (it_filtered it) = ((shape2 sq).1, vocabSize (params m)))
    as Hsf.
  { destruct (truthy topK) as [k|].
    - apply topK_filter_data in Hfiltered as (_ & _ & -> & _); [|done].
      by rewrite Hscaled.
    - injection Hfiltered as <-. by rewrite Hscaled. }
  assert (Forall (Forall (λ tok,
             (0 ≤ tok < Z.of_nat (vocabSize (params m)))%Z))
            (data2 (it_idxNext it))) as Hn.
  { eapply next_token_range; [exact Hwfp| |exact Hsf|exact HV|exact Hnext].
    by rewrite Hprobs. }
  split_and!; [exact Hn| |by apply Hwfn|].
  - rewrite (idxShaped_data _ _ _ Hwfs Hshaped). apply Forall_fmap.
    eapply Forall_impl; [exact Hsq|]. intros row Hrow. simpl.
    apply Forall_app. split; [by apply Forall_drop|].
    apply Forall_replicate. lia.
  - unfold concat2 in Hnew. case_match; [|done]. injection Hnew as <-.
    simpl. apply Forall_forall.
    intros row (r1 & r2 & -> & Hr1 & Hr2)%elem_of_zip_with.
    rewrite Forall_forall in Hsq, Hn. apply Forall_app. split; [auto|].
    eapply Forall_impl; [exact (Hn _ Hr2)|]. intros tok Htok.
    simpl in Htok. lia.
Qed.

(** X17. [generate] keeps the tokens within the range of the token
    embedding: on a model built by [GPT] over at least one token, from a
    prompt whose tokens lie in [0 .. vocabSize], every token chosen by an
    iteration lies in [0 .. vocabSize - 1] (it is a position of the logits),
    every token of every model input lies in [0 .. inputDim - 1] of [wte],
    and so does every token of the result. *)
Theorem generate_tokens_in_range (p0 : ModelParams) (log log' : list tf_layer)
    (m : Model) (p : GenerateParams) (g : rng)
    (out : tensor2 Z) (trace : list Iteration) (g' : rng) :
  GPT p0 log = (log', Ok m) → 1 ≤ vocabSize p0 →
  wf2 (idx p) →
  Forall (Forall (λ tok, (0 ≤ tok ≤ Z.of_nat (vocabSize p0))%Z))
    (data2 (idx p)) →
  generate_trace m p g = Ok (out, trace, g') →
  let inputDim := emb_inputDim (wte (transformer m)) in
  Forall (λ it,
    Forall (Forall (λ tok, (0 ≤ tok < Z.of_nat (vocabSize p0))%Z))
      (data2 (it_idxNext it)) ∧
    Forall (Forall (λ tok, (0 ≤ tok < Z.of_nat inputDim)%Z))
      (data2 (it_idxShaped it))) trace ∧
  Forall (Forall (λ tok, (0 ≤ tok < Z.of_nat inputDim)%Z)) (data2 out).
Proof.
  intros Hm HV Hwf Hprompt [_ Hsteps]%generate_trace_steps inputDim.
  pose proof (GPT_wte_inputDim _ _ _ _ Hm) as Hdim. fold inputDim in Hdim.
  apply GPT_ok in Hm as [Hp Hok].
  assert (∀ d, Forall (Forall (λ tok,
                 (0 ≤ tok ≤ Z.of_nat (vocabSize p0))%Z)) d →
               Forall (Forall (λ tok, (0 ≤ tok < Z.of_nat inputDim)%Z)) d)
    as Hwiden.
  { intros d Hd. eapply Forall_impl; [exact Hd|]. intros row Hrow.
    eapply Forall_impl; [exact Hrow|]. intros tok Htok. simpl in Htok. lia. }
  set (ok := λ (sq : tensor2 Z),
         wf2 sq ∧
         Forall (Forall (λ tok, (0 ≤ tok ≤ Z.of_nat (vocabSize p0))%Z))
           (data2 sq)).
  assert (∀ i sq g0 it g1, ok sq →
            generate_step m (default (Fin 1) (temperature p))
              (default false (doSample p)) (topK p) i sq g0 = Ok (it, g1) →
            (Forall (Forall (λ tok, (0 ≤ tok < Z.of_nat (vocabSize p0))%Z))
               (data2 (it_idxNext it)) ∧
             Forall (Forall (λ tok, (0 ≤ tok < Z.of_nat inputDim)%Z))
               (data2 (it_idxShaped it))) ∧
            ok (it_newIdx it)) as Hstep.
  { intros i sq g0 it g1 [Hwfs Hsq] Hit. rewrite <- Hp in HV, Hsq.
    destruct (generate_step_tokens _ _ _ _ _ _ _ _ _ Hok HV Hwfs Hsq Hit)
      as (Hn & Hsh & Hwfn & Hnew).
    rewrite Hp in Hn, Hsh, Hnew. split; [split; [done|]|done].
    by apply Hwiden. }
  destruct (steps_invariant m _ _ _ (λ _ sq, ok sq) _ _ _ _ _ _ _ Hstep
              (conj Hwf Hprompt) Hsteps) as [Hall [_ Hout]].
  split; [done|]. by apply Hwiden.
Qed.


(** ** Causality *)

(** *** Numbers up to the equality of rationals *)

Lemma num_equiv_refl x : num_equiv x x.
Proof. destruct x; simpl; [done..|reflexivity]. Qed.

Lemma num_equiv_sym x y : num_equiv x y → num_equiv y x.
Proof. destruct x, y; simpl; try done; intros H; by symmetry. Qed.

Lemma num_equiv_trans x y z : num_equiv x y → num_equiv y z → num_equiv x z.
Proof.
  destruct x, y, z; simpl; try done. intros H1 H2. by transitivity q0.
Qed.

Lemma num_equiv_is_fin x y : num_equiv x y → is_fin x = is_fin y.
Proof. by destruct x, y. Qed.

Lemma num_neg_equiv x x' : num_equiv x x' → num_equiv (num_neg x) (num_neg x').
Proof. destruct x, x'; simpl; try done. intros H. by rewrite H. Qed.

Lemma num_add_equiv x x' y y' :
  num_equiv x x' → num_equiv y y' → num_equiv (num_add x y) (num_add x' y').
Proof.
  destruct x, x'; simpl; try done; destruct y, y'; simpl; try done.
  intros H1 H2. by rewrite H1, H2.
Qed.

Lemma num_sub_equiv x x' y y' :
  num_equiv x x' → num_equiv y y' → num_equiv (num_sub x y) (num_sub x' y').
Proof. intros H1 H2. by apply num_add_equiv, num_neg_equiv. Qed.

Lemma Qcompare_zero_equiv (a b : Q) : (a == b)%Q → (a ?= 0)%Q = (b ?= 0)%Q.
Proof. intros H. by rewrite H. Qed.

Lemma Qle_bool_zero_equiv (a b : Q) :
  (a == b)%Q → Qle_bool 0 a = Qle_bool 0 b.
Proof. intros H. by rewrite H. Qed.

Lemma Qeq_bool_zero_equiv (a b : Q) :
  (a == b)%Q → Qeq_bool a 0 = Qeq_bool b 0.
Proof. intros H. by rewrite H. Qed.

Lemma num_mul_equiv x x' y y' :
  num_equiv x x' → num_equiv y y' → num_equiv (num_mul x y) (num_mul x' y').
Proof.
  destruct x, x'; simpl; try done; destruct y, y'; simpl; try done;
    intros H1 H2;
    try (rewrite (Qcompare_zero_equiv _ _ H1); by destruct (_ ?= 0)%Q);
    try (rewrite (Qcompare_zero_equiv _ _ H2); by destruct (_ ?= 0)%Q).
  by rewrite H1, H2.
Qed.

Lemma num_div_equiv x x' y y' :
  num_equiv x x' → num_equiv y y' → num_equiv (num_div x y) (num_div x' y').
Proof.
  destruct x, x'; simpl; try done; destruct y, y'; simpl; try done;
    intros H1 H2;
    try (rewrite (Qle_bool_zero_equiv _ _ H2); by destruct (Qle_bool 0 _)).
  rewrite (Qeq_bool_zero_equiv _ _ H2), (Qcompare_zero_equiv _ _ H1).
  destruct (Qeq_bool _ 0); [by destruct (_ ?= 0)%Q|]. simpl.
  by rewrite H1, H2.
Qed.

Lemma num_ge_equiv x x' y y' :
  num_equiv x x' → num_equiv y y' → num_ge x y = num_ge x' y'.
Proof.
  destruct x, x'; simpl; try done; destruct y, y'; simpl; try done.
  intros H1 H2. by rewrite H1, H2.
Qed.

Lemma num_gt_equiv x x' y y' :
  num_equiv x x' → num_equiv y y' → num_gt x y = num_gt x' y'.
Proof.
  destruct x, x'; simpl; try done; destruct y, y'; simpl; try done.
  intros H1 H2. by rewrite H1, H2.
Qed.

Lemma num_max_equiv x x' y y' :
  num_equiv x x' → num_equiv y y' → num_equiv (num_max x y) (num_max x' y').
Proof.
  intros H1 H2. pose proof (num_ge_equiv _ _ _ _ H1 H2) as Hge.
  destruct x, x'; try done; destruct y, y'; try done; simpl in *;
    rewrite <- ?Hge; by destruct (Qle_bool _ _).
Qed.

Hypothesis exp_proper : ∀ a b, (a == b)%Q → (exp a == exp b)%Q.

Lemma num_exp_equiv x x' : num_equiv x x' → num_equiv (num_exp x) (num_exp x').
Proof.
  destruct x, x'; simpl; try done. apply exp_proper.
Qed.

(** *** Rows and matrices *)

Lemma row_equiv_refl r : row_equiv r r.
Proof. induction r; constructor; [apply num_equiv_refl|done]. Qed.

Lemma mat_equiv_refl m : mat_equiv m m.
Proof. induction m; constructor; [apply row_equiv_refl|done]. Qed.

Lemma row_equiv_fin r r' :
  row_equiv r r' → Forall (λ v, is_fin v) r → Forall (λ v, is_fin v) r'.
Proof.
  induction 1 as [|x y r r' Hxy _ IH]; [done|].
  intros [Hx Hr]%Forall_cons. constructor; [|by apply IH].
  by rewrite <- (num_equiv_is_fin _ _ Hxy).
Qed.

Lemma sum_equiv l l' :
  row_equiv l l' →
  num_equiv (foldr num_add (Fin 0) l) (foldr num_add (Fin 0) l').
Proof.
  induction 1 as [|x y l l' Hxy _ IH]; simpl; [reflexivity|].
  by apply num_add_equiv.
Qed.

Lemma max_equiv l l' :
  row_equiv l l' →
  num_equiv (foldr num_max NegInf l) (foldr num_max NegInf l').
Proof.
  induction 1 as [|x y l l' Hxy _ IH]; simpl; [done|].
  by apply num_max_equiv.
Qed.

Lemma softmax_row_equiv l l' :
  row_equiv l l' → row_equiv (softmax_row l) (softmax_row l').
Proof.
  intros Hl. unfold softmax_row, row_equiv.
  pose proof (max_equiv _ _ Hl) as Hm.
  set (m := foldr num_max NegInf l) in *.
  set (m' := foldr num_max NegInf l') in *.
  assert (row_equiv ((λ x, num_exp (num_sub x m)) <$> l)
            ((λ x, num_exp (num_sub x m')) <$> l')) as He.
  { apply Forall2_fmap. eapply Forall2_impl; [exact Hl|].
    intros x y Hxy. simpl. by apply num_exp_equiv, num_sub_equiv. }
  pose proof (sum_equiv _ _ He) as Hs.
  apply Forall2_fmap. eapply Forall2_impl; [exact He|].
  intros x y Hxy. simpl. by apply num_div_equiv.
Qed.

Lemma dot_equiv r r' c c' :
  row_equiv r r' → row_equiv c c' → num_equiv (dot r c) (dot r' c').
Proof.
  intros Hr. revert c c'. unfold dot.
  induction Hr as [|x y r r' Hxy _ IH]; intros c c' Hc; [reflexivity|].
  destruct Hc as [|a b c c' Hab Hc]; simpl; [reflexivity|].
  apply num_add_equiv; [by apply num_mul_equiv|by apply IH].
Qed.

Lemma sum_fin l :
  Forall (λ v, is_fin v) l → is_fin (foldr num_add (Fin 0) l).
Proof.
  induction 1 as [|x l Hx _ IH]; simpl; [done|].
  destruct x; try done. by destruct (foldr num_add (Fin 0) l).
Qed.

Lemma dot_fin r c :
  Forall (λ v, is_fin v) r → Forall (λ v, is_fin v) c → is_fin (dot r c).
Proof.
  intros Hr. revert c. unfold dot.
  induction Hr as [|x r Hx _ IH]; intros c Hc; [done|].
  destruct Hc as [|a c Ha Hc]; simpl; [done|].
  specialize (IH c Hc). destruct x, a; try done.
  by destruct (foldr num_add (Fin 0) (zip_with num_mul r c)).
Qed.

(** Transposing twice gives the matrix back. *)
Lemma transpose_m_zip_cons {A} (r : nat) (row : list A) (M : list (list A)) :
  length row = length M →
  transpose_m (S r) (zip_with cons row M) = row :: transpose_m r M.
Proof.
  revert row. induction M as [|R M IH]; intros [|a row] Hlen; try done.
  simpl in Hlen. injection Hlen as Hlen.
  change (zip_with cons (a :: R)
            (transpose_m (S r) (zip_with cons row M))
          = (a :: row) :: transpose_m r (R :: M)).
  by rewrite (IH row Hlen).
Qed.

Lemma transpose_m_nil {A} (c : nat) :
  transpose_m 0 (replicate c (@nil A)) = [].
Proof.
  induction c as [|c IH]; [done|].
  change (zip_with cons [] (transpose_m 0 (replicate c (@nil A))) = []).
  by rewrite IH.
Qed.

Lemma transpose_m_involutive {A} (c : nat) (m : list (list A)) :
  Forall (λ r, length r = c) m →
  transpose_m (length m) (transpose_m c m) = m.
Proof.
  induction 1 as [|r m Hr Hm IH]; [apply transpose_m_nil|].
  change (transpose_m (S (length m)) (zip_with cons r (transpose_m c m))
          = r :: m).
  rewrite transpose_m_zip_cons; [by rewrite IH|].
  by rewrite length_transpose_m.
Qed.

Lemma zip_with_fmap_both {A B C D} (f : B → C → D) (g : A → B) (h : A → C)
    (l : list A) :
  zip_with f (g <$> l) (h <$> l) = (λ x, f (g x) (h x)) <$> l.
Proof. induction l as [|x l IH]; simpl; [done|]. f_equal. apply IH. Qed.

(** *** What the library promises about rows

    A dense layer and layer normalization work on the last axis, row by
    row, with the weights of the layer; a layer applied outside training
    does no dropout; an embedding looks every token up in its table. *)

Hypothesis dense_rowwise : ∀ a, ∃ g : list num → list num,
  (∀ r r', row_equiv r r' → row_equiv (g r) (g r')) ∧
  (∀ r, Forall (λ v, is_fin v) r → Forall (λ v, is_fin v) (g r)) ∧
  ∀ x, wf3 x → data3 (dense_apply a x) = fmap (M:=list) g <$> data3 x.

Hypothesis layerNormalization_rowwise : ∀ a, ∃ g : list num → list num,
  (∀ r r', row_equiv r r' → row_equiv (g r) (g r')) ∧
  (∀ r, Forall (λ v, is_fin v) r → Forall (λ v, is_fin v) (g r)) ∧
  (∀ r, length (g r) = length r) ∧
  ∀ x, wf3 x → data3 (layerNormalization_apply a x) = fmap (M:=list) g <$> data3 x.

Hypothesis dropout_inference : ∀ a x, dropout_apply a x = x.

Hypothesis embedding_rowwise : ∀ a, ∃ g : Z → list num,
  (∀ tok, (0 ≤ tok < Z.of_nat (emb_inputDim a))%Z →
          Forall (λ v, is_fin v) (g tok)) ∧
  (∀ tok, length (g tok) = emb_outputDim a) ∧
  ∀ idx, data3 (embedding_apply a idx) = fmap (M:=list) g <$> data2 idx.

Hypothesis Math_sqrt_pos : ∀ n, 1 ≤ n → ∃ q, Math_sqrt n = Fin q ∧ (0 < q)%Q.

(** *** [Head.apply] on one sequence *)

Lemma zip_with_seq_imap {A B C} (g : B → A → C) (h : nat → B) (l : list A) :
  zip_with g (h <$> seq 0 (length l)) l = imap (λ i x, g (h i) x) l.
Proof.
  revert h. induction l as [|x l IH]; intros h; [done|].
  simpl. f_equal. rewrite <- fmap_S_seq, <- list_fmap_compose.
  apply (IH (h ∘ S)).
Qed.

Lemma tril_mask_rows blockSize T :
  T ≤ blockSize →
  (fmap (M:=list) (λ x, num_eqb x (Fin 0)) <$>
     (cut (0, T) <$>
        cut (0, T) (data2 (bandPart (ones2 blockSize blockSize) (-1) 0))))
  = (λ i, (λ j, i <? j) <$> seq 0 T) <$> seq 0 T.
Proof.
  intros HT. apply list_eq. intros i.
  destruct (decide (i < T)) as [Hi|Hi].
  - rewrite tril_mask_row by done.
    by rewrite list_lookup_fmap, lookup_seq_lt.
  - rewrite !lookup_ge_None_2; [done| |].
    + rewrite length_fmap, length_seq. lia.
    + rewrite !length_fmap, length_cut; [lia|].
      simpl. rewrite length_imap, length_replicate. lia.
Qed.

Lemma Head_scores_data hd x B T C blockSize headSize gq gk :
  head_ok blockSize headSize hd → shape3 x = (B, T, C) → wf3 x →
  data3 (dense_apply (head_query hd) x) = fmap (M:=list) gq <$> data3 x →
  data3 (dense_apply (head_key hd) x) = fmap (M:=list) gk <$> data3 x →
  Head_scores hd x =
    Ok (Tensor3 (B, T, T)
          ((λ X : list (list num),
              scores_m (num_div (Fin 1) (Math_sqrt headSize))
                (gq <$> X) (gk <$> X)) <$> data3 x)).
Proof.
  intros (Hhs & Hk & Hq & _) Hx [Hlen Hmats] Hgq Hgk.
  pose proof (dense_wf (head_key hd) x) as [_ Hkwf].
  rewrite dense_shape, Hx, Hk, Hgk in Hkwf. simpl in Hkwf.
  rewrite Hx in Hlen, Hmats. simpl in Hlen, Hmats.
  unfold Head_scores, matMul, transpose3. simpl.
  rewrite !dense_shape, Hx, Hq, Hk. simpl.
  rewrite bdim_same, Nat.eqb_refl. simpl.
  unfold mul_scalar3, tmap3. simpl. rewrite Hhs. do 2 f_equal.
  rewrite bzip_same, Hgq, Hgk, <- list_fmap_compose, zip_with_fmap_both,
    <- list_fmap_compose.
  apply Forall_fmap_ext. rewrite Forall_forall. intros X HX. simpl.
  rewrite Forall_forall in Hmats. destruct (Hmats X HX) as [HXlen _].
  rewrite Forall_fmap, Forall_forall in Hkwf.
  destruct (Hkwf X HX) as [_ Hrows]. simpl in Hrows.
  unfold matmul_m, scores_m.
  replace T with (length (gk <$> X)) by (by rewrite length_fmap).
  rewrite transpose_m_involutive by done.
  rewrite <- list_fmap_compose. apply list_fmap_ext. intros _ q _. simpl.
  by rewrite <- list_fmap_compose.
Qed.

(** [Head.apply] is [attention] on every sequence of the batch. *)
Lemma Head_apply_attention hd x B T C blockSize headSize gq gk gv :
  head_ok blockSize headSize hd → shape3 x = (B, T, C) → T ≤ blockSize →
  wf3 x →
  data3 (dense_apply (head_query hd) x) = fmap (M:=list) gq <$> data3 x →
  data3 (dense_apply (head_key hd) x) = fmap (M:=list) gk <$> data3 x →
  data3 (dense_apply (head_value hd) x) = fmap (M:=list) gv <$> data3 x →
  Head_apply hd x =
    Ok (Tensor3 (B, T, headSize)
          ((λ X : list (list num),
              attention (num_div (Fin 1) (Math_sqrt headSize)) headSize
                (gq <$> X) (gk <$> X) (gv <$> X)) <$> data3 x)).
Proof.
  intros Hhd Hx HT Hwf Hgq Hgk Hgv.
  pose proof (Head_scores_data _ _ _ _ _ _ _ _ _ Hhd Hx Hwf Hgq Hgk)
    as Hscores.
  pose proof (Head_masked_data _ _ _ _ _ _ _ _ Hhd Hx HT Hscores) as Hm.
  rewrite tril_mask_rows in Hm by done.
  destruct Hhd as (_ & _ & _ & Hv & _). destruct Hwf as [_ Hmats].
  rewrite Hx in Hmats. simpl in Hmats.
  unfold Head_apply, Head_weights. rewrite Hm. simpl.
  rewrite dropout_inference. unfold matMul, softmax3. simpl.
  rewrite dense_shape, Hx, Hv. simpl.
  rewrite bdim_same, Nat.eqb_refl. simpl. do 2 f_equal.
  rewrite bzip_same, Hgv, <- !list_fmap_compose, zip_with_fmap_both.
  apply Forall_fmap_ext. rewrite Forall_forall. intros X HX. simpl.
  rewrite Forall_forall in Hmats. destruct (Hmats X HX) as [HXlen _].
  unfold matmul_m, attention, scores_m.
  set (sc := λ q : list num, (λ k, num_mul (dot q k) _) <$> (gk <$> X)).
  assert (zip_with (zip_with (λ (c : bool) (s : num), if c then NegInf else s))
            ((λ i, (λ j, i <? j) <$> seq 0 T) <$> seq 0 T) (sc <$> (gq <$> X))
          = imap (λ i row,
                    zip_with (λ (c : bool) (s : num), if c then NegInf else s)
                      ((λ j, i <? j) <$> seq 0 T) row)
              (sc <$> (gq <$> X))) as ->.
  { rewrite <- (zip_with_seq_imap
                  (zip_with (λ (c : bool) (s : num), if c then NegInf else s))
                  (λ i, (λ j, i <? j) <$> seq 0 T)).
    by rewrite !length_fmap, HXlen. }
  rewrite imap_fmap, !fmap_imap.
  apply imap_ext. intros i q _. simpl.
  replace T with (length (sc q))
    by (unfold sc; by rewrite !length_fmap).
  by rewrite zip_with_mask_imap.
Qed.

(** *** A row of weights applied to the values *)

Lemma Forall2_zip_with_both {A B C A' B' C'} (f : A → B → C)
    (f' : A' → B' → C') (R : A → A' → Prop) (S : B → B' → Prop)
    (P : C → C' → Prop) l l' k k' :
  (∀ x x' y y', R x x' → S y y' → P (f x y) (f' x' y')) →
  Forall2 R l l' → Forall2 S k k' →
  Forall2 P (zip_with f l k) (zip_with f' l' k').
Proof.
  intros Hf Hl. revert k k'.
  induction Hl as [|x x' l l' Hx _ IH]; intros k k' Hk; [constructor|].
  destruct Hk as [|y y' k k' Hy Hk]; simpl; [constructor|].
  constructor; [by apply Hf|by apply IH].
Qed.

Lemma Forall_zip_with_both {A B C} (f : A → B → C) (P : A → Prop)
    (S : B → Prop) (R : C → Prop) l k :
  (∀ x y, P x → S y → R (f x y)) →
  Forall P l → Forall S k → Forall R (zip_with f l k).
Proof.
  intros Hf Hl. revert k.
  induction Hl as [|x l Hx _ IH]; intros k Hk; [constructor|].
  destruct Hk as [|y k Hy Hk]; simpl; [constructor|].
  constructor; [by apply Hf|by apply IH].
Qed.

Lemma Forall2_both_Forall {A} (P : A → Prop) (l l' : list A) :
  length l = length l' → Forall P l → Forall P l' →
  Forall2 (λ x x', P x ∧ P x') l l'.
Proof.
  intros Hlen Hl. revert l' Hlen.
  induction Hl as [|x l Hx _ IH]; intros [|x' l'] Hlen Hl'; try done.
  apply Forall_cons in Hl' as [Hx' Hl']. simpl in Hlen.
  constructor; [done|]. apply IH; [lia|done].
Qed.

Lemma attend_cons (hs : nat) a w v0 V :
  dot (a :: w) <$> transpose_m hs (v0 :: V)
  = zip_with (λ x y, num_add (num_mul a x) y) v0
      (dot w <$> transpose_m hs V).
Proof.
  change (transpose_m hs (v0 :: V))
    with (zip_with cons v0 (transpose_m hs V)).
  generalize (transpose_m hs V). induction v0 as [|x v0 IH];
    intros [|c M]; simpl; try done.
  f_equal. apply IH.
Qed.

Lemma attend_equiv (hs : nat) w w' V V' :
  row_equiv w w' → length V = length w → length V' = length w →
  Forall (λ r, length r = hs) V → Forall (λ r, length r = hs) V' →
  (∀ j a v v', w !! j = Some a → V !! j = Some v → V' !! j = Some v' →
     row_equiv v v' ∨
     (num_equiv a (Fin 0) ∧
      Forall (λ x, is_fin x) v ∧ Forall (λ x, is_fin x) v')) →
  row_equiv (dot w <$> transpose_m hs V) (dot w' <$> transpose_m hs V').
Proof.
  intros Hw. revert V V'.
  induction Hw as [|a a' w w' Ha Hw IH]; intros V V' HV HV' Hl Hl' Hcond.
  - destruct V, V'; try done. apply row_equiv_refl.
  - destruct V as [|v0 V], V' as [|v0' V']; try done.
    simpl in HV, HV'. apply Forall_cons in Hl as [Hv0 Hl].
    apply Forall_cons in Hl' as [Hv0' Hl'].
    rewrite !attend_cons.
    assert (row_equiv (dot w <$> transpose_m hs V)
              (dot w' <$> transpose_m hs V')) as Hrest.
    { apply IH; [lia|lia|done|done|].
      intros j b v v' Hb Hv Hv'. by apply (Hcond (S j) b v v'). }
    destruct (Hcond 0 a v0 v0' eq_refl eq_refl eq_refl)
      as [Hv|(Hz & Hf & Hf')].
    + eapply Forall2_zip_with_both; [|exact Hv|exact Hrest].
      intros x x' y y' Hx Hy. simpl.
      apply num_add_equiv; [by apply num_mul_equiv|done].
    + eapply Forall2_zip_with_both;
        [|apply (Forall2_both_Forall (λ x, is_fin x) v0 v0');
          [congruence|done|done]|exact Hrest].
      intros x x' y y' [Hx Hx'] Hy. simpl.
      apply num_add_equiv; [|done].
      destruct a as [| | |z]; try done. destruct a' as [| | |z']; try done.
      destruct x as [| | |q]; try done. destruct x' as [| | |q']; try done.
      simpl in *. rewrite <- Ha, Hz. lra.
Qed.

Lemma attend_fin (hs : nat) w V :
  Forall (λ x, is_fin x) w → Forall (Forall (λ x, is_fin x)) V →
  Forall (λ x, is_fin x) (dot w <$> transpose_m hs V).
Proof.
  intros Hw. revert V. induction Hw as [|a w Ha Hw IH]; intros V HV.
  - apply Forall_fmap, Forall_true. intros c. unfold dot. by destruct c.
  - destruct HV as [|v0 V Hv0 HV].
    + unfold transpose_m. simpl. by apply Forall_fmap, Forall_replicate.
    + rewrite attend_cons.
      eapply Forall_zip_with_both; [|exact Hv0|exact (IH V HV)].
      intros x y Hx Hy. simpl. destruct a, x, y; done.
Qed.

(** *** [attention] and the positions it looks at *)

Lemma num_mul_fin x y : is_fin x → is_fin y → is_fin (num_mul x y).
Proof. by destruct x, y. Qed.

Lemma masked_scores_lookup (scale : num) (q : list num) (ks : list (list num))
    (i j : nat) (x : num) :
  imap (λ j s, if i <? j then NegInf else s)
    ((λ k, num_mul (dot q k) scale) <$> ks) !! j = Some x →
  ∃ k, ks !! j = Some k ∧
    x = if i <? j then NegInf else num_mul (dot q k) scale.
Proof.
  rewrite list_lookup_imap, list_lookup_fmap.
  destruct (ks !! j) as [k|]; [|done]. simpl. intros [= <-]. by exists k.
Qed.

Lemma attention_weights_row (scale : num) (q : list num)
    (ks : list (list num)) (i : nat) :
  is_fin scale → Forall (λ x, is_fin x) q →
  Forall (Forall (λ x, is_fin x)) ks → i < length ks →
  let w := softmax_row (imap (λ j s, if i <? j then NegInf else s)
                          ((λ k, num_mul (dot q k) scale) <$> ks)) in
  Forall (λ x, is_fin x) w ∧ length w = length ks ∧
  ∀ j a, i < j → w !! j = Some a → num_equiv a (Fin 0).
Proof.
  intros Hs Hq Hks Hi. simpl.
  set (row := imap _ _).
  assert (length row = length ks) as Hlen
    by (unfold row; by rewrite length_imap, length_fmap).
  assert (Forall (λ x, x = NegInf ∨ is_fin x) row) as Hrow.
  { apply Forall_lookup. intros j x (k & Hk & ->)%masked_scores_lookup.
    destruct (i <? j); [by left|]. right.
    apply num_mul_fin; [|done]. apply dot_fin; [done|].
    rewrite Forall_lookup in Hks. by eapply Hks. }
  assert (Exists (λ x, is_fin x) row) as Hex.
  { destruct (lookup_lt_is_Some_2 row i) as [x Hx]; [lia|].
    apply Exists_exists. exists x. split; [by eapply list_elem_of_lookup_2|].
    apply masked_scores_lookup in Hx as (k & Hk & ->).
    rewrite Nat.ltb_irrefl. apply num_mul_fin; [|done].
    apply dot_fin; [done|]. rewrite Forall_lookup in Hks. by eapply Hks. }
  destruct (softmax_row_distribution row Hrow Hex) as [(ps & Hps & _) Hw].
  split_and!.
  - rewrite Hps. apply Forall_fmap, Forall_true. done.
  - by rewrite softmax_row_length.
  - intros j a Hij Ha.
    destruct (lookup_lt_is_Some_2 row j) as [x Hx].
    { apply lookup_lt_Some in Ha. by rewrite softmax_row_length in Ha. }
    destruct (Hw j x Hx) as (pr & Hpr & _ & Hz). rewrite Hpr in Ha.
    injection Ha as <-. simpl. apply Hz.
    apply masked_scores_lookup in Hx as (k & _ & ->).
    by destruct (Nat.ltb_spec i j); [|lia].
Qed.

Lemma take_lookup_equiv {A} (R : A → A → Prop) n (l l' : list A) i x x' :
  Forall2 R (take n l) (take n l') → i < n →
  l !! i = Some x → l' !! i = Some x' → R x x'.
Proof.
  intros HR Hi Hx Hx'.
  eapply (Forall2_lookup_lr _ _ _ i); [exact HR| |];
    by rewrite lookup_take_lt.
Qed.

Lemma attention_same_upto (scale : num) (hs n T : nat)
    (qs qs' ks ks' vs vs' : list (list num)) :
  is_fin scale →
  length qs = T → length ks = T → length vs = T →
  length qs' = T → length ks' = T → length vs' = T →
  Forall (Forall (λ x, is_fin x)) qs → Forall (Forall (λ x, is_fin x)) ks →
  Forall (Forall (λ x, is_fin x)) vs → Forall (Forall (λ x, is_fin x)) vs' →
  Forall (λ r, length r = hs) vs → Forall (λ r, length r = hs) vs' →
  mat_equiv (take n qs) (take n qs') → mat_equiv (take n ks) (take n ks') →
  mat_equiv (take n vs) (take n vs') →
  mat_equiv (take n (attention scale hs qs ks vs))
    (take n (attention scale hs qs' ks' vs')).
Proof.
  intros Hs Hq Hk Hv Hq' Hk' Hv' Fq Fk Fv Fv' Lv Lv' Eq Ek Ev.
  apply Forall2_same_length_lookup_2.
  { unfold attention. rewrite !length_take, !length_imap. lia. }
  intros i r r' [Hr Hi]%lookup_take_Some [Hr' _]%lookup_take_Some.
  unfold attention in Hr, Hr'. rewrite list_lookup_imap in Hr, Hr'.
  destruct (qs !! i) as [q|] eqn:Hqi; [|done].
  destruct (qs' !! i) as [q'|] eqn:Hqi'; [|done].
  simpl in Hr, Hr'. injection Hr as <-. injection Hr' as <-.
  assert (row_equiv q q') as Hqq
    by (by apply (take_lookup_equiv row_equiv n qs qs' i q q' Eq)).
  assert (i < length ks) as HiT by (apply lookup_lt_Some in Hqi; lia).
  assert (Forall (λ x, is_fin x) q) as Hfq
    by (rewrite Forall_lookup in Fq; by eapply Fq).
  destruct (attention_weights_row scale q ks i Hs Hfq Fk HiT)
    as (_ & Hwlen & Hzero).
  apply attend_equiv; [|lia|lia|done|done|].
  - apply softmax_row_equiv. apply Forall2_same_length_lookup_2.
    { rewrite !length_imap, !length_fmap. lia. }
    intros j x x' (k & Hkj & ->)%masked_scores_lookup
      (k' & Hkj' & ->)%masked_scores_lookup.
    destruct (Nat.ltb_spec i j) as [Hij|Hij]; [done|].
    apply num_mul_equiv; [|apply num_equiv_refl].
    apply dot_equiv; [done|].
    apply (take_lookup_equiv row_equiv n ks ks' j k k' Ek); [lia|done|done].
  - intros j a v v' Ha Hvj Hvj'.
    destruct (decide (j < n)) as [Hj|Hj].
    + left. by apply (take_lookup_equiv row_equiv n vs vs' j v v' Ev).
    + right. split_and!.
      * apply (Hzero j a); [lia|done].
      * rewrite Forall_lookup in Fv. by eapply Fv.
      * rewrite Forall_lookup in Fv'. by eapply Fv'.
Qed.

Lemma attention_fin (scale : num) (hs T : nat) (qs ks vs : list (list num)) :
  is_fin scale → length qs = T → length ks = T →
  Forall (Forall (λ x, is_fin x)) qs → Forall (Forall (λ x, is_fin x)) ks →
  Forall (Forall (λ x, is_fin x)) vs →
  Forall (Forall (λ x, is_fin x)) (attention scale hs qs ks vs).
Proof.
  intros Hs Hq Hk Fq Fk Fv. apply Forall_lookup. intros i r Hr.
  unfold attention in Hr. rewrite list_lookup_imap in Hr.
  destruct (qs !! i) as [q|] eqn:Hqi; [|done].
  simpl in Hr. injection Hr as <-.
  assert (i < length ks) as HiT by (apply lookup_lt_Some in Hqi; lia).
  assert (Forall (λ x, is_fin x) q) as Hfq
    by (rewrite Forall_lookup in Fq; by eapply Fq).
  destruct (attention_weights_row scale q ks i Hs Hfq Fk HiT) as (Hw & _).
  by apply attend_fin.
Qed.

(** *** The layers, position by position *)

Lemma rowwise_same_upto (n : nat) (g : list num → list num)
    (d d' : list (list (list num))) :
  (∀ r r', row_equiv r r' → row_equiv (g r) (g r')) →
  Forall2 (λ m m', mat_equiv (take n m) (take n m')) d d' →
  Forall2 (λ m m', mat_equiv (take n m) (take n m'))
    (fmap (M:=list) g <$> d) (fmap (M:=list) g <$> d').
Proof.
  intros Hg Hd. apply Forall2_fmap. eapply Forall2_impl; [exact Hd|].
  intros m m' Hm. simpl. rewrite <- !fmap_take. apply Forall2_fmap.
  eapply Forall2_impl; [exact Hm|]. intros r r' Hr. by apply Hg.
Qed.

Lemma rowwise_fin (g : list num → list num) (d : list (list (list num))) :
  (∀ r, Forall (λ v, is_fin v) r → Forall (λ v, is_fin v) (g r)) →
  Forall (Forall (Forall (λ v, is_fin v))) d →
  Forall (Forall (Forall (λ v, is_fin v))) (fmap (M:=list) g <$> d).
Proof.
  intros Hg Hd. apply Forall_fmap. eapply Forall_impl; [exact Hd|].
  intros m Hm. simpl. apply Forall_fmap. eapply Forall_impl; [exact Hm|].
  intros r Hr. by apply Hg.
Qed.

Lemma same_upto_refl n x : same_upto n x x.
Proof.
  split; [done|]. apply Forall_Forall2_diag, Forall_true. intros m.
  apply mat_equiv_refl.
Qed.

Lemma dense_fin_tensor a x B T C :
  fin_tensor B T C x → fin_tensor B T (dense_units a) (dense_apply a x).
Proof.
  intros (Hx & Hwf & Hfin). split_and!.
  - by rewrite dense_shape, Hx.
  - apply dense_wf.
  - destruct (dense_rowwise a) as (g & _ & Hg & Hdata).
    unfold fin3. rewrite Hdata by done. by apply rowwise_fin.
Qed.

Lemma dense_same_upto a n x x' :
  wf3 x → wf3 x' → same_upto n x x' →
  same_upto n (dense_apply a x) (dense_apply a x').
Proof.
  intros Hwf Hwf' [Hs Hd]. split; [by rewrite !dense_shape, Hs|].
  destruct (dense_rowwise a) as (g & Hg & _ & Hdata).
  rewrite !Hdata by done. by apply rowwise_same_upto.
Qed.

Lemma layerNormalization_fin_tensor a x B T C :
  fin_tensor B T C x → fin_tensor B T C (layerNormalization_apply a x).
Proof.
  intros (Hx & Hwf & Hfin).
  destruct (layerNormalization_rowwise a) as (g & _ & Hg & Hlen & Hdata).
  split_and!.
  - by rewrite layerNormalization_shape.
  - destruct Hwf as [Hl Hmats]. split.
    + by rewrite (Hdata x), length_fmap, layerNormalization_shape.
    + rewrite (Hdata x), layerNormalization_shape by done.
      apply Forall_fmap. eapply Forall_impl; [exact Hmats|].
      intros m [Hm Hrows]. simpl. split; [by rewrite length_fmap|].
      apply Forall_fmap. eapply Forall_impl; [exact Hrows|].
      intros r Hr. simpl. by rewrite Hlen.
  - unfold fin3. rewrite Hdata by done. by apply rowwise_fin.
Qed.

Lemma layerNormalization_same_upto a n x x' :
  wf3 x → wf3 x' → same_upto n x x' →
  same_upto n (layerNormalization_apply a x) (layerNormalization_apply a x').
Proof.
  intros Hwf Hwf' [Hs Hd].
  split; [by rewrite !layerNormalization_shape, Hs|].
  destruct (layerNormalization_rowwise a) as (g & Hg & _ & _ & Hdata).
  rewrite !Hdata by done. by apply rowwise_same_upto.
Qed.

Lemma num_add_fin x y : is_fin x → is_fin y → is_fin (num_add x y).
Proof. by destruct x, y. Qed.

Lemma add3_fin_tensor a b B T C :
  fin_tensor B T C a → fin_tensor B T C b →
  ∃ c, add3 a b = Ok c ∧ fin_tensor B T C c ∧
    data3 c = zip_with (zip_with (zip_with num_add)) (data3 a) (data3 b).
Proof.
  intros (Ha & [Hla Hma] & Hfa) (Hb & [Hlb Hmb] & Hfb).
  unfold add3. rewrite (binop3_same _ _ a b (B, T, C)) by done.
  eexists. split; [done|]. split; [|done].
  rewrite Ha in Hla, Hma. rewrite Hb in Hlb, Hmb. simpl in *.
  split_and!; [done| |].
  - split; simpl; [rewrite length_zip_with; lia|].
    eapply Forall_zip_with_both; [|exact Hma|exact Hmb].
    intros m m' [Hm Hr] [Hm' Hr']. simpl.
    split; [rewrite length_zip_with; lia|].
    eapply Forall_zip_with_both; [|exact Hr|exact Hr'].
    intros r r' Hlr Hlr'. simpl in Hlr, Hlr' |- *.
    rewrite length_zip_with. lia.
  - unfold fin3. simpl.
    eapply Forall_zip_with_both; [|exact Hfa|exact Hfb].
    intros m m' Hm Hm'. simpl.
    eapply Forall_zip_with_both; [|exact Hm|exact Hm'].
    intros r r' Hr Hr'. simpl.
    eapply Forall_zip_with_both; [|exact Hr|exact Hr'].
    intros v v'. apply num_add_fin.
Qed.

Lemma add3_same_upto n a a' b b' c c' :
  same_upto n a a' → same_upto n b b' →
  data3 c = zip_with (zip_with (zip_with num_add)) (data3 a) (data3 b) →
  data3 c' = zip_with (zip_with (zip_with num_add)) (data3 a') (data3 b') →
  shape3 c = shape3 c' →
  same_upto n c c'.
Proof.
  intros [_ Ha] [_ Hb] Hc Hc' Hs. split; [done|]. rewrite Hc, Hc'.
  eapply Forall2_zip_with_both; [|exact Ha|exact Hb].
  intros m m' k k' Hm Hk. simpl. rewrite !zip_with_take.
  eapply Forall2_zip_with_both; [|exact Hm|exact Hk].
  intros r r' s s' Hr Hs'. simpl.
  eapply Forall2_zip_with_both; [|exact Hr|exact Hs'].
  intros v v' u u'. apply num_add_equiv.
Qed.

Lemma scale_fin (hs : nat) :
  1 ≤ hs → is_fin (num_div (Fin 1) (Math_sqrt hs)).
Proof.
  intros Hhs. destruct (Math_sqrt_pos hs Hhs) as (q & -> & Hq). simpl.
  destruct (Qeq_bool q 0) eqn:Hz; [|done].
  apply Qeq_bool_eq in Hz. lra.
Qed.

Lemma fmap_rows_fin (g : list num → list num) (X : list (list num)) :
  (∀ r, Forall (λ v, is_fin v) r → Forall (λ v, is_fin v) (g r)) →
  Forall (Forall (λ v, is_fin v)) X →
  Forall (Forall (λ v, is_fin v)) (g <$> X).
Proof.
  intros Hg HX. apply Forall_fmap. eapply Forall_impl; [exact HX|]. done.
Qed.

Lemma fmap_rows_equiv (g : list num → list num) n (X X' : list (list num)) :
  (∀ r r', row_equiv r r' → row_equiv (g r) (g r')) →
  mat_equiv (take n X) (take n X') →
  mat_equiv (take n (g <$> X)) (take n (g <$> X')).
Proof.
  intros Hg HX. rewrite <- !fmap_take. apply Forall2_fmap.
  eapply Forall2_impl; [exact HX|]. done.
Qed.

Lemma Head_apply_rows hd x B T C blockSize headSize gq gk gv :
  head_ok blockSize headSize hd → 1 ≤ headSize → T ≤ blockSize →
  fin_tensor B T C x →
  (∀ r, Forall (λ v, is_fin v) r → Forall (λ v, is_fin v) (gq r)) →
  (∀ r, Forall (λ v, is_fin v) r → Forall (λ v, is_fin v) (gk r)) →
  (∀ r, Forall (λ v, is_fin v) r → Forall (λ v, is_fin v) (gv r)) →
  (∀ x, wf3 x →
     data3 (dense_apply (head_query hd) x) = fmap (M:=list) gq <$> data3 x) →
  (∀ x, wf3 x →
     data3 (dense_apply (head_key hd) x) = fmap (M:=list) gk <$> data3 x) →
  (∀ x, wf3 x →
     data3 (dense_apply (head_value hd) x) = fmap (M:=list) gv <$> data3 x) →
  let y :=
    Tensor3 (B, T, headSize)
      ((λ X : list (list num),
          attention (num_div (Fin 1) (Math_sqrt headSize)) headSize
            (gq <$> X) (gk <$> X) (gv <$> X)) <$> data3 x) in
  Head_apply hd x = Ok y ∧ fin_tensor B T headSize y ∧
  Forall (λ X, Forall (λ r, length r = headSize) (gv <$> X)) (data3 x).
Proof.
  intros Hhd Hhs HT (Hx & Hwf & Hfin) Fq Fk Fv Hq Hk Hv y.
  assert (Forall (λ X, Forall (λ r, length r = headSize) (gv <$> X))
            (data3 x)) as Hvlen.
  { pose proof (dense_wf (head_value hd) x) as [_ Hvwf].
    destruct Hhd as (_ & _ & _ & Hu & _).
    rewrite dense_shape, Hx, Hu, Hv in Hvwf by done. simpl in Hvwf.
    rewrite Forall_fmap in Hvwf. eapply Forall_impl; [exact Hvwf|].
    by intros X [_ HX]. }
  split_and!; [| |done].
  { by apply (Head_apply_attention hd x B T C blockSize headSize gq gk gv);
      auto. }
  destruct Hwf as [Hlen Hmats]. rewrite Hx in Hlen, Hmats.
  simpl in Hlen, Hmats. unfold y. split_and!; [done| |].
  - split; simpl; [by rewrite length_fmap|].
    apply Forall_fmap. rewrite Forall_forall in Hmats, Hvlen.
    apply Forall_forall. intros X HX. simpl.
    destruct (Hmats X HX) as [HXlen _]. split.
    + unfold attention. by rewrite length_imap, length_fmap.
    + unfold attention. apply Forall_lookup. intros i r Hr.
      rewrite list_lookup_imap in Hr.
      destruct ((gq <$> X) !! i); [|done]. simpl in Hr. injection Hr as <-.
      rewrite length_fmap. apply length_transpose_m. by apply Hvlen.
  - unfold fin3. simpl. apply Forall_fmap.
    rewrite Forall_forall in Hmats. unfold fin3 in Hfin.
    rewrite Forall_forall in Hfin.
    apply Forall_forall. intros X HX. simpl.
    destruct (Hmats X HX) as [HXlen _]. specialize (Hfin X HX).
    apply (attention_fin _ _ T); rewrite ?length_fmap;
      [by apply scale_fin|done|done|by apply fmap_rows_fin..].
Qed.

(** In [Head.apply], what the head returns at a position depends on the
    input at this position and the positions before it only. *)
Lemma Head_apply_same_upto hd x x' n B T C blockSize headSize :
  head_ok blockSize headSize hd → 1 ≤ headSize → T ≤ blockSize →
  fin_tensor B T C x → fin_tensor B T C x' → same_upto n x x' →
  ∃ y y', Head_apply hd x = Ok y ∧ Head_apply hd x' = Ok y' ∧
    fin_tensor B T headSize y ∧ fin_tensor B T headSize y' ∧
    same_upto n y y'.
Proof.
  intros Hhd Hhs HT Hx Hx' [_ Hsame].
  destruct (dense_rowwise (head_query hd)) as (gq & Eq & Fq & Hq).
  destruct (dense_rowwise (head_key hd)) as (gk & Ek & Fk & Hk).
  destruct (dense_rowwise (head_value hd)) as (gv & Ev & Fv & Hv).
  destruct (Head_apply_rows hd x B T C blockSize headSize gq gk gv)
    as (Hy & Hgood & Hvlen); try done.
  destruct (Head_apply_rows hd x' B T C blockSize headSize gq gk gv)
    as (Hy' & Hgood' & Hvlen'); try done.
  eexists _, _. split_and!; [exact Hy|exact Hy'|exact Hgood|exact Hgood'|].
  split; [done|]. simpl.
  destruct Hx as (Hs & [_ Hmats] & Hfin).
  destruct Hx' as (Hs' & [_ Hmats'] & Hfin').
  rewrite Hs in Hmats. rewrite Hs' in Hmats'. simpl in Hmats, Hmats'.
  unfold fin3 in Hfin, Hfin'.
  apply Forall2_fmap. apply Forall2_same_length_lookup_2.
  { by eapply Forall2_length. }
  intros b X X' HX HX'.
  pose proof (Forall2_lookup_lr _ _ _ _ _ _ Hsame HX HX') as HXX.
  simpl in HXX.
  rewrite Forall_lookup in Hmats, Hmats', Hfin, Hfin', Hvlen, Hvlen'.
  destruct (Hmats _ _ HX) as [HXlen _].
  destruct (Hmats' _ _ HX') as [HXlen' _].
  apply (attention_same_upto _ _ _ T); rewrite ?length_fmap; try done.
  - by apply scale_fin.
  - apply fmap_rows_fin; [done|]. by eapply Hfin.
  - apply fmap_rows_fin; [done|]. by eapply Hfin.
  - apply fmap_rows_fin; [done|]. by eapply Hfin.
  - apply fmap_rows_fin; [done|]. by eapply Hfin'.
  - by eapply Hvlen.
  - by eapply Hvlen'.
  - by apply fmap_rows_equiv.
  - by apply fmap_rows_equiv.
  - by apply fmap_rows_equiv.
Qed.

(** *** [CausalSelfAttention] *)

Lemma fin_tensor_rows B T C x :
  fin_tensor B T C x ↔ shape3 x = (B, T, C) ∧ fin_rows B T C (data3 x).
Proof.
  unfold fin_tensor, wf3, fin3, fin_rows. split.
  - intros (Hs & [Hlen Hmats] & Hfin). rewrite Hs in Hlen, Hmats.
    simpl in Hlen, Hmats. split_and!; [done..|].
    apply Forall_lookup. intros b m Hm.
    rewrite Forall_lookup in Hmats, Hfin.
    destruct (Hmats b m Hm) as [Hl Hrows]. split; [done|].
    apply Forall_lookup. intros i r Hr.
    rewrite Forall_lookup in Hrows. split; [by eapply Hrows|].
    specialize (Hfin b m Hm). rewrite Forall_lookup in Hfin.
    by eapply Hfin.
  - intros (Hs & Hlen & Hmats). rewrite Hs. simpl. split_and!; [done..| |].
    + eapply Forall_impl; [exact Hmats|]. intros m [Hl Hrows].
      split; [done|]. eapply Forall_impl; [exact Hrows|]. by intros r [? _].
    + eapply Forall_impl; [exact Hmats|]. intros m [Hl Hrows].
      eapply Forall_impl; [exact Hrows|]. by intros r [_ ?].
Qed.

Lemma concat_rows_fin B T (ys : list (tensor3 num)) :
  Forall (λ u, ∃ C, fin_tensor B T C u) ys →
  fin_rows B T (foldr (λ u n, (shape3 u).2 + n) 0 ys)
    (foldr (λ u acc, zip_with (zip_with app) (data3 u) acc)
       (replicate B (replicate T [])) ys).
Proof.
  induction 1 as [|u ys [C Hu] _ [IHlen IH]]; simpl.
  - split; [by rewrite length_replicate|].
    apply Forall_replicate. split; [by rewrite length_replicate|].
    by apply Forall_replicate.
  - apply fin_tensor_rows in Hu as (Hs & Hlen & Hmats). rewrite Hs. simpl.
    split; [rewrite length_zip_with; lia|].
    eapply Forall_zip_with_both; [|exact Hmats|exact IH].
    intros m m' [Hm Hr] [Hm' Hr']. simpl.
    split; [rewrite length_zip_with; lia|].
    eapply Forall_zip_with_both; [|exact Hr|exact Hr'].
    intros r r' [Hl Hf] [Hl' Hf']. simpl.
    split; [rewrite length_app; lia|by apply Forall_app].
Qed.

Lemma concat_rows_same_upto n (d0 : list (list (list num)))
    (ys ys' : list (tensor3 num)) :
  Forall2 (same_upto n) ys ys' →
  Forall2 (λ m m', mat_equiv (take n m) (take n m'))
    (foldr (λ u acc, zip_with (zip_with app) (data3 u) acc) d0 ys)
    (foldr (λ u acc, zip_with (zip_with app) (data3 u) acc) d0 ys').
Proof.
  induction 1 as [|u u' ys ys' [_ Hu] _ IH]; simpl.
  - apply Forall_Forall2_diag, Forall_true. intros m. apply mat_equiv_refl.
  - eapply Forall2_zip_with_both; [|exact Hu|exact IH].
    intros m m' k k' Hm Hk. simpl. rewrite !zip_with_take.
    eapply Forall2_zip_with_both; [|exact Hm|exact Hk].
    intros r r' s s' Hr Hs. simpl. by apply Forall2_app.
Qed.

Lemma concat3_last_fin_tensor B T (ys : list (tensor3 num)) :
  ys ≠ [] → Forall (λ u, ∃ C, fin_tensor B T C u) ys →
  ∃ c, concat3_last ys = Ok c ∧
    fin_tensor B T (foldr (λ u n, (shape3 u).2 + n) 0 ys) c ∧
    data3 c = foldr (λ u acc, zip_with (zip_with app) (data3 u) acc)
                (replicate B (replicate T [])) ys.
Proof.
  intros Hne Hall. pose proof (concat_rows_fin B T ys Hall) as Hrows.
  destruct ys as [|t ts]; [done|].
  assert (Forall (λ u, (shape3 u).1 = (B, T)) (t :: ts)) as Hshapes.
  { eapply Forall_impl; [exact Hall|]. intros u (C & Hs & _). by rewrite Hs. }
  apply Forall_cons in Hshapes as [Ht Hts]. unfold concat3_last.
  assert (forallb (λ u, ((shape3 u).1.1 =? (shape3 t).1.1) &&
                        ((shape3 u).1.2 =? (shape3 t).1.2)) ts = true)
    as ->.
  { apply forallb_forall. intros u Hu.
    rewrite Forall_forall in Hts. apply list_elem_of_In, Hts in Hu.
    rewrite Ht, Hu. simpl. by rewrite !Nat.eqb_refl. }
  eexists. split; [done|]. rewrite Ht. simpl. split; [|done].
  apply fin_tensor_rows. simpl. split; [done|exact Hrows].
Qed.

Lemma Forall2_fst {A B} (R : A → B → Prop) (P : A → Prop) l k :
  Forall2 R l k → (∀ x y, R x y → P x) → Forall P l.
Proof. induction 1; intros HP; constructor; eauto. Qed.

Lemma Forall2_snd {A B} (R : A → B → Prop) (P : B → Prop) l k :
  Forall2 R l k → (∀ x y, R x y → P y) → Forall P k.
Proof. induction 1; intros HP; constructor; eauto. Qed.

Lemma same_upto_widths n (ys ys' : list (tensor3 num)) :
  Forall2 (same_upto n) ys ys' →
  foldr (λ u k, (shape3 u).2 + k) 0 ys
  = foldr (λ u k, (shape3 u).2 + k) 0 ys'.
Proof.
  induction 1 as [|u u' ys ys' [Hs _] _ IH]; simpl; [done|].
  by rewrite Hs, IH.
Qed.

Lemma mapM_result_Forall2 {A B} (f f' : A → result B) (R : B → B → Prop) l :
  (∀ a, a ∈ l → ∃ b b', f a = Ok b ∧ f' a = Ok b' ∧ R b b') →
  ∃ bs bs', mapM f l = Ok bs ∧ mapM f' l = Ok bs' ∧ Forall2 R bs bs' ∧
    length bs = length l.
Proof.
  induction l as [|a l IH]; intros Hf; simpl.
  - by exists [], [].
  - destruct (Hf a) as (b & b' & Hb & Hb' & HR); [left|].
    destruct IH as (bs & bs' & Hbs & Hbs' & HRs & Hlen).
    { intros a' Ha'. apply Hf. by right. }
    exists (b :: bs), (b' :: bs'). rewrite Hb, Hb'. simpl.
    rewrite Hbs, Hbs'. simpl.
    split_and!; [done|done|by constructor|by f_equal].
Qed.

Lemma head_size_pos nEmbd nHead :
  1 ≤ nEmbd → nHead ≠ 0 → nEmbd mod nHead = 0 → 1 ≤ nEmbd / nHead.
Proof.
  intros Hn Hh Hmod. pose proof (Nat.div_mod nEmbd nHead Hh) as Hdiv.
  rewrite Hmod in Hdiv. destruct (nEmbd / nHead); lia.
Qed.

Lemma CausalSelfAttention_apply_same_upto a x x' n B T nEmbd blockSize nHead :
  attn_ok nEmbd blockSize nHead a → 1 ≤ nEmbd → T ≤ blockSize →
  fin_tensor B T nEmbd x → fin_tensor B T nEmbd x' → same_upto n x x' →
  ∃ y y', CausalSelfAttention_apply a x = Ok y ∧
    CausalSelfAttention_apply a x' = Ok y' ∧
    fin_tensor B T nEmbd y ∧ fin_tensor B T nEmbd y' ∧ same_upto n y y'.
Proof.
  intros (Hn & Hmod & Hlen & Hheads & Hproj) HE HT Hx Hx' Hsame.
  unfold CausalSelfAttention_apply.
  destruct (mapM_result_Forall2 (λ head, Head_apply head x)
              (λ head, Head_apply head x')
              (λ y y', fin_tensor B T (nEmbd / nHead) y ∧
                       fin_tensor B T (nEmbd / nHead) y' ∧ same_upto n y y')
              (attn_heads a))
    as (ys & ys' & -> & -> & Hys & Hlen').
  { intros hd Hhd. rewrite Forall_forall in Hheads.
    destruct (Head_apply_same_upto hd x x' n B T nEmbd blockSize
                (nEmbd / nHead))
      as (y & y' & Hy & Hy' & H1 & H2 & H3);
      [by apply Hheads|by apply head_size_pos|done..|].
    by exists y, y'. }
  simpl.
  assert (ys ≠ [] ∧ ys' ≠ []) as [Hne Hne'].
  { apply Forall2_length in Hys.
    split; intros ->; simpl in *; lia. }
  assert (Forall2 (same_upto n) ys ys') as Hsames.
  { eapply Forall2_impl; [exact Hys|]. by intros y y' (_ & _ & ?). }
  destruct (concat3_last_fin_tensor B T ys Hne) as (c & -> & Hc & Hdc).
  { eapply Forall2_fst; [exact Hys|]. intros y y' (? & _). by eexists. }
  destruct (concat3_last_fin_tensor B T ys' Hne') as (c' & -> & Hc' & Hdc').
  { eapply Forall2_snd; [exact Hys|]. intros y y' (_ & ? & _). by eexists. }
  simpl. rewrite !dropout_inference.
  rewrite <- (same_upto_widths n ys ys' Hsames) in Hc'.
  eexists _, _. split_and!; [done|done| | |].
  - rewrite <- Hproj. by eapply dense_fin_tensor.
  - rewrite <- Hproj. by eapply dense_fin_tensor.
  - destruct Hc as (Hsc & Hwc & _). destruct Hc' as (Hsc' & Hwc' & _).
    apply dense_same_upto; [done..|].
    split; [by rewrite Hsc, Hsc'|]. rewrite Hdc, Hdc'.
    by apply concat_rows_same_upto.
Qed.

(** *** [FeedForward], [Block] and the blocks in a row *)

Lemma FeedForward_apply_fin_tensor f x B T C :
  fin_tensor B T C x →
  fin_tensor B T (dense_units (ffwd_cProj f)) (FeedForward_apply f x).
Proof.
  intros Hx. unfold FeedForward_apply. rewrite dropout_inference.
  eapply dense_fin_tensor, dense_fin_tensor, Hx.
Qed.

Lemma FeedForward_apply_same_upto f n x x' :
  wf3 x → wf3 x' → same_upto n x x' →
  same_upto n (FeedForward_apply f x) (FeedForward_apply f x').
Proof.
  intros Hwf Hwf' Hsame. unfold FeedForward_apply.
  rewrite !dropout_inference.
  apply dense_same_upto; [apply dense_wf..|]. by apply dense_same_upto.
Qed.

Lemma Block_apply_same_upto b x x' n B T nEmbd blockSize nHead :
  block_ok nEmbd blockSize nHead b → 1 ≤ nEmbd → T ≤ blockSize →
  fin_tensor B T nEmbd x → fin_tensor B T nEmbd x' → same_upto n x x' →
  ∃ y y', Block_apply b x = Ok y ∧ Block_apply b x' = Ok y' ∧
    fin_tensor B T nEmbd y ∧ fin_tensor B T nEmbd y' ∧ same_upto n y y'.
Proof.
  intros (Hattn & _ & Hmlp) HE HT Hx Hx' Hsame. unfold Block_apply.
  pose proof (layerNormalization_fin_tensor (block_ln1 b) _ _ _ _ Hx) as Hl.
  pose proof (layerNormalization_fin_tensor (block_ln1 b) _ _ _ _ Hx') as Hl'.
  destruct (CausalSelfAttention_apply_same_upto (block_attn b)
              (layerNormalization_apply (block_ln1 b) x)
              (layerNormalization_apply (block_ln1 b) x')
              n B T nEmbd blockSize nHead)
    as (a & a' & -> & -> & Ha & Ha' & Haa); [done..| |].
  { apply layerNormalization_same_upto; [apply Hx|apply Hx'|done]. }
  simpl.
  destruct (add3_fin_tensor x a B T nEmbd Hx Ha) as (x1 & -> & Hx1 & Hd1).
  destruct (add3_fin_tensor x' a' B T nEmbd Hx' Ha')
    as (x1' & -> & Hx1' & Hd1').
  simpl.
  assert (same_upto n x1 x1') as Hsame1.
  { eapply add3_same_upto; [exact Hsame|exact Haa|done|done|].
    destruct Hx1 as [-> _]. by destruct Hx1' as [-> _]. }
  pose proof (layerNormalization_fin_tensor (block_ln2 b) _ _ _ _ Hx1) as H2.
  pose proof (layerNormalization_fin_tensor (block_ln2 b) _ _ _ _ Hx1')
    as H2'.
  pose proof (FeedForward_apply_fin_tensor (block_mlp b) _ _ _ _ H2) as Hf.
  pose proof (FeedForward_apply_fin_tensor (block_mlp b) _ _ _ _ H2') as Hf'.
  rewrite Hmlp in Hf, Hf'.
  destruct (add3_fin_tensor x1 _ B T nEmbd Hx1 Hf) as (x2 & -> & Hx2 & Hd2).
  destruct (add3_fin_tensor x1' _ B T nEmbd Hx1' Hf')
    as (x2' & -> & Hx2' & Hd2').
  simpl. eexists _, _. split_and!; [done..|].
  eapply add3_same_upto; [exact Hsame1| |done|done|].
  - apply FeedForward_apply_same_upto; [apply H2|apply H2'|].
    apply layerNormalization_same_upto; [apply Hx1|apply Hx1'|done].
  - destruct Hx2 as [-> _]. by destruct Hx2' as [-> _].
Qed.

Lemma forEach_block_same_upto bs x x' n B T nEmbd blockSize nHead :
  Forall (block_ok nEmbd blockSize nHead) bs → 1 ≤ nEmbd → T ≤ blockSize →
  fin_tensor B T nEmbd x → fin_tensor B T nEmbd x' → same_upto n x x' →
  ∃ y y', forEach_block bs x = Ok y ∧ forEach_block bs x' = Ok y' ∧
    fin_tensor B T nEmbd y ∧ fin_tensor B T nEmbd y' ∧ same_upto n y y'.
Proof.
  intros Hbs HE HT. revert x x'.
  induction Hbs as [|b bs Hb Hbs IH]; intros x x' Hx Hx' Hsame; simpl.
  - by eexists _, _.
  - destruct (Block_apply_same_upto b x x' n B T nEmbd blockSize nHead)
      as (y & y' & -> & -> & Hy & Hy' & Hyy); [done..|].
    simpl. by apply IH.
Qed.

(** *** [model.apply] *)

Lemma embedding_fin_tensor a idx B T :
  wf2 idx → shape2 idx = (B, T) →
  Forall (Forall (λ tok, (0 ≤ tok < Z.of_nat (emb_inputDim a))%Z))
    (data2 idx) →
  fin_tensor B T (emb_outputDim a) (embedding_apply a idx).
Proof.
  intros [Hlen Hrows] Hs Hrange.
  destruct (embedding_rowwise a) as (g & Hfin & Hwidth & Hdata).
  rewrite Hs in Hlen, Hrows. simpl in Hlen, Hrows.
  apply fin_tensor_rows. split; [by rewrite embedding_shape, Hs|].
  rewrite Hdata. split; [by rewrite length_fmap|].
  apply Forall_fmap, Forall_lookup. intros b row Hrow.
  rewrite Forall_lookup in Hrows, Hrange. simpl.
  split; [rewrite length_fmap; by eapply Hrows|].
  apply Forall_fmap. eapply Forall_impl; [by eapply Hrange|].
  intros tok Htok. simpl. split; [apply Hwidth|by apply Hfin].
Qed.

Lemma embedding_same_upto a n idx idx' :
  shape2 idx = shape2 idx' →
  Forall2 (λ row row', take n row = take n row') (data2 idx) (data2 idx') →
  same_upto n (embedding_apply a idx) (embedding_apply a idx').
Proof.
  intros Hs Hrows. destruct (embedding_rowwise a) as (g & _ & _ & Hdata).
  split; [by rewrite !embedding_shape, Hs|]. rewrite !Hdata.
  apply Forall2_fmap. eapply Forall2_impl; [exact Hrows|].
  intros row row' Hrow. simpl. rewrite <- !fmap_take, Hrow.
  apply mat_equiv_refl.
Qed.

Lemma GPT_wpe_inputDim p log log' m :
  GPT p log = (log', Ok m) →
  emb_inputDim (wpe (transformer m)) = blockSize p.
Proof.
  unfold GPT.
  intros (log1 & wte0 & [= <- <-] & Hrest)%ctor_bind_Ok.
  apply ctor_bind_Ok in Hrest as (log2 & wpe0 & [= <- <-] & Hrest).
  apply ctor_bind_Ok in Hrest as (log3 & drop0 & [= <- <-] & Hrest).
  apply ctor_bind_Ok in Hrest as (log4 & add0 & [= <- <-] & Hrest).
  apply ctor_bind_Ok in Hrest as (log5 & blocks & Hblocks & Hrest).
  by injection Hrest as <- <-.
Qed.

Lemma GPT_apply_same_upto (p0 : ModelParams) (log log' : list tf_layer)
    (m : Model) (idx idx' : tensor2 Z) (B n : nat) :
  GPT p0 log = (log', Ok m) → 1 ≤ nEmbd p0 →
  wf2 idx → wf2 idx' →
  shape2 idx = (B, blockSize p0) → shape2 idx' = (B, blockSize p0) →
  Forall (Forall (λ tok, (0 ≤ tok ≤ Z.of_nat (vocabSize p0))%Z))
    (data2 idx) →
  Forall (Forall (λ tok, (0 ≤ tok ≤ Z.of_nat (vocabSize p0))%Z))
    (data2 idx') →
  Forall2 (λ row row', take n row = take n row') (data2 idx) (data2 idx') →
  ∃ logits logits',
    GPT_apply m idx = Ok logits ∧ GPT_apply m idx' = Ok logits' ∧
    fin_tensor B (blockSize p0) (vocabSize p0) logits ∧
    fin_tensor B (blockSize p0) (vocabSize p0) logits' ∧
    same_upto n logits logits'.
Proof.
  intros HGPT HE Hwf Hwf' Hs Hs' Hr Hr' Hrows.
  pose proof (GPT_wte_inputDim _ _ _ _ HGPT) as Hwte_in.
  pose proof (GPT_wpe_inputDim _ _ _ _ HGPT) as Hwpe_in.
  destruct (GPT_ok _ _ _ _ HGPT) as [Hp (Hwte & Hwpe & _ & Hblocks & Hhead)].
  rewrite Hp in *. unfold GPT_apply. rewrite Hp, Hs, Hs', Nat.eqb_refl.
  simpl. rewrite tile_rows_range.
  set (tr := transformer m) in *.
  set (pos := Tensor2 (B, blockSize p0)
                (replicate B (Z.of_nat <$> seq 0 (blockSize p0)))).
  assert (∀ d, Forall (Forall (λ tok, (0 ≤ tok ≤ Z.of_nat (vocabSize p0))%Z)) d
            → Forall (Forall (λ tok,
                 (0 ≤ tok < Z.of_nat (emb_inputDim (wte tr)))%Z)) d)
    as Hrange.
  { intros d Hd. eapply Forall_impl; [exact Hd|]. intros row Hrow.
    eapply Forall_impl; [exact Hrow|]. intros tok Htok. simpl in *.
    rewrite Hwte_in. lia. }
  pose proof (embedding_fin_tensor (wte tr) idx B _ Hwf Hs (Hrange _ Hr))
    as Htok.
  pose proof (embedding_fin_tensor (wte tr) idx' B _ Hwf' Hs' (Hrange _ Hr'))
    as Htok'.
  assert (fin_tensor B (blockSize p0) (emb_outputDim (wpe tr))
            (embedding_apply (wpe tr) pos)) as Hpos.
  { apply embedding_fin_tensor; [| done |].
    - split; simpl; [by rewrite length_replicate|].
      apply Forall_replicate. by rewrite length_fmap, length_seq.
    - simpl. apply Forall_replicate, Forall_fmap, Forall_forall.
      intros i Hi%elem_of_seq. simpl. rewrite Hwpe_in. lia. }
  rewrite Hwte in Htok, Htok'. rewrite Hwpe in Hpos.
  destruct (add3_fin_tensor _ _ _ _ _ Htok Hpos) as (x0 & -> & Hx0 & Hd0).
  destruct (add3_fin_tensor _ _ _ _ _ Htok' Hpos) as (x0' & -> & Hx0' & Hd0').
  simpl. rewrite !dropout_inference.
  assert (same_upto n x0 x0') as Hsame0.
  { eapply add3_same_upto; [|apply same_upto_refl|exact Hd0|exact Hd0'|].
    - apply embedding_same_upto; [by rewrite Hs, Hs'|done].
    - destruct Hx0 as [-> _]. by destruct Hx0' as [-> _]. }
  destruct (forEach_block_same_upto (h tr) x0 x0' n B (blockSize p0)
              (nEmbd p0) (blockSize p0) (nHead p0))
    as (y & y' & -> & -> & Hy & Hy' & Hyy); [done..|].
  simpl. eexists _, _. split_and!; [done|done| | |].
  - rewrite <- Hhead.
    by eapply dense_fin_tensor, layerNormalization_fin_tensor.
  - rewrite <- Hhead.
    by eapply dense_fin_tensor, layerNormalization_fin_tensor.
  - apply dense_same_upto.
    + eapply layerNormalization_fin_tensor, Hy.
    + eapply layerNormalization_fin_tensor, Hy'.
    + apply layerNormalization_same_upto; [apply Hy|apply Hy'|done].
Qed.

Lemma same_upto_lookup n y y' b i row row' :
  same_upto n y y' → i < n →
  data3 y !! b ≫= (.!! i) = Some row →
  data3 y' !! b ≫= (.!! i) = Some row' →
  row_equiv row row'.
Proof.
  intros [_ Hd] Hi Hrow Hrow'.
  destruct (data3 y !! b) as [mat|] eqn:Hmat; [|done].
  destruct (data3 y' !! b) as [mat'|] eqn:Hmat'; [|done].
  simpl in Hrow, Hrow'.
  pose proof (Forall2_lookup_lr _ _ _ _ _ _ Hd Hmat Hmat') as Hm.
  by apply (take_lookup_equiv row_equiv n mat mat' i row row' Hm).
Qed.

(** X18. A head never looks ahead: on two finite inputs of at most
    [blockSize] positions that agree on the positions before [n],
    [Head.apply] returns on both, finite tensors, and what it returns at the
    positions before [n] is the same, whatever the inputs hold from
    position [n] on.  The rows compared are equal as rows of rationals. *)
Theorem Head_apply_causal (hd : HeadLayer) (x x' : tensor3 num)
    (n B T C blockSize headSize : nat) :
  head_ok blockSize headSize hd → 1 ≤ headSize → T ≤ blockSize →
  fin_tensor B T C x → fin_tensor B T C x' → same_upto n x x' →
  ∃ y y',
    Head_apply hd x = Ok y ∧ Head_apply hd x' = Ok y' ∧
    fin_tensor B T headSize y ∧ fin_tensor B T headSize y' ∧
    ∀ b i row row', i < n →
      data3 y !! b ≫= (.!! i) = Some row →
      data3 y' !! b ≫= (.!! i) = Some row' →
      row_equiv row row'.
Proof.
  intros Hhd Hhs HT Hx Hx' Hsame.
  destruct (Head_apply_same_upto hd x x' n B T C blockSize headSize)
    as (y & y' & Hy & Hy' & Hf & Hf' & Hyy); [done..|].
  exists y, y'. split_and!; [done..|].
  intros b i row row' Hi Hrow Hrow'.
  by apply (same_upto_lookup n y y' b i).
Qed.

(** X19. The model is causal: on a model built by [GPT] with [nEmbd >= 1],
    for two inputs of [blockSize] tokens in [0 .. vocabSize] whose rows
    agree on their first [n] tokens, [apply] returns on both, finite logits,
    and the logits at the positions before [n] are the same: the logits at
    a position do not depend on the tokens after it.  The rows compared are
    equal as rows of rationals. *)
Theorem GPT_apply_causal (p0 : ModelParams) (log log' : list tf_layer)
    (m : Model) (idx idx' : tensor2 Z) (B n : nat) :
  GPT p0 log = (log', Ok m) → 1 ≤ nEmbd p0 →
  wf2 idx → wf2 idx' →
  shape2 idx = (B, blockSize p0) → shape2 idx' = (B, blockSize p0) →
  Forall (Forall (λ tok, (0 ≤ tok ≤ Z.of_nat (vocabSize p0))%Z))
    (data2 idx) →
  Forall (Forall (λ tok, (0 ≤ tok ≤ Z.of_nat (vocabSize p0))%Z))
    (data2 idx') →
  Forall2 (λ row row', take n row = take n row') (data2 idx) (data2 idx') →
  ∃ logits logits',
    GPT_apply m idx = Ok logits ∧ GPT_apply m idx' = Ok logits' ∧
    fin3 logits ∧ fin3 logits' ∧
    ∀ b i row row', i < n →
      data3 logits !! b ≫= (.!! i) = Some row →
      data3 logits' !! b ≫= (.!! i) = Some row' →
      row_equiv row row'.
Proof.
  intros HGPT HE Hwf Hwf' Hs Hs' Hr Hr' Hrows.
  destruct (GPT_apply_same_upto p0 log log' m idx idx' B n)
    as (l & l' & Hl & Hl' & Hf & Hf' & Hll); [done..|].
  exists l, l'. split_and!; [done|done|apply Hf|apply Hf'|].
  intros b i row row' Hi Hrow Hrow'.
  by apply (same_upto_lookup n l l' b i).
Qed.

(** *** The tokens an iteration of [generate] reads *)

Lemma idxShaped_prefix blockSize (idx shaped : tensor2 Z) (V : Z) :
  wf2 idx → (shape2 idx).2 ≤ blockSize → (0 ≤ V)%Z →
  Forall (Forall (λ tok, (0 ≤ tok ≤ V)%Z)) (data2 idx) →
  idxShaped blockSize idx = Ok shaped →
  wf2 shaped ∧ shape2 shaped = ((shape2 idx).1, blockSize) ∧
  Forall (Forall (λ tok, (0 ≤ tok ≤ V)%Z)) (data2 shaped) ∧
  data2 shaped
    = (λ r, r ++ replicate (blockSize - (shape2 idx).2) 0%Z) <$> data2 idx.
Proof.
  intros Hwf HT HV Hr Hsh.
  pose proof (idxShaped_data _ _ _ Hwf Hsh) as Hdata.
  destruct (idxShaped_shape blockSize idx) as (sh & Hsh' & Hshape & _).
  rewrite Hsh in Hsh'. injection Hsh' as <-.
  replace ((shape2 idx).2 - blockSize) with 0 in Hdata by lia.
  assert (data2 shaped
          = (λ r, r ++ replicate (blockSize - (shape2 idx).2) 0%Z)
              <$> data2 idx) as Hdata'.
  { rewrite Hdata. apply list_fmap_ext. intros _ r _. by rewrite drop_0. }
  clear Hdata. rename Hdata' into Hdata.
  destruct Hwf as [Hlen Hrows].
  split_and!; [|done| |done].
  - split; rewrite Hshape, Hdata; simpl; [by rewrite length_fmap|].
    apply Forall_fmap. eapply Forall_impl; [exact Hrows|].
    intros r Hrl. simpl in *. rewrite length_app, length_replicate. lia.
  - rewrite Hdata. apply Forall_fmap. eapply Forall_impl; [exact Hr|].
    intros r Hrr. simpl. apply Forall_app. split; [done|].
    apply Forall_replicate. lia.
Qed.

(** Two iterations on sequences that fit the block and agree on their
    first [n] tokens: the model returns the same logits at the positions
    before [n]. *)
Lemma generate_step_prefix_logits (p0 : ModelParams)
    (log log' : list tf_layer) (m : Model) (temperature temperature' : num)
    (doSample doSample' : bool) (topK topK' : option nat) (n i i' : nat)
    (idx idx' : tensor2 Z) (g g' : rng) (it it' : Iteration)
    (g1 g1' : rng) :
  GPT p0 log = (log', Ok m) → 1 ≤ nEmbd p0 →
  wf2 idx → wf2 idx' → (shape2 idx).1 = (shape2 idx').1 →
  n ≤ (shape2 idx).2 ≤ blockSize p0 → n ≤ (shape2 idx').2 ≤ blockSize p0 →
  Forall (Forall (λ tok, (0 ≤ tok ≤ Z.of_nat (vocabSize p0))%Z))
    (data2 idx) →
  Forall (Forall (λ tok, (0 ≤ tok ≤ Z.of_nat (vocabSize p0))%Z))
    (data2 idx') →
  Forall2 (λ row row', take n row = take n row') (data2 idx) (data2 idx') →
  generate_step m temperature doSample topK i idx g = Ok (it, g1) →
  generate_step m temperature' doSample' topK' i' idx' g' = Ok (it', g1') →
  same_upto n (it_logits it) (it_logits it') ∧
  fin_tensor (shape2 idx).1 (blockSize p0) (vocabSize p0) (it_logits it) ∧
  fin_tensor (shape2 idx).1 (blockSize p0) (vocabSize p0) (it_logits it').
Proof.
  intros HGPT HE Hwf Hwf' HB [Hn HT] [Hn' HT'] Hr Hr' Hrows Hit Hit'.
  destruct (GPT_ok _ _ _ _ HGPT) as [Hp Hok].
  apply generate_step_inv in Hit as (_ & _ & Hsh & Hlogits & _).
  apply generate_step_inv in Hit' as (_ & _ & Hsh' & Hlogits' & _).
  rewrite Hp in *.
  destruct (idxShaped_prefix _ _ _ (Z.of_nat (vocabSize p0)) Hwf HT
              ltac:(lia) Hr Hsh) as (Hswf & Hss & Hsr & Hsd).
  destruct (idxShaped_prefix _ _ _ (Z.of_nat (vocabSize p0)) Hwf' HT'
              ltac:(lia) Hr' Hsh') as (Hswf' & Hss' & Hsr' & Hsd').
  destruct (GPT_apply_same_upto p0 log log' m (it_idxShaped it)
              (it_idxShaped it') (shape2 idx).1 n)
    as (l & l' & Hl & Hl' & Hf & Hf' & Hll);
    [done|done|done|done|done|by rewrite Hss', HB|done|done| |].
  { rewrite Hsd, Hsd'. apply Forall2_fmap.
    destruct Hwf as [_ Hlens]. destruct Hwf' as [_ Hlens'].
    apply Forall2_same_length_lookup_2; [by eapply Forall2_length|].
    intros b r r' Hrb Hrb'.
    pose proof (Forall2_lookup_lr _ _ _ _ _ _ Hrows Hrb Hrb') as Hrr.
    rewrite Forall_lookup in Hlens, Hlens'.
    specialize (Hlens b r Hrb). specialize (Hlens' b r' Hrb').
    simpl in *. by rewrite !take_app_le by lia. }
  rewrite Hlogits in Hl. injection Hl as <-.
  rewrite Hlogits' in Hl'. by injection Hl' as <-.
Qed.

(** The logits an iteration works on are the row of the model output at
    the position of its counter, while the counter is below [blockSize]. *)
Lemma generate_step_last_row m temperature doSample topK i idx g it g1 :
  generate_step m temperature doSample topK i idx g = Ok (it, g1) →
  i < blockSize (params m) →
  data2 (it_lastCharLogits it)
    = (λ mat, default [] (mat !! i)) <$> data3 (it_logits it).
Proof.
  intros Hit Hi.
  apply generate_step_inv in Hit as (_ & _ & _ & Hlogits & Hlast & _).
  pose proof (GPT_apply_wf _ _ _ Hlogits) as Hwf.
  destruct (lastCharLogits_data _ _ _ _ Hwf Hlast) as (_ & _ & _ & ->).
  by replace (i `min` (blockSize (params m) - 1)) with i by lia.
Qed.

Lemma same_upto_row n (x x' : tensor3 num) B T C i :
  same_upto n x x' → fin_tensor B T C x → fin_tensor B T C x' →
  i < n → i < T →
  Forall2 (λ row mat', ∃ row', mat' !! i = Some row' ∧ row_equiv row row')
    ((λ mat, default [] (mat !! i)) <$> data3 x) (data3 x').
Proof.
  intros [_ Hd] (Hs & [_ Hmats] & _) (Hs' & [_ Hmats'] & _) Hi HiT.
  rewrite Hs in Hmats. rewrite Hs' in Hmats'. simpl in Hmats, Hmats'.
  apply Forall2_fmap_l. apply Forall2_same_length_lookup_2.
  { by eapply Forall2_length. }
  intros b mat mat' Hmat Hmat'.
  pose proof (Forall2_lookup_lr _ _ _ _ _ _ Hd Hmat Hmat') as Hm.
  simpl in Hm. rewrite Forall_lookup in Hmats, Hmats'.
  destruct (Hmats b mat Hmat) as [Hlen _].
  destruct (Hmats' b mat' Hmat') as [Hlen' _].
  destruct (lookup_lt_is_Some_2 mat i) as [row Hrow]; [lia|].
  destruct (lookup_lt_is_Some_2 mat' i) as [row' Hrow']; [lia|].
  unfold compose. rewrite Hrow. simpl. exists row'. split; [done|].
  by apply (take_lookup_equiv row_equiv n mat mat' i row row' Hm).
Qed.

(** X20. Which tokens an iteration of [generate] reads: on a model built by
    [GPT] with [nEmbd >= 1], the logits that the iteration with counter [i]
    takes from the forward pass depend on the first [i + 1] tokens of every
    row only.  Two iterations with the same counter [i], on sequences of more
    than [i] and at most [blockSize] tokens in [0 .. vocabSize] whose rows
    agree on their first [i + 1] tokens, work on the same [lastCharLogits],
    whatever follows these tokens and however long the sequences are. *)
Theorem generate_step_reads_prefix (p0 : ModelParams)
    (log log' : list tf_layer) (m : Model) (temperature : num)
    (doSample : bool) (topK : option nat) (i : nat) (idx idx' : tensor2 Z)
    (g g' : rng) (it it' : Iteration) (g1 g1' : rng) :
  GPT p0 log = (log', Ok m) → 1 ≤ nEmbd p0 →
  wf2 idx → wf2 idx' → (shape2 idx).1 = (shape2 idx').1 →
  i < (shape2 idx).2 ≤ blockSize p0 → i < (shape2 idx').2 ≤ blockSize p0 →
  Forall (Forall (λ tok, (0 ≤ tok ≤ Z.of_nat (vocabSize p0))%Z))
    (data2 idx) →
  Forall (Forall (λ tok, (0 ≤ tok ≤ Z.of_nat (vocabSize p0))%Z))
    (data2 idx') →
  Forall2 (λ row row', take (S i) row = take (S i) row')
    (data2 idx) (data2 idx') →
  generate_step m temperature doSample topK i idx g = Ok (it, g1) →
  generate_step m temperature doSample topK i idx' g' = Ok (it', g1') →
  Forall2 row_equiv (data2 (it_lastCharLogits it))
    (data2 (it_lastCharLogits it')).
Proof.
  intros HGPT HE Hwf Hwf' HB [Hi HT] [Hi' HT'] Hr Hr' Hrows Hit Hit'.
  destruct (generate_step_prefix_logits p0 log log' m temperature temperature
              doSample doSample topK topK (S i) i i
              idx idx' g g' it it' g1 g1')
    as (Hsame & Hf & Hf'); [done|done|done|done|done|lia|lia|done..|].
  destruct (GPT_ok _ _ _ _ HGPT) as [Hp _].
  rewrite (generate_step_last_row _ _ _ _ _ _ _ _ _ Hit) by (rewrite Hp; lia).
  rewrite (generate_step_last_row _ _ _ _ _ _ _ _ _ Hit') by (rewrite Hp; lia).
  apply Forall2_fmap_r.
  eapply Forall2_impl;
    [apply (same_upto_row (S i) _ _ _ _ _ i Hsame Hf Hf'); lia|].
  intros row mat' (row' & Hrow' & Hrr). unfold compose. by rewrite Hrow'.
Qed.

(** X21. While the running sequence fits the block, [generate] does not
    feed back what it generates: in a run on a model built by [GPT] with
    [nEmbd >= 1] and [vocabSize >= 1], from a prompt of [T0] tokens in
    [0 .. vocabSize], the iteration [j], for [j < T0] and
    [T0 + j <= blockSize], works on the logits that the first forward pass
    returned at position [j] of the prompt.  The tokens appended by the
    iterations before [j] have no part in them. *)
Theorem generate_reads_prompt (p0 : ModelParams) (log log' : list tf_layer)
    (m : Model) (p : GenerateParams) (g : rng)
    (out : tensor2 Z) (trace : list Iteration) (g' : rng) :
  GPT p0 log = (log', Ok m) → 1 ≤ nEmbd p0 → 1 ≤ vocabSize p0 →
  wf2 (idx p) →
  Forall (Forall (λ tok, (0 ≤ tok ≤ Z.of_nat (vocabSize p0))%Z))
    (data2 (idx p)) →
  generate_trace m p g = Ok (out, trace, g') →
  ∀ j it it0, trace !! 0 = Some it0 → trace !! j = Some it →
    j < (shape2 (idx p)).2 → (shape2 (idx p)).2 + j ≤ blockSize p0 →
    Forall2 (λ row mat0, ∃ row0, mat0 !! j = Some row0 ∧ row_equiv row row0)
      (data2 (it_lastCharLogits it)) (data3 (it_logits it0)).
Proof.
  intros HGPT HE HV Hwf Hprompt [_ Hsteps]%generate_trace_steps
    j it it0 Hit0 Hit Hj HT.
  destruct (GPT_ok _ _ _ _ HGPT) as [Hp Hok].
  set (T0 := (shape2 (idx p)).2) in *.
  set (ok := λ (i : nat) (sq : tensor2 Z),
         wf2 sq ∧
         Forall (Forall (λ tok, (0 ≤ tok ≤ Z.of_nat (vocabSize p0))%Z))
           (data2 sq) ∧
         (shape2 sq).2 = T0 + i ∧
         Forall2 (λ row0 row, take T0 row = row0) (data2 (idx p)) (data2 sq)).
  assert (∀ i sq g0 it g1, ok i sq →
            generate_step m (default (Fin 1) (temperature p))
              (default false (doSample p)) (topK p) i sq g0 = Ok (it, g1) →
            ok (it_i it) (it_idx it) ∧ ok (S i) (it_newIdx it)) as Hstep.
  { intros i sq g0 it1 g1 (Hwfs & Hsq & Hlen & Hpre) Hstep.
    rewrite <- Hp in HV, Hsq.
    destruct (generate_step_tokens _ _ _ _ _ _ _ _ _ Hok HV Hwfs Hsq Hstep)
      as (_ & _ & Hwfn & Hnew).
    destruct (generate_step_appends _ _ _ _ _ _ _ _ _ Hwfs Hstep)
      as (_ & Hshape & Happ).
    destruct (generate_step_inv _ _ _ _ _ _ _ _ _ Hstep) as (-> & -> & _).
    rewrite Hp in Hsq, Hnew. split; [done|].
    split_and!; [done|done|rewrite Hshape; simpl; lia|].
    apply Forall2_same_length_lookup_2.
    { apply Forall2_length in Hpre. rewrite Hpre.
      destruct Hwfs as [-> _]. destruct Hwfn as [-> _]. by rewrite Hshape. }
    intros b row0 row Hrow0 Hrow.
    destruct (Forall2_lookup_l _ _ _ _ _ Hpre Hrow0) as (r & Hr & Htake).
    destruct (Happ b r Hr) as (tok & _ & Hnewrow).
    rewrite Hnewrow in Hrow. injection Hrow as <-.
    destruct Hwfs as [_ Hlens]. rewrite Forall_lookup in Hlens.
    specialize (Hlens b r Hr). simpl in Hlens.
    rewrite take_app_le by lia. done. }
  assert (ok 0 (idx p)) as H0.
  { split_and!; [done|done|unfold T0; lia|].
    apply Forall2_same_length_lookup_2; [done|].
    intros b row0 row Hrow0 Hrow. rewrite Hrow0 in Hrow.
    injection Hrow as <-. destruct Hwf as [_ Hlens].
    rewrite Forall_lookup in Hlens. specialize (Hlens b row0 Hrow0).
    simpl in Hlens. by rewrite take_ge by (unfold T0; lia). }
  destruct (steps_invariant m _ _ _ ok (λ it, ok (it_i it) (it_idx it))
              _ _ _ _ _ _ Hstep H0 Hsteps) as [Hall _].
  rewrite Forall_lookup in Hall.
  destruct (Hall j it Hit) as (Hwfj & Hrj & Hlenj & Hprej).
  destruct (steps_lookup _ _ _ _ _ _ _ _ _ _ _ _ Hwf Hsteps Hit)
    as (gj & gj1 & Hstepj & _ & Hshapej).
  destruct (steps_lookup _ _ _ _ _ _ _ _ _ _ _ _ Hwf Hsteps Hit0)
    as (g0 & g01 & Hstep0 & _ & Hshape0).
  destruct (steps_chain _ _ _ _ _ _ _ _ _ _ Hsteps 0 it0 Hit0) as [_ Hidx0].
  simpl in Hidx0, Hstepj, Hstep0. rewrite Hidx0 in Hstep0, Hshape0.
  set (t := default (Fin 1) (temperature p)) in *.
  set (d := default false (doSample p)) in *.
  destruct (generate_step_prefix_logits p0 log log' m t t d d (topK p)
              (topK p) (S j) j 0
              (it_idx it) (idx p) gj g0 it it0 gj1 g01)
    as (Hsame & Hf & Hf');
    [done|done|done|done|by rewrite Hshapej
    |rewrite Hshapej; simpl; fold T0; lia|fold T0; lia|done|done| |done|done|].
  { apply Forall2_flip. eapply Forall2_impl; [exact Hprej|].
    intros row0 row <-. simpl. rewrite take_take. f_equal. lia. }
  rewrite (generate_step_last_row _ _ _ _ _ _ _ _ _ Hstepj)
    by (rewrite Hp; lia).
  apply (same_upto_row (S j) _ _ _ _ _ j Hsame Hf Hf'); lia.
Qed.

End Model.

(** * The statements on the small instance *)

Local Abbreviation toy_apply :=
  (GPT_apply toy_embedding toy_dense toy_layerNormalization toy_dropout
     toy_sqrt toy_exp).
Local Abbreviation toy_generate_trace backend :=
  (generate_trace toy_embedding toy_dense toy_layerNormalization toy_dropout
     toy_sqrt toy_exp nat toy_multinomial backend).
Local Abbreviation toy_generate backend :=
  (generate toy_embedding toy_dense toy_layerNormalization toy_dropout
     toy_sqrt toy_exp nat toy_multinomial backend).

Lemma toy_embedding_shape a idx :
  shape3 (toy_embedding a idx) = (shape2 idx, emb_outputDim a).
Proof. done. Qed.

Lemma toy_dense_shape a x :
  shape3 (toy_dense a x) = ((shape3 x).1, dense_units a).
Proof. done. Qed.

Lemma toy_dense_wf a x : wf3 (toy_dense a x).
Proof.
  split; simpl.
  - by rewrite length_fmap, length_seq.
  - apply Forall_fmap, Forall_true. intros b. simpl. split.
    + by rewrite length_fmap, length_seq.
    + apply Forall_fmap, Forall_true. intros t. simpl.
      by rewrite length_fmap, length_seq.
Qed.

Lemma toy_layerNormalization_shape a x :
  shape3 (toy_layerNormalization a x) = shape3 x.
Proof. done. Qed.

Lemma toy_dropout_shape a x : shape3 (toy_dropout a x) = shape3 x.
Proof. done. Qed.

Lemma toy_multinomial_shape p n b g :
  shape2 (toy_multinomial p n b g).1 = ((shape2 p).1, n).
Proof. done. Qed.

Lemma toy_multinomial_wf p n b g : wf2 (toy_multinomial p n b g).1.
Proof.
  split; simpl.
  - by rewrite length_replicate.
  - apply Forall_replicate. by rewrite length_fmap, length_seq.
Qed.

Lemma toy_exp_pos q : (0 < toy_exp q)%Q.
Proof. apply Qpower_0_lt. reflexivity. Qed.

Lemma toy_model_built : GPT toy_params [] = (toy_log, Ok toy_model).
Proof. vm_compute. reflexivity. Qed.

Lemma toy_model_ok : model_ok toy_model.
Proof. by destruct (GPT_ok _ _ _ _ toy_model_built). Qed.

(** [model.apply] refuses a row of three tokens where [blockSize] is 2. *)
Lemma apply_checks_blockSize_witness :
  toy_apply toy_model (Tensor2 (1, 3) [[1; 2; 3]%Z])
    = Err (Error "Sequence must be of size 2, got 3") ∧
  tf_only (toy_apply toy_model (Tensor2 (1, 2) [[1; 2]%Z])).
Proof.
  split.
  - apply (apply_checks_blockSize toy_embedding toy_dense
             toy_layerNormalization toy_dropout toy_sqrt toy_exp nat
             toy_multinomial "cpu" toy_model (Tensor2 (1, 3) [[1; 2; 3]%Z])).
    simpl. lia.
  - apply (apply_checks_blockSize toy_embedding toy_dense
             toy_layerNormalization toy_dropout toy_sqrt toy_exp nat
             toy_multinomial "cpu" toy_model (Tensor2 (1, 2) [[1; 2]%Z])).
    reflexivity.
Defined.

(** The forward pass of the small model on a row of two tokens. *)
Lemma GPT_apply_topology_witness :
  GPT toy_params [] = (toy_log, Ok toy_model) ∧
  ∃ logits, toy_apply toy_model (Tensor2 (1, 2) [[1; 2]%Z]) = Ok logits ∧
            shape3 logits = (1, 2, 3).
Proof.
  split; [exact toy_model_built|].
  destruct (GPT_apply_topology toy_embedding toy_dense toy_layerNormalization
              toy_dropout toy_sqrt toy_exp toy_embedding_shape toy_dense_shape
              toy_dense_wf toy_layerNormalization_shape toy_dropout_shape
              toy_params [] toy_log toy_model (Tensor2 (1, 2) [[1; 2]%Z]) 1
              toy_model_built eq_refl)
    as (_ & _ & x0 & xn & logits & _ & _ & _ & _ & _ & Happly & Hshape).
  { simpl. constructor; [|constructor].
    constructor; [lia|]. constructor; [lia|constructor]. }
  exists logits. split; [exact Happly|exact Hshape].
Defined.

(** A run of two iterations from a sequence of one token. *)
Lemma generate_input_window_witness :
  ∃ out trace g',
    toy_generate_trace "cpu" toy_model
      {| idx := Tensor2 (1, 1) [[1%Z]]; maxNewTokens := 2;
         temperature := None; doSample := None; topK := None |} 0
      = Ok (out, trace, g') ∧
    length trace = 2 ∧
    Forall (λ it,
      data2 (it_idxShaped it) =
        (λ r, list.drop ((shape2 (it_idx it)).2 - 2) r ++
              replicate (2 - (shape2 (it_idx it)).2) 0%Z)
        <$> data2 (it_idx it)) trace.
Proof.
  edestruct (generate_input_window toy_embedding toy_dense
               toy_layerNormalization toy_dropout toy_sqrt toy_exp nat
               toy_multinomial "cpu" toy_dense_wf toy_multinomial_wf toy_model
               {| idx := Tensor2 (1, 1) [[1%Z]]; maxNewTokens := 2;
                  temperature := None; doSample := None; topK := None |} 0)
    as [Hall _].
  - split; [reflexivity|]. by repeat constructor.
  - vm_compute. reflexivity.
  - eexists _, _, _. split; [vm_compute; reflexivity|].
    split; [reflexivity|].
    eapply Forall_impl; [exact Hall|]. by intros it (_ & _ & Hdata & _).
Defined.

(** C1, as stated, fails: with [blockSize = 2] and a running sequence of
    three tokens the model input holds the last two tokens only. *)
Lemma generate_input_truncated :
  ∃ out trace g',
    toy_generate_trace "cpu" toy_model
      {| idx := Tensor2 (1, 3) [[1; 2; 3]%Z]; maxNewTokens := 1;
         temperature := None; doSample := None; topK := None |} 0
      = Ok (out, trace, g') ∧
    ¬ Forall input_contains_sequence trace.
Proof.
  eexists _, _, _. split; [vm_compute; reflexivity|].
  intros [Hit _]%Forall_cons. unfold input_contains_sequence in Hit.
  simpl in Hit. apply Forall2_cons in Hit as [Hrow _].
  apply sublist_length in Hrow. simpl in Hrow. lia.
Qed.

(** A run of two iterations with temperature 2: both iterations halve
    the logits they selected. *)
Lemma generate_temperature_witness :
  ∃ out trace g',
    toy_generate_trace "cpu" toy_model
      {| idx := Tensor2 (1, 1) [[1%Z]]; maxNewTokens := 2;
         temperature := Some (Fin 2); doSample := None; topK := None |} 0
      = Ok (out, trace, g') ∧
    length trace = 2 ∧
    Forall (λ it,
      data2 (it_scaled it) =
        fmap (M:=list) (λ x, num_div x (Fin 2))
          <$> data2 (it_lastCharLogits it) ∧
      it_probs it = softmax2 toy_exp (it_filtered it)) trace.
Proof.
  eexists _, _, _. split; [vm_compute; reflexivity|].
  destruct (generate_temperature toy_embedding toy_dense
              toy_layerNormalization toy_dropout toy_sqrt toy_exp nat
              toy_multinomial "cpu" toy_model
              {| idx := Tensor2 (1, 1) [[1%Z]]; maxNewTokens := 2;
                 temperature := Some (Fin 2); doSample := None;
                 topK := None |} 0 _ _ _ ltac:(vm_compute; reflexivity))
    as [Hlen Hall].
  split; [exact Hlen|].
  eapply Forall_impl; [exact Hall|].
  by intros it (_ & _ & Hd & _ & Hp & _).
Defined.

(** C5 fails on the code: on the prompt [1, 1], with a block of two
    positions and temperature 2, the last position of the model input is the
    second, but the iteration selects, and divides by the temperature, the
    logits of the first position; the token it appends is the argmax of
    these. *)
Lemma generate_temperature_first_row :
  ∃ out it g',
    toy_generate_trace "cpu" toy_model
      {| idx := Tensor2 (1, 2) [[1; 1]%Z]; maxNewTokens := 1;
         temperature := Some (Fin 2); doSample := None; topK := None |} 0
      = Ok (out, [it], g') ∧
    data2 (it_idxShaped it) = [[1; 1]%Z] ∧
    data3 (it_logits it) = [[[Fin 2; Fin 0; Fin 1]; [Fin 0; Fin 1; Fin 2]]] ∧
    data2 (it_lastCharLogits it) = [[Fin 2; Fin 0; Fin 1]] ∧
    data2 (it_scaled it)
      = [[num_div (Fin 2) (Fin 2); num_div (Fin 0) (Fin 2);
          num_div (Fin 1) (Fin 2)]] ∧
    data2 out = [[1; 1; 0]%Z].
Proof. eexists _, _, _. vm_compute. by repeat split. Qed.

(** Under [webgpu] the second of the two samples is the next token. *)
Lemma generate_sampling_witness :
  ∃ out trace g',
    toy_generate_trace "webgpu" toy_model
      {| idx := Tensor2 (1, 1) [[1%Z]]; maxNewTokens := 2;
         temperature := None; doSample := Some true; topK := None |} 0
      = Ok (out, trace, g') ∧
    length trace = 2 ∧
    Forall (λ it, ∃ g0,
      it_sampled it = (toy_multinomial (it_probs it) 2 true g0).1 ∧
      data2 (it_idxNext it) =
        (λ r, take 1 (list.drop 1 r)) <$> take 1 (data2 (it_sampled it)))
      trace.
Proof.
  eexists _, _, _. split; [vm_compute; reflexivity|].
  destruct (generate_sampling toy_embedding toy_dense
              toy_layerNormalization toy_dropout toy_sqrt toy_exp nat
              toy_multinomial "webgpu" toy_model
              {| idx := Tensor2 (1, 1) [[1%Z]]; maxNewTokens := 2;
                 temperature := None; doSample := Some true; topK := None |}
              0 _ _ _ eq_refl ltac:(vm_compute; reflexivity))
    as [Hlen Hall].
  split; [exact Hlen|].
  eapply Forall_impl; [exact Hall|].
  intros it (g0 & _ & Hgpu & _).
  destruct (Hgpu eq_refl) as (Hs & _ & Hd & _). by exists g0.
Defined.


(** The first head of the small model on two positions: the score of
    position 0 for position 1 is masked. *)
Lemma Head_causal_witness :
  match (Head 4 2 2 (Fin (1 # 10)) "block1-attn-head0" []).2 with
  | Ok hd =>
      head_ok 2 2 hd ∧
      ∃ masked,
        Head_masked toy_dense toy_sqrt hd
          (Tensor3 (1, 2, 4)
             [[[Fin 1; Fin 1; Fin 1; Fin 1]; [Fin 2; Fin 2; Fin 2; Fin 2]]])
          = Ok masked ∧
        entry3 masked 0 0 1 = Some NegInf
  | Err _ => False
  end.
Proof.
  assert (head_ok 2 2
            (withLayerHelpers
               {| head_key :=
                    {| dense_name := "block1-attn-head0-key";
                       dense_inputDim := Some 4; dense_units := 2;
                       dense_useBias := false; dense_inputShape := None;
                       dense_activation := None |};
                  head_query :=
                    {| dense_name := "block1-attn-head0-query";
                       dense_inputDim := Some 4; dense_units := 2;
                       dense_useBias := false; dense_inputShape := None;
                       dense_activation := None |};
                  head_value :=
                    {| dense_name := "block1-attn-head0-value";
                       dense_inputDim := Some 4; dense_units := 2;
                       dense_useBias := false; dense_inputShape := None;
                       dense_activation := None |};
                  head_drop :=
                    {| drop_name := "block1-attn-head0-drop";
                       drop_rate := Fin (1 # 10) |};
                  head_tril := bandPart (ones2 2 2) (-1) 0;
                  head_headSize := 2 |})) as Hok by by repeat split.
  split; [exact Hok|].
  destruct (Head_causal toy_dense toy_sqrt toy_exp toy_dense_shape
              toy_dense_wf toy_exp_pos _
              (Tensor3 (1, 2, 4)
                 [[[Fin 1; Fin 1; Fin 1; Fin 1]; [Fin 2; Fin 2; Fin 2; Fin 2]]])
              1 2 4 2 2 Hok eq_refl (le_n 2))
    as (scores & masked & weights & _ & Hmasked & _ & _ & _ & Hentries).
  exists masked. split; [exact Hmasked|].
  destruct (Hentries 0 0 1) as (s & _ & Hm & _); [lia..|]. exact Hm.
Defined.

(** Four channels do not split into three heads; they split into two. *)
Lemma GPT_head_size_witness :
  (∃ log', GPT {| nLayer := 1; nHead := 3; nEmbd := 4; vocabSize := 3;
                  blockSize := 2; embdDropout := None; residDropout := None;
                  attnDropout := None |} []
           = (log', Err (Error
                "Cannot calculate head size: nEmbd % nHead !== 0"))) ∧
  (∃ log' m, GPT toy_params [] = (log', Ok m) ∧
             length (h (transformer m)) = 1).
Proof.
  split.
  - destruct (GPT_head_size
                {| nLayer := 1; nHead := 3; nEmbd := 4; vocabSize := 3;
                   blockSize := 2; embdDropout := None; residDropout := None;
                   attnDropout := None |} []) as (_ & Hthrow & _).
    destruct Hthrow as (log' & Hthrow & _);
      [by vm_compute|simpl; lia|simpl; lia|simpl; lia|].
    by exists log'.
  - destruct (GPT_head_size toy_params []) as (_ & _ & Hbuild).
    destruct Hbuild as (log' & m & Hm & Hlen & _);
      [left; reflexivity|simpl; lia|simpl; lia|simpl; lia|].
    by exists log', m.
Defined.

(** C10, as stated, fails: a model without layers constructs no attention
    module, and its construction succeeds whatever [nEmbd] and [nHead]. *)
Lemma GPT_without_layers :
  js_rem 4 3 ≠ Some 0 ∧
  ∃ log' m, GPT {| nLayer := 0; nHead := 3; nEmbd := 4; vocabSize := 3;
                   blockSize := 2; embdDropout := None; residDropout := None;
                   attnDropout := None |} [] = (log', Ok m).
Proof.
  split; [by vm_compute|]. eexists _, _. vm_compute. reflexivity.
Qed.

(** One greedy iteration without top-k, from a registry that holds the
    running sequence only: the logits are released, the slice of [idx] is
    not. *)
Lemma generate_step_disposes_witness :
  let '(t, r') :=
    mem_generate_step "cpu" false None 0 {| next_id := 1; live := {[ 0 ]} |} in
  (t_logits t ∉ live r') ∧ (t_oldIdx t ∉ live r') ∧
  (t_newIdx t ∈ live r') ∧ (t_kept t ∈ live r').
Proof.
  pose proof (generate_step_disposes "cpu" false None 0
                {| next_id := 1; live := {[ 0 ]} |}) as H.
  destruct (mem_generate_step "cpu" false None 0
              {| next_id := 1; live := {[ 0 ]} |}) as [t r'] eqn:Hstep.
  destruct H as ((_ & Hgone) & Hnew & Hleft & _).
  - intros u Hu. simpl in *. apply elem_of_singleton in Hu. lia.
  - simpl. by apply elem_of_singleton.
  - assert (t_kept t ∈ unnamed None t) as Hkept by (unfold unnamed; left).
    rewrite Forall_forall in Hgone. rewrite Forall_forall in Hleft.
    split_and!.
    + apply Hgone. rewrite elem_of_app, !elem_of_cons. tauto.
    + apply Hgone. rewrite elem_of_app, !elem_of_cons. tauto.
    + exact Hnew.
    + by apply Hleft.
Defined.

(** C8, as stated, fails: the slice of [idx] taken by an iteration is still
    registered when the iteration ends. *)
Lemma generate_step_leaks :
  ¬ no_intermediate_left "cpu" false None 0
      {| next_id := 1; live := {[ 0 ]} |}.
Proof.
  unfold no_intermediate_left.
  cbv [mem_generate_step truthy mbind mem_bind mret mem_ret new_tensor
       tidy_apply dispose next_id live t_newIdx omap list_omap id].
  intros H. apply (H 1); [lia|lia|]. set_unfold. lia.
Qed.

(** C4 fails on the code under [webgpu]: with [doSample] and a batch of two
    rows, the slice that takes the second sample has one row, and appending
    it to the running sequence throws in the first iteration. *)
Lemma generate_webgpu_batch :
  toy_generate "webgpu" toy_model
    {| idx := Tensor2 (2, 1) [[1%Z]; [2%Z]]; maxNewTokens := 1;
       temperature := None; doSample := Some true; topK := None |} 0
  = Err (TfError "concat").
Proof. vm_compute. reflexivity. Qed.

(** A greedy run of two iterations on a batch of two rows. *)
Lemma generate_length_witness :
  ∃ out,
    toy_generate "cpu" toy_model
      {| idx := Tensor2 (2, 1) [[1%Z]; [2%Z]]; maxNewTokens := 2;
         temperature := None; doSample := None; topK := Some 5 |} 0 = Ok out ∧
    shape2 out = (2, 3).
Proof.
  edestruct (generate_length toy_embedding toy_dense toy_layerNormalization
               toy_dropout toy_sqrt toy_exp nat toy_multinomial "cpu"
               toy_embedding_shape toy_dense_shape toy_dense_wf
               toy_layerNormalization_shape toy_dropout_shape
               toy_multinomial_shape toy_params [] toy_log toy_model
               {| idx := Tensor2 (2, 1) [[1%Z]; [2%Z]]; maxNewTokens := 2;
                  temperature := None; doSample := None; topK := Some 5 |} 0)
    as (out & trace & g' & _ & Hout & _ & _ & Hshape).
  - exact toy_model_built.
  - simpl. lia.
  - simpl. lia.
  - split; [reflexivity|]. by repeat constructor.
  - simpl. lia.
  - simpl. constructor; [|constructor; [|constructor]];
      (constructor; [lia|constructor]).
  - intros [=].
  - intros [=].
  - exists out. split; [exact Hout|exact Hshape].
Defined.

(** Under [webgpu] the same batch with [doSample] throws, whatever the
    layers compute. *)
Lemma generate_webgpu_batch_throws_witness :
  toy_generate "webgpu" toy_model
    {| idx := Tensor2 (2, 1) [[1%Z]; [2%Z]]; maxNewTokens := 2;
       temperature := None; doSample := Some true; topK := None |} 7
  = Err (TfError "concat").
Proof.
  apply (generate_webgpu_batch_throws toy_embedding toy_dense
           toy_layerNormalization toy_dropout toy_sqrt toy_exp nat
           toy_multinomial "webgpu" toy_embedding_shape toy_dense_shape
           toy_dense_wf toy_layerNormalization_shape toy_dropout_shape
           toy_multinomial_shape toy_params [] toy_log toy_model).
  - exact toy_model_built.
  - simpl. lia.
  - simpl. lia.
  - split; [reflexivity|]. by repeat constructor.
  - simpl. constructor; [|constructor; [|constructor]];
      (constructor; [lia|constructor]).
  - reflexivity.
  - reflexivity.
  - simpl. lia.
  - simpl. lia.
Defined.


(** * The further statements on the small instance *)

Local Abbreviation toy_generate_observed backend :=
  (generate_observed toy_embedding toy_dense toy_layerNormalization
     toy_dropout toy_sqrt toy_exp nat toy_multinomial backend).
Local Abbreviation toy_loss :=
  (loss toy_embedding toy_dense toy_layerNormalization toy_dropout toy_sqrt
     toy_exp toy_ln).
Local Abbreviation toy_build :=
  (build toy_embedding toy_dense toy_layerNormalization toy_dropout toy_sqrt
     toy_exp).

(** Every entry of a nested list of numbers that has been computed. *)
Ltac all_entries :=
  repeat first
    [ apply Forall_nil_2
    | apply Forall_cons_2
    | exact I
    | let E := fresh in intros E; discriminate E
    | progress vm_compute ].

(** With temperature 0 the run has its two iterations and every
    probability is NaN. *)
Lemma generate_temperature_zero_witness :
  ∃ out trace g',
    toy_generate_trace "cpu" toy_model
      {| idx := Tensor2 (1, 1) [[1%Z]]; maxNewTokens := 2;
         temperature := Some (Fin 0); doSample := None; topK := None |} 0
      = Ok (out, trace, g') ∧
    length trace = 2 ∧
    Forall (λ it, Forall (Forall (λ pr, pr = NaN)) (data2 (it_probs it)))
      trace.
Proof.
  eexists _, _, _. split; [vm_compute; reflexivity|].
  destruct (generate_temperature_zero toy_embedding toy_dense
              toy_layerNormalization toy_dropout toy_sqrt toy_exp nat
              toy_multinomial "cpu" toy_dense_wf toy_multinomial_wf toy_model
              {| idx := Tensor2 (1, 1) [[1%Z]]; maxNewTokens := 2;
                 temperature := Some (Fin 0); doSample := None;
                 topK := None |} 0 _ _ _ 0%Q eq_refl eq_refl
              ltac:(vm_compute; reflexivity)) as [Hlen Hall].
  split; [exact Hlen|].
  eapply Forall_impl; [exact Hall|]. by intros it [_ Hnan].
Defined.

(** With [topK = 5] over three tokens nothing is filtered. *)
Lemma generate_topK_whole_vocabulary_witness :
  ∃ out trace g',
    toy_generate_trace "cpu" toy_model
      {| idx := Tensor2 (1, 1) [[1%Z]]; maxNewTokens := 2;
         temperature := None; doSample := None; topK := Some 5 |} 0
      = Ok (out, trace, g') ∧
    Forall (λ it, it_filtered it = it_scaled it) trace.
Proof.
  eexists _, _, _. split; [vm_compute; reflexivity|].
  match goal with
  | |- Forall _ ?tr =>
      assert (Forall (λ it, Forall (Forall (λ x, x ≠ NaN))
                              (data2 (it_scaled it))) tr) as Hnan
        by all_entries
  end.
  eapply Forall_impl; [apply Forall_and; split; [|exact Hnan]|].
  - eapply (generate_topK_whole_vocabulary toy_embedding toy_dense
              toy_layerNormalization toy_dropout toy_sqrt toy_exp nat
              toy_multinomial "cpu" toy_embedding_shape toy_dense_shape
              toy_dense_wf toy_layerNormalization_shape toy_dropout_shape
              toy_multinomial_wf toy_model
              {| idx := Tensor2 (1, 1) [[1%Z]]; maxNewTokens := 2;
                 temperature := None; doSample := None; topK := Some 5 |}
              0).
    + exact toy_model_ok.
    + vm_compute. reflexivity.
  - intros it [[_ Hall] Hnan']. apply (Hall 5); [reflexivity| |exact Hnan'].
    simpl. lia.
Defined.

(** A greedy run has its two iterations and leaves the state of the
    generator as it was. *)
Lemma generate_greedy_witness :
  ∃ out trace,
    toy_generate_trace "cpu" toy_model
      {| idx := Tensor2 (2, 1) [[1%Z]; [2%Z]]; maxNewTokens := 2;
         temperature := None; doSample := None; topK := None |} 7
      = Ok (out, trace, 7) ∧
    length trace = 2 ∧
    Forall (λ it, it_idxNext it
                  = expandDims_last (argMax_last (it_probs it))) trace.
Proof.
  eexists _, _. split; [vm_compute; reflexivity|].
  destruct (generate_greedy toy_embedding toy_dense
              toy_layerNormalization toy_dropout toy_sqrt toy_exp nat
              toy_multinomial "cpu" toy_embedding_shape toy_dense_shape
              toy_dense_wf toy_layerNormalization_shape toy_dropout_shape
              toy_multinomial_wf toy_model
              {| idx := Tensor2 (2, 1) [[1%Z]; [2%Z]]; maxNewTokens := 2;
                 temperature := None; doSample := None; topK := None |} 7
              _ _ 7 toy_model_ok (le_S 1 2 (le_S 1 1 (le_n 1)))
              ltac:(discriminate) ltac:(vm_compute; reflexivity))
    as (Hlen & _ & Hall).
  split; [exact Hlen|].
  eapply Forall_impl; [exact Hall|]. by intros it [Hnext _].
Defined.

(** Two tokens are appended to the row [[1]]. *)
Lemma generate_appends_witness :
  ∃ out trace g' toks,
    toy_generate_trace "cpu" toy_model
      {| idx := Tensor2 (2, 1) [[1%Z]; [2%Z]]; maxNewTokens := 2;
         temperature := None; doSample := None; topK := None |} 0
      = Ok (out, trace, g') ∧
    shape2 out = (2, 3) ∧
    data2 out !! 0 = Some ([1%Z] ++ toks) ∧ length toks = 2.
Proof.
  edestruct (generate_appends toy_embedding toy_dense
               toy_layerNormalization toy_dropout toy_sqrt toy_exp nat
               toy_multinomial "cpu" toy_dense_wf toy_multinomial_shape
               toy_multinomial_wf toy_model
               {| idx := Tensor2 (2, 1) [[1%Z]; [2%Z]]; maxNewTokens := 2;
                  temperature := None; doSample := None; topK := None |} 0)
    as (_ & Hshape & Hrows).
  - split; [reflexivity|]. by repeat constructor.
  - vm_compute. reflexivity.
  - destruct (Hrows 0 [1%Z] eq_refl) as (toks & Ho & Hlen & _).
    eexists _, _, _, toks. split; [vm_compute; reflexivity|].
    split; [exact Hshape|]. split; [exact Ho|exact Hlen].
Defined.

(** With a prompt of two tokens and [blockSize = 2] the first iteration
    reads row 0 of the logits; the last token of the prompt is at
    position 1. *)
Lemma generate_logits_row_witness :
  ∃ out trace g' it,
    toy_generate_trace "cpu" toy_model
      {| idx := Tensor2 (1, 2) [[1; 2]%Z]; maxNewTokens := 1;
         temperature := None; doSample := None; topK := None |} 0
      = Ok (out, trace, g') ∧
    trace !! 0 = Some it ∧
    data2 (it_lastCharLogits it)
      = (λ mat, default [] (mat !! 0)) <$> data3 (it_logits it) ∧
    data2 (it_idxShaped it) = [[1; 2]%Z].
Proof.
  pose proof (generate_logits_row toy_embedding toy_dense
                toy_layerNormalization toy_dropout toy_sqrt toy_exp nat
                toy_multinomial "cpu" toy_dense_wf toy_multinomial_shape
                toy_multinomial_wf toy_model
                {| idx := Tensor2 (1, 2) [[1; 2]%Z]; maxNewTokens := 1;
                   temperature := None; doSample := None; topK := None |} 0)
    as H.
  destruct (toy_generate_trace "cpu" toy_model _ 0)
    as [[[out trace] g']|e] eqn:Htr; [|vm_compute in Htr; discriminate Htr].
  assert (wf2 (Tensor2 (1, 2) [[1; 2]%Z])) as Hwf.
  { split; [reflexivity|]. by repeat constructor. }
  specialize (H out trace g' Hwf eq_refl).
  vm_compute in Htr. injection Htr as <- <- <-.
  destruct (H 0 _ eq_refl) as (_ & Hdata & _).
  eexists _, _, _, _. split; [reflexivity|]. split; [reflexivity|].
  split; [exact Hdata|reflexivity].
Defined.

(** The block of the small model on three positions, where [blockSize]
    is 2. *)
Lemma Block_apply_too_long_witness :
  match h (transformer toy_model) with
  | [b] =>
      Block_apply toy_dense toy_layerNormalization toy_dropout toy_sqrt
        toy_exp b (Tensor3 (1, 3, 4) [replicate 3 (replicate 4 (Fin 1))])
      = Err (TfError "slice")
  | _ => False
  end.
Proof.
  pose proof toy_model_ok as (_ & _ & _ & Hblocks & _).
  destruct (h (transformer toy_model)) as [|b [|]] eqn:Hh; try discriminate Hh.
  apply Forall_cons in Hblocks as [Hb _].
  apply (Block_apply_too_long toy_dense toy_layerNormalization toy_dropout
           toy_sqrt toy_exp toy_dense_shape toy_layerNormalization_shape
           b (Tensor3 (1, 3, 4) [replicate 3 (replicate 4 (Fin 1))])
           1 3 4 2 2 Hb eq_refl).
  lia.
Defined.

(** The callback hears the two tokens of the first row. *)
Lemma generate_callback_witness :
  ∃ out toks,
    toy_generate "cpu" toy_model
      {| idx := Tensor2 (2, 1) [[1%Z]; [2%Z]]; maxNewTokens := 2;
         temperature := None; doSample := None; topK := None |} 0 = Ok out ∧
    toy_generate_observed "cpu" toy_model
      {| idx := Tensor2 (2, 1) [[1%Z]; [2%Z]]; maxNewTokens := 2;
         temperature := None; doSample := None; topK := None |} 0
      = (Number <$> toks, inr out) ∧
    length toks = 2.
Proof.
  pose proof (generate_callback toy_embedding toy_dense
                toy_layerNormalization toy_dropout toy_sqrt toy_exp nat
                toy_multinomial "cpu" toy_dense_wf toy_multinomial_shape
                toy_multinomial_wf toy_model
                {| idx := Tensor2 (2, 1) [[1%Z]; [2%Z]]; maxNewTokens := 2;
                   temperature := None; doSample := None; topK := None |} 0)
    as H.
  destruct (toy_generate "cpu" toy_model _ 0) as [out|e] eqn:Hout.
  - destruct H as (row & toks & Hobs & Hlen & _).
    + split; [reflexivity|]. by repeat constructor.
    + simpl. lia.
    + exists out, toks. split; [reflexivity|]. split; [exact Hobs|exact Hlen].
  - vm_compute in Hout. discriminate Hout.
Defined.

(** [loss] on a row of three tokens, on targets of the wrong size, and on
    matching targets. *)
Lemma loss_outcome_witness :
  toy_loss toy_model (Tensor2 (1, 3) [[1; 2; 3]%Z]) (Tensor2 (1, 3) [[2; 3; 1]%Z])
    = Err (Error "Sequence must be of size 2, got 3") ∧
  toy_loss toy_model (Tensor2 (1, 2) [[1; 2]%Z]) (Tensor2 (1, 1) [[2%Z]])
    = Err (TfError "reshape") ∧
  ∃ v, toy_loss toy_model (Tensor2 (1, 2) [[1; 2]%Z]) (Tensor2 (1, 2) [[2; 3]%Z])
       = Ok v.
Proof.
  split_and!.
  - apply (loss_outcome toy_embedding toy_dense toy_layerNormalization
             toy_dropout toy_sqrt toy_exp toy_embedding_shape
             toy_dense_shape toy_dense_wf toy_layerNormalization_shape
             toy_dropout_shape toy_ln toy_params [] toy_log toy_model
             (Tensor2 (1, 3) [[1; 2; 3]%Z]) (Tensor2 (1, 3) [[2; 3; 1]%Z])
             toy_model_built).
    simpl. lia.
  - apply (loss_outcome toy_embedding toy_dense toy_layerNormalization
             toy_dropout toy_sqrt toy_exp toy_embedding_shape
             toy_dense_shape toy_dense_wf toy_layerNormalization_shape
             toy_dropout_shape toy_ln toy_params [] toy_log toy_model
             (Tensor2 (1, 2) [[1; 2]%Z]) (Tensor2 (1, 1) [[2%Z]])
             toy_model_built).
    + reflexivity.
    + repeat constructor; simpl; lia.
    + simpl. lia.
  - apply (loss_outcome toy_embedding toy_dense toy_layerNormalization
             toy_dropout toy_sqrt toy_exp toy_embedding_shape
             toy_dense_shape toy_dense_wf toy_layerNormalization_shape
             toy_dropout_shape toy_ln toy_params [] toy_log toy_model
             (Tensor2 (1, 2) [[1; 2]%Z]) (Tensor2 (1, 2) [[2; 3]%Z])
             toy_model_built).
    + reflexivity.
    + repeat constructor; simpl; lia.
    + reflexivity.
    + simpl. lia.
Defined.

(** The loss of two positions, the target of the second outside the
    vocabulary. *)
Lemma loss_value_witness :
  ∃ logits v,
    toy_apply toy_model (Tensor2 (1, 2) [[1; 2]%Z]) = Ok logits ∧
    toy_loss toy_model (Tensor2 (1, 2) [[1; 2]%Z]) (Tensor2 (1, 2) [[2; 3]%Z])
      = Ok v ∧
    length (concat (data3 logits)) = 2.
Proof.
  destruct (loss_value toy_embedding toy_dense toy_layerNormalization
              toy_dropout toy_sqrt toy_exp toy_embedding_shape
              toy_dense_shape toy_dense_wf toy_layerNormalization_shape
              toy_dropout_shape toy_exp_pos toy_ln toy_params [] toy_log
              toy_model
              (Tensor2 (1, 2) [[1; 2]%Z]) (Tensor2 (1, 2) [[2; 3]%Z]) 1)
    as (logits & Hlogits & Hlen & _ & Hloss & _).
  - exact toy_model_built.
  - reflexivity.
  - repeat constructor; simpl; lia.
  - split; [reflexivity|]. by repeat constructor.
  - reflexivity.
  - simpl. lia.
  - eexists logits, _. split; [exact Hlogits|]. split; [exact Hloss|].
    exact Hlen.
Defined.

(** The small model is made of 21 layers. *)
Lemma GPT_layers_witness :
  ∃ new, toy_log = new ∧ length new = 21 ∧ NoDup (layer_name <$> new).
Proof.
  destruct (GPT_layers toy_params [] toy_log toy_model toy_model_built)
    as (new & Hlog & Hlen & Hnodup).
  exists new. split; [exact Hlog|]. split; [exact Hlen|exact Hnodup].
Defined.

(** The small model is warm after [build]. *)
Lemma build_warm_witness : toy_build toy_model false = (Ok tt, true).
Proof.
  apply (build_warm toy_embedding toy_dense toy_layerNormalization
           toy_dropout toy_sqrt toy_exp toy_embedding_shape toy_dense_shape
           toy_dense_wf toy_layerNormalization_shape toy_dropout_shape
           toy_model false).
  exact toy_model_ok.
Defined.

(** The small model is built without dropout rates: all are 0.1. *)
Lemma GPT_dropout_rates_witness :
  drop_rate (drop (transformer toy_model)) = Fin (1 # 10).
Proof.
  exact (proj1 (GPT_dropout_rates toy_params [] toy_log toy_model
                  toy_model_built)).
Defined.

(** The sampler of the small instance returns indices of outcomes. *)
Lemma toy_multinomial_range p n b g :
  1 ≤ (shape2 p).2 →
  Forall (Forall (λ tok, (0 ≤ tok < Z.of_nat (shape2 p).2)%Z))
    (data2 (toy_multinomial p n b g).1).
Proof.
  intros HV. simpl. apply Forall_replicate, Forall_fmap, Forall_true.
  intros j. simpl.
  pose proof (Nat.mod_upper_bound (g + j) (shape2 p).2). lia.
Qed.

(** A sampled run of three iterations from the prompt [[3; 0]]: no token
    leaves the range of the embedding. *)
Lemma generate_tokens_in_range_witness :
  ∃ out trace g',
    toy_generate_trace "cpu" toy_model
      {| idx := Tensor2 (1, 2) [[3; 0]%Z]; maxNewTokens := 3;
         temperature := None; doSample := Some true; topK := None |} 5
      = Ok (out, trace, g') ∧
    Forall (Forall (λ tok, (0 ≤ tok < 4)%Z)) (data2 out).
Proof.
  eexists _, _, _. split; [vm_compute; reflexivity|].
  eapply (generate_tokens_in_range toy_embedding toy_dense
            toy_layerNormalization toy_dropout toy_sqrt toy_exp nat
            toy_multinomial "cpu" toy_embedding_shape toy_dense_shape
            toy_dense_wf toy_layerNormalization_shape toy_dropout_shape
            toy_multinomial_wf toy_multinomial_range
            toy_params [] toy_log toy_model
            {| idx := Tensor2 (1, 2) [[3; 0]%Z]; maxNewTokens := 3;
               temperature := None; doSample := Some true; topK := None |} 5).
  - exact toy_model_built.
  - simpl. lia.
  - split; [reflexivity|]. by repeat constructor.
  - repeat constructor; simpl; lia.
  - vm_compute. reflexivity.
Defined.


(** ** The small instance works row by row *)

Lemma toy_exp_proper (a b : Q) : (a == b)%Q → (toy_exp a == toy_exp b)%Q.
Proof. intros H. unfold toy_exp. by rewrite H. Qed.

Lemma toy_sqrt_pos (n : nat) :
  1 ≤ n → ∃ q, toy_sqrt n = Fin q ∧ (0 < q)%Q.
Proof.
  intros Hn. eexists. split; [reflexivity|].
  pose proof (Nat.sqrt_le_mono 1 n Hn) as Hs.
  change (Nat.sqrt 1) with 1 in Hs.
  unfold Qlt. simpl. lia.
Qed.

Lemma toy_dropout_inference (a : DropoutArgs) (x : tensor3 num) :
  toy_dropout a x = x.
Proof. reflexivity. Qed.

Lemma toy_embedding_rowwise (a : EmbeddingArgs) :
  ∃ g : Z → list num,
    (∀ tok, (0 ≤ tok < Z.of_nat (emb_inputDim a))%Z →
            Forall (λ v, is_fin v) (g tok)) ∧
    (∀ tok, length (g tok) = emb_outputDim a) ∧
    ∀ idx, data3 (toy_embedding a idx) = fmap (M:=list) g <$> data2 idx.
Proof.
  exists (λ tok, replicate (emb_outputDim a) (Fin (inject_Z tok))).
  split_and!.
  - intros tok _. by apply Forall_replicate.
  - intros tok. by rewrite length_replicate.
  - done.
Qed.

Lemma toy_layerNormalization_rowwise (a : LayerNormArgs) :
  ∃ g : list num → list num,
    (∀ r r', row_equiv r r' → row_equiv (g r) (g r')) ∧
    (∀ r, Forall (λ v, is_fin v) r → Forall (λ v, is_fin v) (g r)) ∧
    (∀ r, length (g r) = length r) ∧
    ∀ x, wf3 x →
      data3 (toy_layerNormalization a x) = fmap (M:=list) g <$> data3 x.
Proof.
  exists id. split_and!; try done.
  intros x _. unfold toy_layerNormalization.
  rewrite <- (list_fmap_id (data3 x)) at 1.
  apply list_fmap_ext. intros _ m _. by rewrite list_fmap_id.
Qed.

Lemma num_floor_equiv (x y : num) :
  num_equiv x y → num_floor x = num_floor y.
Proof. destruct x, y; simpl; try done. intros H. by rewrite H. Qed.

Lemma toy_dense_rowwise (a : DenseArgs) :
  ∃ g : list num → list num,
    (∀ r r', row_equiv r r' → row_equiv (g r) (g r')) ∧
    (∀ r, Forall (λ v, is_fin v) r → Forall (λ v, is_fin v) (g r)) ∧
    ∀ x, wf3 x → data3 (toy_dense a x) = fmap (M:=list) g <$> data3 x.
Proof.
  exists (λ r, (λ j, Fin (inject_Z
                       ((num_floor (foldr num_add (Fin 0) r) + Z.of_nat j)
                          mod 3)%Z))
               <$> seq 0 (dense_units a)).
  split_and!.
  - intros r r' Hr. rewrite (num_floor_equiv _ _ (sum_equiv _ _ Hr)).
    apply row_equiv_refl.
  - intros r _. by apply Forall_fmap, Forall_true.
  - intros x [Hlen Hmats]. unfold toy_dense. simpl.
    apply list_eq. intros b. rewrite !list_lookup_fmap.
    destruct (decide (b < (shape3 x).1.1)) as [Hb|Hb].
    2:{ rewrite lookup_seq_ge, (lookup_ge_None_2 (data3 x) b) by lia. done. }
    rewrite lookup_seq_lt by done.
    destruct (lookup_lt_is_Some_2 (data3 x) b) as [m Hm]; [lia|].
    rewrite Hm. simpl. f_equal.
    rewrite Forall_lookup in Hmats. destruct (Hmats b m Hm) as [HT _].
    simpl in HT.
    apply list_eq. intros t. rewrite !list_lookup_fmap.
    destruct (decide (t < (shape3 x).1.2)) as [Ht|Ht].
    2:{ rewrite lookup_seq_ge, (lookup_ge_None_2 m t) by lia. done. }
    rewrite lookup_seq_lt by done.
    destruct (lookup_lt_is_Some_2 m t) as [r Hr]; [lia|].
    rewrite Hr. simpl. rewrite Hm. simpl. by rewrite Hr.
Qed.

(** The first head of the small model on two sequences of two positions
    that differ at the second: what the head returns at the first is the
    same. *)
Lemma Head_apply_causal_witness :
  match (Head 4 2 2 (Fin (1 # 10)) "block1-attn-head0" []).2 with
  | Ok hd =>
      ∃ y y',
        Head_apply toy_dense toy_dropout toy_sqrt toy_exp hd
          (Tensor3 (1, 2, 4)
             [[[Fin 1; Fin 1; Fin 1; Fin 1]; [Fin 2; Fin 2; Fin 2; Fin 2]]])
          = Ok y ∧
        Head_apply toy_dense toy_dropout toy_sqrt toy_exp hd
          (Tensor3 (1, 2, 4)
             [[[Fin 1; Fin 1; Fin 1; Fin 1]; [Fin 5; Fin 5; Fin 5; Fin 5]]])
          = Ok y' ∧
        ∀ row row',
          data3 y !! 0 ≫= (.!! 0) = Some row →
          data3 y' !! 0 ≫= (.!! 0) = Some row' →
          row_equiv row row'
  | Err _ => False
  end.
Proof.
  assert (∃ hd, (Head 4 2 2 (Fin (1 # 10)) "block1-attn-head0" []).2 = Ok hd
                ∧ head_ok 2 2 hd) as (hd & Hhd & Hok).
  { eexists. split; [reflexivity|]. by repeat split. }
  rewrite Hhd.
  destruct (Head_apply_causal toy_dense toy_dropout toy_sqrt toy_exp
              toy_dense_shape toy_dense_wf toy_exp_pos toy_exp_proper
              toy_dense_rowwise toy_dropout_inference toy_sqrt_pos hd
              (Tensor3 (1, 2, 4)
                 [[[Fin 1; Fin 1; Fin 1; Fin 1]; [Fin 2; Fin 2; Fin 2; Fin 2]]])
              (Tensor3 (1, 2, 4)
                 [[[Fin 1; Fin 1; Fin 1; Fin 1]; [Fin 5; Fin 5; Fin 5; Fin 5]]])
              1 1 2 4 2 2 Hok)
    as (y & y' & Hy & Hy' & _ & _ & Hrows).
  - lia.
  - lia.
  - split_and!; [reflexivity|by repeat constructor|by repeat constructor].
  - split_and!; [reflexivity|by repeat constructor|by repeat constructor].
  - split; [reflexivity|]. by repeat constructor.
  - exists y, y'. split; [exact Hy|]. split; [exact Hy'|].
    intros row row'. apply (Hrows 0 0). lia.
Defined.

(** The small model on [1, 2] and on [1, 3]: the logits at the first
    position are the same. *)
Lemma GPT_apply_causal_witness :
  ∃ logits logits',
    toy_apply toy_model (Tensor2 (1, 2) [[1; 2]%Z]) = Ok logits ∧
    toy_apply toy_model (Tensor2 (1, 2) [[1; 3]%Z]) = Ok logits' ∧
    ∀ row row',
      data3 logits !! 0 ≫= (.!! 0) = Some row →
      data3 logits' !! 0 ≫= (.!! 0) = Some row' →
      row_equiv row row'.
Proof.
  destruct (GPT_apply_causal toy_embedding toy_dense toy_layerNormalization
              toy_dropout toy_sqrt toy_exp toy_embedding_shape
              toy_dense_shape toy_dense_wf toy_layerNormalization_shape
              toy_exp_pos toy_exp_proper toy_dense_rowwise
              toy_layerNormalization_rowwise toy_dropout_inference
              toy_embedding_rowwise toy_sqrt_pos
              toy_params [] toy_log toy_model
              (Tensor2 (1, 2) [[1; 2]%Z]) (Tensor2 (1, 2) [[1; 3]%Z]) 1 1
              toy_model_built)
    as (l & l' & Hl & Hl' & _ & _ & Hrows).
  - simpl. lia.
  - split; [reflexivity|]. by repeat constructor.
  - split; [reflexivity|]. by repeat constructor.
  - reflexivity.
  - reflexivity.
  - simpl. constructor; [|constructor].
    constructor; [lia|]. constructor; [lia|constructor].
  - simpl. constructor; [|constructor].
    constructor; [lia|]. constructor; [lia|constructor].
  - by repeat constructor.
  - exists l, l'. split; [exact Hl|]. split; [exact Hl'|].
    intros row row'. apply (Hrows 0 0). lia.
Defined.

(** The iteration with counter 0 on the sequence [1, 2] and on the
    sequence [1]: the logits it works on are the same. *)
Lemma generate_step_reads_prefix_witness :
  match
    generate_step toy_embedding toy_dense toy_layerNormalization toy_dropout
      toy_sqrt toy_exp nat toy_multinomial "cpu" toy_model (Fin 1) false None
      0 (Tensor2 (1, 2) [[1; 2]%Z]) 0,
    generate_step toy_embedding toy_dense toy_layerNormalization toy_dropout
      toy_sqrt toy_exp nat toy_multinomial "cpu" toy_model (Fin 1) false None
      0 (Tensor2 (1, 1) [[1%Z]]) 0
  with
  | Ok (it, _), Ok (it', _) =>
      Forall2 row_equiv (data2 (it_lastCharLogits it))
        (data2 (it_lastCharLogits it'))
  | _, _ => False
  end.
Proof.
  destruct (generate_step _ _ _ _ _ _ _ _ _ _ _ _ _ _ (Tensor2 (1, 2) _) _)
    as [[it g1]|e] eqn:H1; [|vm_compute in H1; discriminate H1].
  destruct (generate_step _ _ _ _ _ _ _ _ _ _ _ _ _ _ (Tensor2 (1, 1) _) _)
    as [[it' g1']|e] eqn:H2; [|vm_compute in H2; discriminate H2].
  apply (generate_step_reads_prefix toy_embedding toy_dense
           toy_layerNormalization toy_dropout toy_sqrt toy_exp nat
           toy_multinomial "cpu" toy_embedding_shape toy_dense_shape
           toy_dense_wf toy_layerNormalization_shape toy_exp_pos
           toy_exp_proper toy_dense_rowwise toy_layerNormalization_rowwise
           toy_dropout_inference toy_embedding_rowwise toy_sqrt_pos
           toy_params [] toy_log toy_model (Fin 1) false None 0
           (Tensor2 (1, 2) [[1; 2]%Z]) (Tensor2 (1, 1) [[1%Z]]) 0 0 it it'
           g1 g1' toy_model_built).
  - simpl. lia.
  - split; [reflexivity|]. by repeat constructor.
  - split; [reflexivity|]. by repeat constructor.
  - reflexivity.
  - simpl. lia.
  - simpl. lia.
  - simpl. constructor; [|constructor].
    constructor; [lia|]. constructor; [lia|constructor].
  - simpl. constructor; [|constructor]. constructor; [lia|constructor].
  - by repeat constructor.
  - exact H1.
  - exact H2.
Defined.

(** A greedy run of two iterations on a model with a block of four
    positions, from the prompt [1, 2]: the second iteration works on the
    logits of the first forward pass at the second token of the prompt. *)
Lemma generate_reads_prompt_witness :
  match
    GPT {| nLayer := 1; nHead := 2; nEmbd := 4; vocabSize := 3;
           blockSize := 4; embdDropout := None; residDropout := None;
           attnDropout := None |} []
  with
  | (_, Ok m) =>
      match
        toy_generate_trace "cpu" m
          {| idx := Tensor2 (1, 2) [[1; 2]%Z]; maxNewTokens := 2;
             temperature := None; doSample := None; topK := None |} 0
      with
      | Ok (_, [it0; it1], _) =>
          Forall2
            (λ row mat0, ∃ row0, mat0 !! 1 = Some row0 ∧ row_equiv row row0)
            (data2 (it_lastCharLogits it1)) (data3 (it_logits it0))
      | _ => False
      end
  | _ => False
  end.
Proof.
  destruct (GPT _ []) as [log' [m|e]] eqn:HG;
    [|vm_compute in HG; discriminate HG].
  destruct (toy_generate_trace "cpu" m _ 0) as [[[out trace] g']|e] eqn:Htr.
  2:{ vm_compute in HG. injection HG as <- <-.
      vm_compute in Htr. discriminate Htr. }
  pose proof (generate_reads_prompt toy_embedding toy_dense
                toy_layerNormalization toy_dropout toy_sqrt toy_exp nat
                toy_multinomial "cpu" toy_embedding_shape toy_dense_shape
                toy_dense_wf toy_layerNormalization_shape toy_dropout_shape
                toy_multinomial_shape toy_multinomial_wf toy_exp_pos
                toy_multinomial_range toy_exp_proper toy_dense_rowwise
                toy_layerNormalization_rowwise toy_dropout_inference
                toy_embedding_rowwise toy_sqrt_pos _ [] log' m
                {| idx := Tensor2 (1, 2) [[1; 2]%Z]; maxNewTokens := 2;
                   temperature := None; doSample := None; topK := None |}
                0 out trace g' HG) as Hrun.
  simpl in Hrun.
  specialize (Hrun ltac:(lia) ltac:(lia)).
  specialize (Hrun ltac:(split; [reflexivity|by repeat constructor])).
  specialize (Hrun ltac:(constructor; [|constructor];
                         constructor; [lia|]; constructor; [lia|constructor])).
  specialize (Hrun Htr).
  vm_compute in HG. injection HG as <- <-.
  vm_compute in Htr. injection Htr as <- <- <-.
  apply (Hrun 1 _ _ eq_refl eq_refl); lia.
Defined.
